(** * A shallow embedding of the node core: mempool, MPT proofs, DAO
      transaction lookups and the TCP peer session machine.

    Every definition below is a translation of a Go function of the
    repository; the Go name is kept.  Byte strings are lists of [Z],
    Go's [int64]-based [util.Fixed8] is [Z] with the wrap-around of the
    machine addition written out, Go maps are [gmap]s and slices are
    lists. *)

From Stdlib Require Import ZArith Lia.
From stdpp Require Import gmap list sorting strings.

(** ** Machine integers and byte strings *)

(** Two's complement wrap-around of a 64-bit signed integer. *)
Definition wrap64 (x : Z) : Z :=
  ((x + 2 ^ 63) `mod` 2 ^ 64 - 2 ^ 63)%Z.

Definition add64 (x y : Z) : Z := wrap64 (x + y).
Definition sub64 (x y : Z) : Z := wrap64 (x - y).

(** Go's [bytes.Compare]: lexicographic, result in {-1, 0, 1}. *)
Fixpoint bytes_Compare (a b : list Z) : Z :=
  match a, b with
  | [], [] => 0
  | [], _ :: _ => -1
  | _ :: _, [] => 1
  | x :: a', y :: b' =>
      if (x <? y)%Z then (-1)%Z
      else if (y <? x)%Z then 1%Z
      else bytes_Compare a' b'
  end.

(** Go's [sort.Search]: the binary search loop
    [for i < j { h := (i+j)/2; if !f(h) { i = h+1 } else { j = h } }].
    The loop runs at most [n] times on [0, n), which is the fuel given. *)
Fixpoint search_loop (fuel : nat) (f : nat -> bool) (i j : nat) : nat :=
  match fuel with
  | O => i
  | S fuel' =>
      if i <? j then
        let h := (i + j) / 2 in
        if negb (f h) then search_loop fuel' f (h + 1) j
        else search_loop fuel' f i h
      else i
  end.

Definition sort_Search (n : nat) (f : nat -> bool) : nat :=
  search_loop n f 0 n.

(** Go's [copy(s[n+1:], s[n:])]: the elements from index [n] on move one
    place to the right, the last one is overwritten. *)
Definition copy_shift_right {A} (s : list A) (n : nat) : list A :=
  take (S n) s ++ take (length s - S n) (drop n s).

(** Go's [copy(s[n:], s[n+1:])] followed by [s = s[:len(s)-1]]. *)
Definition copy_shift_left {A} (s : list A) (n : nat) : list A :=
  take n s ++ drop (S n) s.

(** [for num = range s { if p(s[num]) { break } }]: the value of [num]
    after the loop; without a hit it is the last index (0 on an empty
    slice, where the loop body never runs). *)
Fixpoint range_break_from {A} (p : A -> bool) (s : list A) (idx last : nat) : nat :=
  match s with
  | [] => last
  | x :: s' => if p x then idx else range_break_from p s' (S idx) idx
  end.

Definition range_break {A} (p : A -> bool) (s : list A) : nat :=
  range_break_from p s 0 0.

(** [sort.Slice] with a strict [less]: an insertion sort.  The slices
    sorted in this development are ordered by a comparison that is zero
    only on equal values, so every sorting algorithm gives the same
    result. *)
Fixpoint sort_insert {A} (less : A -> A -> bool) (x : A) (l : list A) : list A :=
  match l with
  | [] => [x]
  | y :: l' => if less y x then y :: sort_insert less x l' else x :: l
  end.

Definition sort_Slice {A} (less : A -> A -> bool) (l : list A) : list A :=
  foldr (sort_insert less) [] l.

(** ** Facts about the byte order and the binary search *)

(** "Lexicographically smaller", as the spec words it: the first byte
    that differs is smaller, or the string is a proper prefix. *)
Inductive lex_lt : list Z -> list Z -> Prop :=
| lex_lt_nil y b : lex_lt [] (y :: b)
| lex_lt_head x y a b : (x < y)%Z -> lex_lt (x :: a) (y :: b)
| lex_lt_tail x a b : lex_lt a b -> lex_lt (x :: a) (x :: b).

Section ByteOrder.

Lemma lex_lt_irrefl a : ~ lex_lt a a.
Proof.
  induction a as [|x a IH]; intros H; inversion H; subst; try lia; auto.
Qed.

Lemma lex_lt_trans a b c : lex_lt a b -> lex_lt b c -> lex_lt a c.
Proof.
  intros Hab; revert c.
  induction Hab as [y b|x y a b Hxy|x a b Hab IH]; intros c Hbc;
    inversion Hbc; subst;
    first [ apply lex_lt_nil
          | apply lex_lt_head; lia
          | apply lex_lt_tail; apply IH; assumption ].
Qed.

Lemma lex_lt_asym a b : lex_lt a b -> ~ lex_lt b a.
Proof. intros H1 H2. exact (lex_lt_irrefl a (lex_lt_trans a b a H1 H2)). Qed.

(** The three results of [bytes.Compare] and what each one means. *)
Lemma bytes_Compare_cases a b :
  (bytes_Compare a b = (-1)%Z /\ lex_lt a b) \/
  (bytes_Compare a b = 0%Z /\ a = b) \/
  (bytes_Compare a b = 1%Z /\ lex_lt b a).
Proof.
  revert b; induction a as [|x a IH]; intros [|y b]; simpl.
  - right; left; auto.
  - left; split; [reflexivity | constructor].
  - right; right; split; [reflexivity | constructor].
  - destruct (Z.ltb_spec x y) as [Hxy|Hxy].
    { left; split; [reflexivity | constructor; lia]. }
    destruct (Z.ltb_spec y x) as [Hyx|Hyx].
    { right; right; split; [reflexivity | constructor; lia]. }
    assert (x = y) by lia; subst y.
    destruct (IH b) as [[-> H]|[[-> H]|[-> H]]].
    + left; split; [reflexivity | constructor; exact H].
    + right; left; split; [reflexivity | congruence].
    + right; right; split; [reflexivity | constructor; exact H].
Qed.

Lemma bytes_Compare_refl a : bytes_Compare a a = 0%Z.
Proof.
  destruct (bytes_Compare_cases a a) as [[_ H]|[[H _]|[_ H]]]; auto;
    exfalso; exact (lex_lt_irrefl a H).
Qed.

Lemma bytes_Compare_eq a b : bytes_Compare a b = 0%Z <-> a = b.
Proof.
  split; [|intros ->; apply bytes_Compare_refl].
  destruct (bytes_Compare_cases a b) as [[-> _]|[[_ H]|[-> _]]]; auto; lia.
Qed.

Lemma bytes_Compare_neg a b : (bytes_Compare a b < 0)%Z <-> lex_lt a b.
Proof.
  destruct (bytes_Compare_cases a b) as [[-> H]|[[-> H]|[-> H]]];
    split; intros H'; try lia; auto.
  - subst; exfalso; exact (lex_lt_irrefl b H').
  - exfalso; exact (lex_lt_asym _ _ H H').
Qed.

Lemma bytes_Compare_pos a b : (0 < bytes_Compare a b)%Z <-> lex_lt b a.
Proof.
  destruct (bytes_Compare_cases a b) as [[-> H]|[[-> H]|[-> H]]];
    split; intros H'; try lia; auto.
  - exfalso; exact (lex_lt_asym _ _ H H').
  - subst; exfalso; exact (lex_lt_irrefl b H').
Qed.

Lemma bytes_Compare_antisym a b : bytes_Compare b a = (- bytes_Compare a b)%Z.
Proof.
  destruct (bytes_Compare_cases a b) as [[-> H]|[[-> H]|[-> H]]].
  - apply bytes_Compare_pos in H.
    destruct (bytes_Compare_cases b a) as [[E _]|[[E _]|[E _]]]; lia.
  - subst; rewrite bytes_Compare_refl; reflexivity.
  - apply bytes_Compare_neg in H.
    destruct (bytes_Compare_cases b a) as [[E _]|[[E _]|[E _]]]; lia.
Qed.

End ByteOrder.

(** The midpoint of the search interval lies inside it. *)
Ltac midpoint_lia i j :=
  pose proof (Nat.div_mod_eq (i + j) 2);
  pose proof (Nat.mod_upper_bound (i + j) 2);
  lia.

Section BinarySearch.

Variable f : nat -> bool.

Lemma search_loop_S fuel i j :
  search_loop (S fuel) f i j =
  if i <? j then
    if negb (f ((i + j) / 2)) then search_loop fuel f ((i + j) / 2 + 1) j
    else search_loop fuel f i ((i + j) / 2)
  else i.
Proof. reflexivity. Qed.

(** On a predicate that is monotone on [i, j) the loop returns the
    boundary: false below it, true from it on. *)
Lemma search_loop_boundary fuel : forall i j,
  j - i <= fuel -> i <= j ->
  (forall a b, i <= a -> a <= b -> b < j -> f a = true -> f b = true) ->
  i <= search_loop fuel f i j <= j /\
  (forall k, i <= k -> k < search_loop fuel f i j -> f k = false) /\
  (forall k, search_loop fuel f i j <= k -> k < j -> f k = true).
Proof.
  induction fuel as [|fuel IH]; intros i j Hfuel Hij Hmono.
  - simpl. repeat split; intros; lia.
  - rewrite search_loop_S.
    destruct (Nat.ltb_spec i j) as [Hlt|Hge].
    2:{ repeat split; intros; lia. }
    set (h := (i + j) / 2).
    assert (Hh : i <= h < j) by (subst h; midpoint_lia i j).
    destruct (f h) eqn:Hfh; cbn [negb].
    + destruct (IH i h) as (Hr & Hlo & Hhi); [lia | lia | |].
      { intros a b ? ? ? ?. apply (Hmono a b); lia || assumption. }
      split; [lia|]. split; [exact Hlo|].
      intros k Hk1 Hk2.
      destruct (Nat.lt_ge_cases k h) as [Hkh|Hkh]; [apply Hhi; lia|].
      apply (Hmono h k); lia || assumption.
    + destruct (IH (h + 1) j) as (Hr & Hlo & Hhi); [lia | lia | |].
      { intros a b ? ? ? ?. apply (Hmono a b); lia || assumption. }
      split; [lia|]. split; [|exact Hhi].
      intros k Hk1 Hk2.
      destruct (Nat.lt_ge_cases h k) as [Hkh|Hkh]; [apply Hlo; lia|].
      destruct (f k) eqn:Hfk; [|reflexivity].
      rewrite (Hmono k h) in Hfh; [discriminate| lia | lia | lia | assumption].
Qed.

Lemma sort_Search_boundary n :
  (forall a b, a <= b -> b < n -> f a = true -> f b = true) ->
  sort_Search n f <= n /\
  (forall k, k < sort_Search n f -> f k = false) /\
  (forall k, sort_Search n f <= k -> k < n -> f k = true).
Proof.
  intros Hmono. unfold sort_Search.
  destruct (search_loop_boundary n 0 n) as (Hr & Hlo & Hhi); [lia | lia | |].
  { intros a b _ ? ? ?. apply (Hmono a b); assumption. }
  split; [apply Hr|]. split; [intros; apply Hlo; lia | exact Hhi].
Qed.

Lemma search_loop_le fuel : forall i j, i <= j -> search_loop fuel f i j <= j.
Proof.
  induction fuel as [|fuel IH]; intros i j Hij; [simpl; lia|].
  rewrite search_loop_S.
  destruct (Nat.ltb_spec i j) as [Hlt|Hge]; [|lia].
  assert (Hh : i <= (i + j) / 2 < j) by midpoint_lia i j.
  destruct (f ((i + j) / 2)); cbn [negb].
  - etransitivity; [apply IH|]; lia.
  - apply IH; lia.
Qed.

Lemma sort_Search_le n : sort_Search n f <= n.
Proof. apply search_loop_le; lia. Qed.

End BinarySearch.

(** ** The memory pool (package mempool) *)

Module Mempool.

(** [transaction.Input]: a reference to a previous output. *)
Record Input := mkInput { PrevHash : list Z; PrevIndex : Z }.

#[global] Instance Input_eq_dec : EqDecision Input.
Proof. solve_decision. Defined.

(** Modelled from the spec: [Input.Cmp] is declared outside the pool's
    file; the spec asks that each input is uniquely orderable.  The
    order is the one of the previous hash, then of the output index. *)
Definition Cmp (a b : Input) : Z :=
  let hashcmp := bytes_Compare (PrevHash a) (PrevHash b) in
  if (hashcmp =? 0)%Z then (PrevIndex a - PrevIndex b)%Z else hashcmp.

(** [transaction.Transaction], with the fields the pool reads.  [Hash]
    is the value of [t.Hash()] and [Size] the serialized length that
    [FeePerByte] divides by. *)
Record Transaction := mkTx {
  Hash : list Z;
  Sender : list Z;
  SystemFee : Z;
  NetworkFee : Z;
  Inputs : list Input;
  Size : Z
}.

(** Modelled from the spec: [Transaction.FeePerByte] is declared outside
    the pool's file; the glossary defines it as the network fee divided
    by the serialized length, a fixed-point quotient (Go's [/] truncates
    towards zero). *)
Definition FeePerByte (t : Transaction) : Z := (NetworkFee t ÷ Size t)%Z.

(** Modelled from the spec: [util.Fixed8.CompareTo] is declared outside
    the pool's file.  A fixed-point amount is a signed 64-bit integer,
    and [item.CompareTo] returns the result of this helper as "the
    difference between two items": the helper is the difference of the
    two amounts as an [int], [int(f - g)], with the wrap-around of the
    64-bit subtraction. *)
Definition Fixed8_CompareTo (f g : Z) : Z := sub64 f g.

(** Modelled from the spec: [util.Uint256.CompareTo] is declared outside
    the pool's file; hashes are totally ordered by byte value. *)
Definition Uint256_CompareTo (u other : list Z) : Z := bytes_Compare u other.

Inductive error := ErrConflict | ErrDup | ErrOOM.

Record item := mkItem {
  txn : Transaction;
  timeStamp : Z;
  isLowPrio : bool
}.

#[global] Instance Transaction_eq_dec : EqDecision Transaction.
Proof. solve_decision. Defined.

#[global] Instance item_eq_dec : EqDecision item.
Proof. solve_decision. Defined.

Record utilityBalanceAndFees := mkUBF { balance : Z; feeSum : Z }.

(** The [Feer] collaborator. *)
Record Feer := mkFeer {
  IsLowPriority : Z -> bool;
  GetUtilityTokenBalance : list Z -> Z
}.

Record Pool := mkPool {
  verifiedMap : gmap (list Z) item;
  verifiedTxes : list item;
  inputs : list Input;
  fees : gmap (list Z) utilityBalanceAndFees;
  capacity : nat
}.

(** [item.CompareTo]; [None] is the nil pointer. *)
Definition CompareTo (p : item) (otherP : option item) : Z :=
  match otherP with
  | None => 1
  | Some o =>
      if negb (isLowPrio p) && isLowPrio o then 1
      else if isLowPrio p && negb (isLowPrio o) then (-1)
      else
        let ret := Fixed8_CompareTo (FeePerByte (txn p)) (FeePerByte (txn o)) in
        if negb (ret =? 0)%Z then ret
        else
          let ret := Fixed8_CompareTo (NetworkFee (txn p)) (NetworkFee (txn o)) in
          if negb (ret =? 0)%Z then ret
          else Uint256_CompareTo (Hash (txn o)) (Hash (txn p))
  end%Z.

Definition count (mp : Pool) : nat := length (verifiedTxes mp).

Definition containsKey (mp : Pool) (hash : list Z) : bool :=
  match verifiedMap mp !! hash with
  | Some _ => true
  | None => false
  end.

(** [slice[n]] inside a [sort.Search] callback: the search only probes
    indices below the length, so the default is never used. *)
Definition findIndexForInput (slice : list Input) (input : Input) : nat :=
  sort_Search (length slice) (fun n =>
    match slice !! n with
    | Some x => (Cmp input x <=? 0)%Z
    | None => false
    end).

Definition pushInputToSortedSlice (slice : list Input) (input : Input) : list Input :=
  let n := findIndexForInput slice input in
  let slice := slice ++ [input] in
  if negb (n =? length slice - 1) then <[n := input]> (copy_shift_right slice n)
  else slice.

Definition dropInputFromSortedSlice (slice : list Input) (input : Input) : list Input :=
  let n := findIndexForInput slice input in
  match slice !! n with
  | None => slice
  | Some x =>
      if bool_decide (input ≠ x) then slice
      else copy_shift_left slice n
  end.

Definition set_fees (mp : Pool) (f : gmap (list Z) utilityBalanceAndFees) : Pool :=
  mkPool (verifiedMap mp) (verifiedTxes mp) (inputs mp) f (capacity mp).

(** [mp.fees[k]] read without the [ok] flag: the zero value when absent. *)
Definition fees_at (mp : Pool) (k : list Z) : utilityBalanceAndFees :=
  default (mkUBF 0 0) (fees mp !! k).

Definition checkBalanceAndUpdate (mp : Pool) (tx : Transaction) (feer : Feer)
  : Pool * bool :=
  let '(mp, senderFee) :=
    match fees mp !! Sender tx with
    | Some sf => (mp, sf)
    | None =>
        let sf := mkUBF (GetUtilityTokenBalance feer (Sender tx)) 0 in
        (set_fees mp (<[Sender tx := sf]> (fees mp)), sf)
    end in
  let needFee := add64 (add64 (feeSum senderFee) (SystemFee tx)) (NetworkFee tx) in
  if (balance senderFee <? needFee)%Z then (mp, false) else (mp, true).

Definition addSendersFee (mp : Pool) (tx : Transaction) : Pool :=
  let senderFee := fees_at mp (Sender tx) in
  let senderFee :=
    mkUBF (balance senderFee)
          (add64 (feeSum senderFee) (add64 (SystemFee tx) (NetworkFee tx))) in
  set_fees mp (<[Sender tx := senderFee]> (fees mp)).

Definition tryAddSendersFee (mp : Pool) (tx : Transaction) (feer : Feer)
  : Pool * bool :=
  let '(mp, ok) := checkBalanceAndUpdate mp tx feer in
  if negb ok then (mp, false) else (addSendersFee mp tx, true).

Definition areInputsInPool (ins : list Input) (pool : list Input) : bool :=
  existsb (fun i =>
    let n := findIndexForInput pool i in
    match pool !! n with
    | Some x => bool_decide (x = i)
    | None => false
    end) ins.

Definition checkTxConflicts (mp : Pool) (tx : Transaction) (fee : Feer)
  : Pool * bool :=
  if areInputsInPool (Inputs tx) (inputs mp) then (mp, false)
  else
    let '(mp, ok) := checkBalanceAndUpdate mp tx fee in
    if negb ok then (mp, false) else (mp, true).

(** [Pool.Add]; [now] is the value of [time.Now().UTC()].  The pool
    returned with an error is the pool as the call leaves it. *)
Definition Add (mp : Pool) (t : Transaction) (fee : Feer) (now : Z)
  : Pool * option error :=
  let pItem := mkItem t now (IsLowPriority fee (NetworkFee t)) in
  let '(mp, ok) := checkTxConflicts mp t fee in
  if negb ok then (mp, Some ErrConflict)
  else if containsKey mp (Hash t) then (mp, Some ErrDup)
  else
    let vmap := <[Hash t := pItem]> (verifiedMap mp) in
    let txes := verifiedTxes mp in
    let n := sort_Search (length txes)
               (fun n => (0 <? CompareTo pItem (txes !! n))%Z) in
    if length txes =? capacity mp then
      if n =? length txes then
        (mkPool vmap txes (inputs mp) (fees mp) (capacity mp), Some ErrOOM)
      else
        (* Ditch the last one. *)
        let vmap :=
          match last txes with
          | Some unlucky => delete (Hash (txn unlucky)) vmap
          | None => vmap
          end in
        let txes := <[length txes - 1 := pItem]> txes in
        let txes :=
          if negb (n =? length txes - 1)
          then <[n := pItem]> (copy_shift_right txes n) else txes in
        let mp := addSendersFee (mkPool vmap txes (inputs mp) (fees mp) (capacity mp)) t in
        (mkPool (verifiedMap mp) (verifiedTxes mp)
                (foldl pushInputToSortedSlice (inputs mp) (Inputs t))
                (fees mp) (capacity mp), None)
    else
      let txes := txes ++ [pItem] in
      let txes :=
        if negb (n =? length txes - 1)
        then <[n := pItem]> (copy_shift_right txes n) else txes in
      let mp := addSendersFee (mkPool vmap txes (inputs mp) (fees mp) (capacity mp)) t in
      (mkPool (verifiedMap mp) (verifiedTxes mp)
              (foldl pushInputToSortedSlice (inputs mp) (Inputs t))
              (fees mp) (capacity mp), None).

(** [Pool.Remove]. *)
Definition Remove (mp : Pool) (hash : list Z) : Pool :=
  match verifiedMap mp !! hash with
  | None => mp
  | Some it =>
      let vmap := delete hash (verifiedMap mp) in
      let txes := verifiedTxes mp in
      let num := range_break (fun x => bool_decide (hash = Hash (txn x))) txes in
      let txes :=
        if (Z.of_nat num <? Z.of_nat (length txes) - 1)%Z
        then take num txes ++ drop (S num) txes
        else if (Z.of_nat num =? Z.of_nat (length txes) - 1)%Z
        then take num txes
        else txes in
      let senderFee := fees_at mp (Sender (txn it)) in
      let senderFee :=
        mkUBF (balance senderFee)
              (sub64 (feeSum senderFee)
                     (add64 (SystemFee (txn it)) (NetworkFee (txn it)))) in
      mkPool vmap txes
             (foldl dropInputFromSortedSlice (inputs mp) (Inputs (txn it)))
             (<[Sender (txn it) := senderFee]> (fees mp))
             (capacity mp)
  end.

(** One iteration of the loop of [RemoveStale]; the state is the pool
    (its map and the fresh fee table) with the two slices being built. *)
Definition RemoveStale_step (isOK : Transaction -> bool) (feer : Feer)
    (st : Pool * list item * list Input) (itm : item)
  : Pool * list item * list Input :=
  let '(mp, newVerifiedTxes, newInputs) := st in
  if isOK (txn itm) then
    let '(mp, ok) := tryAddSendersFee mp (txn itm) feer in
    if ok then (mp, newVerifiedTxes ++ [itm], newInputs ++ Inputs (txn itm))
    else
      (mkPool (delete (Hash (txn itm)) (verifiedMap mp)) (verifiedTxes mp)
              (inputs mp) (fees mp) (capacity mp),
       newVerifiedTxes, newInputs)
  else
    (mkPool (delete (Hash (txn itm)) (verifiedMap mp)) (verifiedTxes mp)
            (inputs mp) (fees mp) (capacity mp),
     newVerifiedTxes, newInputs).

(** [Pool.RemoveStale]. *)
Definition RemoveStale (mp : Pool) (isOK : Transaction -> bool) (feer : Feer) : Pool :=
  let mp0 := set_fees mp ∅ in
  let '(mp1, newVerifiedTxes, newInputs) :=
    foldl (RemoveStale_step isOK feer) (mp0, [], []) (verifiedTxes mp) in
  let newInputs := sort_Slice (fun a b => (Cmp a b <? 0)%Z) newInputs in
  mkPool (verifiedMap mp1) newVerifiedTxes newInputs (fees mp1) (capacity mp1).

Definition NewMemPool (capacity : nat) : Pool := mkPool ∅ [] [] ∅ capacity.

(** [Pool.Verify]; the pool returned is the pool as the call leaves it. *)
Definition Verify (mp : Pool) (tx : Transaction) (feer : Feer) : Pool * bool :=
  checkTxConflicts mp tx feer.

Definition ContainsKey := containsKey.
Definition Count := count.

(** Calls of the pool's methods that can change its state, and the pool
    they leave behind.  [Verify] is among them: it runs
    [checkBalanceAndUpdate]. *)
Inductive op :=
| OpAdd (t : Transaction) (fee : Feer) (now : Z)
| OpRemove (hash : list Z)
| OpRemoveStale (isOK : Transaction -> bool) (feer : Feer)
| OpVerify (tx : Transaction) (feer : Feer).

Definition apply_op (mp : Pool) (o : op) : Pool :=
  match o with
  | OpAdd t fee now => (Add mp t fee now).1
  | OpRemove hash => Remove mp hash
  | OpRemoveStale isOK feer => RemoveStale mp isOK feer
  | OpVerify tx feer => (Verify mp tx feer).1
  end.

(** The pool after a sequence of calls on a fresh pool. *)
Definition run (capacity : nat) (ops : list op) : Pool :=
  foldl apply_op (NewMemPool capacity) ops.

(** The three-way coherence the spec asks of every pool state, as a
    decidable check: the list is strictly descending, the list and the
    map hold the same items, and the inputs slice is the sorted
    concatenation of the inputs of the listed transactions. *)
Fixpoint strictly_descending (l : list item) : bool :=
  match l with
  | [] => true
  | x :: l' =>
      forallb (fun y => (0 <? CompareTo x (Some y))%Z) l' && strictly_descending l'
  end.

Definition list_in_map (mp : Pool) : bool :=
  forallb (fun it =>
    match verifiedMap mp !! Hash (txn it) with
    | Some it' => bool_decide (it = it')
    | None => false
    end) (verifiedTxes mp).

Definition map_in_list (mp : Pool) : bool :=
  forallb (fun kv => existsb (fun it => bool_decide (it = kv.2)) (verifiedTxes mp))
          (map_to_list (verifiedMap mp)).

Definition inputs_coherent (mp : Pool) : bool :=
  bool_decide (inputs mp =
    sort_Slice (fun a b => (Cmp a b <? 0)%Z)
               (concat (map (fun it => Inputs (txn it)) (verifiedTxes mp)))).

Definition coherent (mp : Pool) : bool :=
  strictly_descending (verifiedTxes mp) &&
  list_in_map mp && map_in_list mp &&
  inputs_coherent mp.

(** *** The order of inputs and the sorted inputs slice *)

Definition Input_lt (a b : Input) : Prop :=
  lex_lt (PrevHash a) (PrevHash b) \/
  (PrevHash a = PrevHash b /\ (PrevIndex a < PrevIndex b)%Z).

Definition Input_le (a b : Input) : Prop := (Cmp a b <= 0)%Z.

Lemma Cmp_cases a b :
  ((Cmp a b < 0)%Z /\ Input_lt a b) \/
  (Cmp a b = 0%Z /\ a = b) \/
  ((0 < Cmp a b)%Z /\ Input_lt b a).
Proof.
  unfold Cmp, Input_lt. destruct a as [ha ia], b as [hb ib]; simpl.
  destruct (bytes_Compare_cases ha hb) as [[-> H]|[[-> H]|[-> H]]]; simpl.
  - left; split; [lia | left; exact H].
  - subst hb. destruct (Z.lt_total ia ib) as [Hi|[Hi|Hi]].
    + left; split; [lia | right; split; [reflexivity | lia]].
    + right; left; split; [lia | congruence].
    + right; right; split; [lia | right; split; [reflexivity | lia]].
  - right; right; split; [lia | left; exact H].
Qed.

Lemma Input_lt_irrefl a : ~ Input_lt a a.
Proof.
  intros [H|[_ H]]; [exact (lex_lt_irrefl _ H) | lia].
Qed.

Lemma Input_lt_trans a b c : Input_lt a b -> Input_lt b c -> Input_lt a c.
Proof.
  intros [H1|[E1 H1]] [H2|[E2 H2]].
  - left; exact (lex_lt_trans _ _ _ H1 H2).
  - left; rewrite <- E2; exact H1.
  - left; rewrite E1; exact H2.
  - right; split; [congruence | lia].
Qed.

Lemma Cmp_refl a : Cmp a a = 0%Z.
Proof.
  destruct (Cmp_cases a a) as [[_ H]|[[H _]|[_ H]]]; auto;
    exfalso; exact (Input_lt_irrefl a H).
Qed.

Lemma Cmp_eq a b : Cmp a b = 0%Z <-> a = b.
Proof.
  split; [|intros ->; apply Cmp_refl].
  destruct (Cmp_cases a b) as [[H _]|[[_ H]|[H _]]]; auto; lia.
Qed.

Lemma Input_le_iff a b : Input_le a b <-> Input_lt a b \/ a = b.
Proof.
  unfold Input_le.
  destruct (Cmp_cases a b) as [[H L]|[[H L]|[H L]]]; split; auto; try lia.
  intros [L' | ->].
  - exfalso; exact (Input_lt_irrefl _ (Input_lt_trans _ _ _ L L')).
  - exfalso; exact (Input_lt_irrefl _ L).
Qed.

Lemma Cmp_pos_iff a b : (0 < Cmp a b)%Z <-> Input_lt b a.
Proof.
  destruct (Cmp_cases a b) as [[H L]|[[H L]|[H L]]]; split; auto; try lia.
  - intros L'; exfalso; exact (Input_lt_irrefl _ (Input_lt_trans _ _ _ L L')).
  - subst; intros L'; exfalso; exact (Input_lt_irrefl _ L').
Qed.

#[global] Instance Input_le_trans : Transitive Input_le.
Proof.
  intros a b c. rewrite !Input_le_iff.
  intros [H1| ->] [H2| ->]; auto.
  left; exact (Input_lt_trans _ _ _ H1 H2).
Qed.

Lemma Input_le_refl a : Input_le a a.
Proof. unfold Input_le. rewrite Cmp_refl. lia. Qed.

Lemma Input_le_antisym a b : Input_le a b -> Input_le b a -> a = b.
Proof.
  rewrite !Input_le_iff. intros [H1|E] [H2|E2]; auto.
  exfalso; exact (Input_lt_irrefl _ (Input_lt_trans _ _ _ H1 H2)).
Qed.

(** In a sorted slice the search of [findIndexForInput] stops at the
    boundary between the inputs below [input] and the others. *)
Lemma findIndexForInput_boundary slice input :
  StronglySorted Input_le slice ->
  findIndexForInput slice input <= length slice /\
  (forall x, x ∈ take (findIndexForInput slice input) slice -> Input_lt x input) /\
  (forall x, x ∈ drop (findIndexForInput slice input) slice -> Input_le input x).
Proof.
  intros Hs. unfold findIndexForInput.
  set (f := fun n : nat => match slice !! n with
                           | Some x => (Cmp input x <=? 0)%Z
                           | None => false
                           end).
  destruct (sort_Search_boundary f (length slice)) as (Hle & Hlo & Hhi).
  { intros a b Hab Hb. unfold f.
    destruct (slice !! a) as [x|] eqn:Ea; [|discriminate].
    destruct (lookup_lt_is_Some_2 slice b Hb) as [y Eb]. rewrite Eb.
    intros Hx. apply Z.leb_le in Hx. apply Z.leb_le.
    destruct (decide (a = b)) as [->|Hne]; [congruence|].
    assert (Hxy : Input_le x y).
    { rewrite <- (take_drop (S a) slice) in Hs.
      apply (StronglySorted_app_1_elem_of _ _ _ x y) in Hs; [exact Hs| |].
      - apply elem_of_take. exists a. split; [exact Ea | lia].
      - apply list_elem_of_lookup. exists (b - S a).
        rewrite lookup_drop. replace (S a + (b - S a)) with b by lia. exact Eb. }
    exact (Input_le_trans _ _ _ Hx Hxy). }
  split; [exact Hle|]. split.
  - intros x Hx. apply elem_of_take in Hx as (k & Ek & Hk).
    specialize (Hlo k Hk). unfold f in Hlo. rewrite Ek in Hlo.
    apply Z.leb_gt in Hlo. apply Cmp_pos_iff. exact Hlo.
  - intros x Hx. apply list_elem_of_lookup in Hx as (k & Ek).
    rewrite lookup_drop in Ek.
    assert (Hk : sort_Search (length slice) f + k < length slice)
      by (apply lookup_lt_is_Some; eauto).
    specialize (Hhi _ (Nat.le_add_r _ k) Hk). unfold f at 1 in Hhi.
    rewrite Ek in Hhi. apply Z.leb_le in Hhi. exact Hhi.
Qed.

(** Placing [x] at index [n] after an append and a shift to the right. *)
Lemma place_at {A} (s : list A) (x : A) (n : nat) :
  n <= length s ->
  (if negb (n =? length (s ++ [x]) - 1)
   then <[n := x]> (copy_shift_right (s ++ [x]) n)
   else s ++ [x]) = take n s ++ x :: drop n s.
Proof.
  intros Hn. rewrite length_app; simpl.
  replace (length s + 1 - 1) with (length s) by lia.
  destruct (Nat.eqb_spec n (length s)) as [->|Hne]; simpl.
  - rewrite take_ge, drop_ge by lia. reflexivity.
  - unfold copy_shift_right.
    rewrite length_app; simpl.
    rewrite take_app_le by lia.
    rewrite drop_app_le by lia.
    rewrite take_app_length' by (rewrite length_drop; lia).
    destruct (lookup_lt_is_Some_2 s n ltac:(lia)) as [y Ey].
    rewrite (take_S_r _ _ _ Ey), <- app_assoc. simpl.
    assert (Hl : length (take n s) = n) by (rewrite length_take; lia).
    rewrite <- Hl at 1. rewrite insert_app_r_alt by lia.
    rewrite Nat.sub_diag. reflexivity.
Qed.

Lemma pushInputToSortedSlice_eq slice input :
  pushInputToSortedSlice slice input =
  take (findIndexForInput slice input) slice ++
  input :: drop (findIndexForInput slice input) slice.
Proof.
  unfold pushInputToSortedSlice. apply place_at.
  apply sort_Search_le.
Qed.

Lemma pushInputToSortedSlice_sorted slice input :
  StronglySorted Input_le slice ->
  StronglySorted Input_le (pushInputToSortedSlice slice input).
Proof.
  intros Hs. rewrite pushInputToSortedSlice_eq.
  destruct (findIndexForInput_boundary slice input Hs) as (_ & Hlo & Hhi).
  pose proof Hs as Hs'. rewrite <- (take_drop (findIndexForInput slice input) slice) in Hs'.
  apply StronglySorted_app in Hs' as (H12 & H1 & H2).
  apply StronglySorted_app_2; [|exact H1|].
  - intros x1 x2 Hx1 Hx2. apply elem_of_cons in Hx2 as [->|Hx2].
    + apply Input_le_iff. left. apply Hlo. exact Hx1.
    + apply H12; assumption.
  - constructor; [exact H2|]. apply Forall_forall. intros y Hy. apply Hhi. exact Hy.
Qed.

Lemma pushInputToSortedSlice_elem slice input x :
  x ∈ pushInputToSortedSlice slice input <-> x = input \/ x ∈ slice.
Proof.
  rewrite pushInputToSortedSlice_eq.
  assert (H : x ∈ slice <->
              x ∈ take (findIndexForInput slice input) slice \/
              x ∈ drop (findIndexForInput slice input) slice).
  { rewrite <- elem_of_app, take_drop. reflexivity. }
  rewrite elem_of_app, elem_of_cons. tauto.
Qed.

Lemma dropInputFromSortedSlice_sublist slice input :
  dropInputFromSortedSlice slice input `sublist_of` slice.
Proof.
  unfold dropInputFromSortedSlice.
  destruct (slice !! _) as [x|]; [|reflexivity].
  case_bool_decide; [reflexivity|].
  unfold copy_shift_left. rewrite <- delete_take_drop. apply sublist_delete.
Qed.

Lemma StronglySorted_sublist {A} (R : relation A) (l k : list A) :
  l `sublist_of` k -> StronglySorted R k -> StronglySorted R l.
Proof.
  induction 1 as [|x l k Hlk IH|x l k Hlk IH]; intros Hk.
  - constructor.
  - apply StronglySorted_cons in Hk as [Hall Hk].
    apply StronglySorted_cons. split; [|auto].
    apply Forall_forall. intros y Hy. rewrite Forall_forall in Hall.
    apply Hall. eapply sublist_subseteq; eauto.
  - apply StronglySorted_cons in Hk as [_ Hk]. auto.
Qed.

Lemma dropInputFromSortedSlice_sorted slice input :
  StronglySorted Input_le slice ->
  StronglySorted Input_le (dropInputFromSortedSlice slice input).
Proof.
  apply StronglySorted_sublist, dropInputFromSortedSlice_sublist.
Qed.

Lemma sort_insert_sorted x l :
  StronglySorted Input_le l ->
  StronglySorted Input_le (sort_insert (fun a b => (Cmp a b <? 0)%Z) x l).
Proof.
  induction l as [|y l IH]; intros Hl; simpl.
  - repeat constructor.
  - apply StronglySorted_cons in Hl as [Hall Hl].
    destruct (Z.ltb_spec (Cmp y x) 0) as [Hlt|Hge].
    + apply StronglySorted_cons. split; [|auto].
      assert (Hsub : forall z, z ∈ sort_insert (fun a b => (Cmp a b <? 0)%Z) x l ->
                               z = x \/ z ∈ l).
      { clear. induction l as [|w l IH]; simpl; intros z Hz.
        - apply list_elem_of_singleton in Hz. auto.
        - destruct (Cmp w x <? 0)%Z.
          + apply elem_of_cons in Hz as [->|Hz]; [right; left|].
            destruct (IH _ Hz) as [->|?]; [auto | right; right; auto].
          + apply elem_of_cons in Hz as [->|Hz]; auto. }
      apply Forall_forall. intros z Hz.
      destruct (Hsub z Hz) as [->|Hz'].
      * unfold Input_le. lia.
      * rewrite Forall_forall in Hall. auto.
    + assert (Hxy : Input_le x y).
      { apply Input_le_iff.
        destruct (Cmp_cases y x) as [[H _]|[[_ H]|[_ H]]]; [lia | auto | auto]. }
      apply StronglySorted_cons. split; [|apply StronglySorted_cons; auto].
      constructor; [exact Hxy|].
      eapply Forall_impl; [exact Hall|]. intros z Hz.
      exact (Input_le_trans _ _ _ Hxy Hz).
Qed.

Lemma sort_Slice_sorted l :
  StronglySorted Input_le (sort_Slice (fun a b => (Cmp a b <? 0)%Z) l).
Proof.
  induction l as [|x l IH]; simpl; [constructor|].
  apply sort_insert_sorted, IH.
Qed.

(** On a sorted pool slice [areInputsInPool] finds every shared input. *)
Lemma areInputsInPool_false ins pool :
  StronglySorted Input_le pool ->
  areInputsInPool ins pool = false ->
  forall i, i ∈ ins -> i ∉ pool.
Proof.
  intros Hs Hno i Hi Hin. unfold areInputsInPool in Hno.
  assert (Hi' : (let n := findIndexForInput pool i in
                 match pool !! n with
                 | Some x => bool_decide (x = i)
                 | None => false
                 end) = false).
  { destruct (existsb _ ins) eqn:E in Hno; [discriminate|].
    rewrite <- not_true_iff_false in E. rewrite existsb_exists in E.
    apply not_true_iff_false. intros Ht. apply E. exists i.
    split; [apply list_elem_of_In; exact Hi | exact Ht]. }
  simpl in Hi'.
  destruct (findIndexForInput_boundary pool i Hs) as (Hle & Hlo & Hhi).
  set (n := findIndexForInput pool i) in *.
  rewrite <- (take_drop n pool) in Hin. apply elem_of_app in Hin as [Hin|Hin].
  { exact (Input_lt_irrefl _ (Hlo _ Hin)). }
  destruct (pool !! n) as [x|] eqn:Ex.
  - apply bool_decide_eq_false in Hi'. apply Hi'.
    assert (Hx : x ∈ drop n pool).
    { apply list_elem_of_lookup. exists 0. rewrite lookup_drop.
      rewrite Nat.add_0_r. exact Ex. }
    apply Input_le_antisym; [|apply Hhi; exact Hx].
    rewrite <- (take_drop n pool) in Hs. apply StronglySorted_app_1_r in Hs.
    rewrite (drop_S _ _ _ Ex) in Hs, Hin.
    apply elem_of_cons in Hin as [->|Hin]; [apply Input_le_refl|].
    apply StronglySorted_cons in Hs as [Hall _].
    rewrite Forall_forall in Hall. apply Hall. exact Hin.
  - apply lookup_ge_None in Ex. rewrite drop_ge in Hin by lia.
    inversion Hin.
Qed.

(** *** What each path of [Add] leaves behind *)

Lemma checkBalanceAndUpdate_frame mp tx feer :
  verifiedMap (checkBalanceAndUpdate mp tx feer).1 = verifiedMap mp /\
  verifiedTxes (checkBalanceAndUpdate mp tx feer).1 = verifiedTxes mp /\
  inputs (checkBalanceAndUpdate mp tx feer).1 = inputs mp /\
  capacity (checkBalanceAndUpdate mp tx feer).1 = capacity mp.
Proof.
  unfold checkBalanceAndUpdate.
  destruct (fees mp !! Sender tx); simpl;
    match goal with |- context [if ?c then _ else _] => destruct c end;
    simpl; auto.
Qed.

Lemma checkTxConflicts_frame mp tx feer :
  verifiedMap (checkTxConflicts mp tx feer).1 = verifiedMap mp /\
  verifiedTxes (checkTxConflicts mp tx feer).1 = verifiedTxes mp /\
  inputs (checkTxConflicts mp tx feer).1 = inputs mp /\
  capacity (checkTxConflicts mp tx feer).1 = capacity mp.
Proof.
  unfold checkTxConflicts.
  destruct (areInputsInPool _ _); [auto|].
  pose proof (checkBalanceAndUpdate_frame mp tx feer) as H.
  destruct (checkBalanceAndUpdate mp tx feer) as [mp' ok]; simpl in *.
  destruct ok; simpl; exact H.
Qed.

Lemma checkTxConflicts_true mp tx feer :
  (checkTxConflicts mp tx feer).2 = true ->
  areInputsInPool (Inputs tx) (inputs mp) = false.
Proof.
  unfold checkTxConflicts. destruct (areInputsInPool _ _); [discriminate|auto].
Qed.

Lemma tryAddSendersFee_frame mp tx feer :
  verifiedMap (tryAddSendersFee mp tx feer).1 = verifiedMap mp /\
  verifiedTxes (tryAddSendersFee mp tx feer).1 = verifiedTxes mp /\
  inputs (tryAddSendersFee mp tx feer).1 = inputs mp /\
  capacity (tryAddSendersFee mp tx feer).1 = capacity mp.
Proof.
  unfold tryAddSendersFee.
  pose proof (checkBalanceAndUpdate_frame mp tx feer) as H.
  destruct (checkBalanceAndUpdate mp tx feer) as [mp' ok]; simpl in *.
  destruct ok; simpl; exact H.
Qed.

(** The position [Add] searches for a new item in the list [txes]. *)
Definition Add_index (pItem : item) (txes : list item) : nat :=
  sort_Search (length txes) (fun n => (0 <? CompareTo pItem (txes !! n))%Z).

(** The five ways out of [Add]. *)
Inductive Add_path (mp : Pool) (t : Transaction) (fee : Feer) (now : Z)
  : Pool * option error -> Prop :=
| Add_conflict :
    (checkTxConflicts mp t fee).2 = false ->
    Add_path mp t fee now ((checkTxConflicts mp t fee).1, Some ErrConflict)
| Add_dup :
    (checkTxConflicts mp t fee).2 = true ->
    containsKey mp (Hash t) = true ->
    Add_path mp t fee now ((checkTxConflicts mp t fee).1, Some ErrDup)
| Add_oom :
    let pItem := mkItem t now (IsLowPriority fee (NetworkFee t)) in
    (checkTxConflicts mp t fee).2 = true ->
    containsKey mp (Hash t) = false ->
    length (verifiedTxes mp) = capacity mp ->
    Add_index pItem (verifiedTxes mp) = length (verifiedTxes mp) ->
    Add_path mp t fee now
      (mkPool (<[Hash t := pItem]> (verifiedMap mp)) (verifiedTxes mp)
              (inputs mp) (fees (checkTxConflicts mp t fee).1) (capacity mp),
       Some ErrOOM)
| Add_evict s unlucky :
    let pItem := mkItem t now (IsLowPriority fee (NetworkFee t)) in
    let n := Add_index pItem (verifiedTxes mp) in
    (checkTxConflicts mp t fee).2 = true ->
    containsKey mp (Hash t) = false ->
    length (verifiedTxes mp) = capacity mp ->
    verifiedTxes mp = s ++ [unlucky] ->
    n <= length s ->
    Add_path mp t fee now
      (mkPool (delete (Hash (txn unlucky)) (<[Hash t := pItem]> (verifiedMap mp)))
              (take n s ++ pItem :: drop n s)
              (foldl pushInputToSortedSlice (inputs mp) (Inputs t))
              (fees (addSendersFee (checkTxConflicts mp t fee).1 t))
              (capacity mp),
       None)
| Add_append :
    let pItem := mkItem t now (IsLowPriority fee (NetworkFee t)) in
    let n := Add_index pItem (verifiedTxes mp) in
    (checkTxConflicts mp t fee).2 = true ->
    containsKey mp (Hash t) = false ->
    length (verifiedTxes mp) <> capacity mp ->
    Add_path mp t fee now
      (mkPool (<[Hash t := pItem]> (verifiedMap mp))
              (take n (verifiedTxes mp) ++ pItem :: drop n (verifiedTxes mp))
              (foldl pushInputToSortedSlice (inputs mp) (Inputs t))
              (fees (addSendersFee (checkTxConflicts mp t fee).1 t))
              (capacity mp),
       None).

Lemma Add_paths mp t fee now : Add_path mp t fee now (Add mp t fee now).
Proof.
  unfold Add.
  pose proof (checkTxConflicts_frame mp t fee) as (Fm & Ft & Fi & Fc).
  destruct (checkTxConflicts mp t fee) as [mp1 ok] eqn:Echk; simpl in *.
  destruct ok; simpl.
  2:{ pose proof (Add_conflict mp t fee now) as H. rewrite Echk in H. apply H. reflexivity. }
  assert (Ek : containsKey mp1 (Hash t) = containsKey mp (Hash t))
    by (unfold containsKey; rewrite Fm; reflexivity).
  rewrite Ek.
  destruct (containsKey mp (Hash t)) eqn:Eck.
  { pose proof (Add_dup mp t fee now) as H. rewrite Echk in H. apply H; auto. }
  rewrite Fm, Ft, Fi, Fc.
  set (pItem := mkItem t now (IsLowPriority fee (NetworkFee t))).
  fold (Add_index pItem (verifiedTxes mp)).
  pose proof (sort_Search_le (fun n => (0 <? CompareTo pItem (verifiedTxes mp !! n))%Z)
                (length (verifiedTxes mp))) as Hn.
  fold (Add_index pItem (verifiedTxes mp)) in Hn.
  destruct (Nat.eqb_spec (length (verifiedTxes mp)) (capacity mp)) as [Hcap|Hcap].
  - destruct (Nat.eqb_spec (Add_index pItem (verifiedTxes mp)) (length (verifiedTxes mp)))
      as [Hfull|Hfit].
    + pose proof (Add_oom mp t fee now) as H. rewrite Echk in H. apply H; auto.
    + destruct (last (verifiedTxes mp)) as [unlucky|] eqn:El.
      2:{ apply last_None in El. rewrite El in *. simpl in *. lia. }
      apply last_Some in El as [s Es].
      pose proof (Add_evict mp t fee now s unlucky) as H. rewrite Echk in H.
      simpl in H. fold pItem in H.
      assert (Hlen : length (verifiedTxes mp) = length s + 1)
        by (rewrite Es, length_app; simpl; lia).
      specialize (H eq_refl Eck Hcap Es ltac:(lia)).
      assert (Hlast : <[length (verifiedTxes mp) - 1 := pItem]> (verifiedTxes mp)
                      = s ++ [pItem]).
      { rewrite Es, length_app; simpl.
        replace (length s + 1 - 1) with (length s + 0) by lia.
        rewrite insert_app_r. reflexivity. }
      rewrite Hlast.
      rewrite (place_at s pItem) by lia.
      unfold addSendersFee, set_fees, fees_at in *; simpl in *. exact H.
  - pose proof (Add_append mp t fee now) as H. rewrite Echk in H.
    simpl in H. fold pItem in H.
    specialize (H eq_refl Eck Hcap).
    rewrite (place_at (verifiedTxes mp) pItem) by lia.
    unfold addSendersFee, set_fees, fees_at in *; simpl in *. exact H.
Qed.

(** *** A small pool used to evaluate the operations *)

(** Every sender owns 1000 units; fees below 1 are low priority. *)
Definition feer0 : Feer := mkFeer (fun f => (f <? 1)%Z) (fun _ => 1000%Z).

Definition inX : Input := mkInput [1%Z] 0.
Definition inY : Input := mkInput [2%Z] 0.

(** [txA] (hash [10], fee 10) spends [inX]; [txB] (hash [11], fee 25)
    spends [inY]; [txC] (hash [12], fee 5) spends nothing; [txD]
    (hash [13], fee 30) spends [inX] again.  The senders differ. *)
Definition txA : Transaction := mkTx [10%Z] [101%Z] 0 10 [inX] 1.
Definition txB : Transaction := mkTx [11%Z] [102%Z] 0 25 [inY] 1.
Definition txC : Transaction := mkTx [12%Z] [103%Z] 0 5 [] 1.
Definition txD : Transaction := mkTx [13%Z] [104%Z] 0 30 [inX] 1.

(** *** The priority order *)

(** [A] wins a capacity fight against [B]. *)
Definition outranks (A B : item) : Prop := (0 < CompareTo A (Some B))%Z.

(** The order of the spec, rule by rule: priority class, then fee per
    byte, then network fee, then the smaller hash. *)
Definition outranks_spec (A B : item) : Prop :=
  (isLowPrio A = false /\ isLowPrio B = true) \/
  (isLowPrio A = isLowPrio B /\
   ((FeePerByte (txn A) > FeePerByte (txn B))%Z \/
    (FeePerByte (txn A) = FeePerByte (txn B) /\
     ((NetworkFee (txn A) > NetworkFee (txn B))%Z \/
      (NetworkFee (txn A) = NetworkFee (txn B) /\
       lex_lt (Hash (txn A)) (Hash (txn B))))))).

(** A fixed-point amount that is not negative.  The difference of two
    such amounts fits the 64 bits of [Fixed8.CompareTo]. *)
Definition amount (x : Z) : Prop := (0 <= x < 2 ^ 63)%Z.

(** The fee per byte and the network fee of the transaction are
    amounts that are not negative. *)
Definition fees_in_range (t : Transaction) : Prop :=
  amount (FeePerByte t) /\ amount (NetworkFee t).

Ltac in_range :=
  repeat first [split | constructor];
  vm_compute; first [discriminate | reflexivity | exact I].

Lemma Fixed8_CompareTo_amounts f g :
  amount f -> amount g -> Fixed8_CompareTo f g = (f - g)%Z.
Proof.
  unfold amount, Fixed8_CompareTo, sub64, wrap64. intros Hf Hg.
  rewrite Z.mod_small by lia. lia.
Qed.

Lemma outranks_iff_spec A B :
  fees_in_range (txn A) -> fees_in_range (txn B) ->
  outranks A B <-> outranks_spec A B.
Proof.
  intros [Ha1 Ha2] [Hb1 Hb2].
  unfold outranks, outranks_spec, CompareTo, Uint256_CompareTo.
  rewrite !Fixed8_CompareTo_amounts by assumption.
  destruct (isLowPrio A), (isLowPrio B); cbn [negb andb];
    try (split; [intros; left; auto | reflexivity]);
    try (split; [lia | intros [[? ?]|[? _]]; discriminate]).
  all: destruct (Z.eqb_spec (FeePerByte (txn A) - FeePerByte (txn B)) 0) as [Ef|Ef];
       cbn [negb];
       [|split; [intros H; right; split; [reflexivity | left; lia]
                |intros [[? ?]|[_ [?|[? _]]]]; try discriminate; lia]].
  all: destruct (Z.eqb_spec (NetworkFee (txn A) - NetworkFee (txn B)) 0) as [En|En];
       cbn [negb];
       [|split; [intros H; right; split; [reflexivity|];
                   right; split; [lia | left; lia]
                |intros [[? ?]|[_ [?|[_ [?|[? _]]]]]]; try discriminate; lia]].
  all: rewrite bytes_Compare_pos; split;
       [ intros H; right; split; [reflexivity|]; right; split; [lia|];
         right; split; [lia | exact H]
       | intros [[? ?]|[_ [?|[_ [?|[_ ?]]]]]]; try discriminate; try lia; assumption ].
Qed.

Lemma outranks_irrefl A : fees_in_range (txn A) -> ~ outranks A A.
Proof.
  intros Ha. rewrite (outranks_iff_spec A A Ha Ha). unfold outranks_spec.
  intros [[H1 H2]|[_ [H|[_ [H|[_ H]]]]]]; try congruence; try lia.
  exact (lex_lt_irrefl _ H).
Qed.

Lemma outranks_trans A B C :
  fees_in_range (txn A) -> fees_in_range (txn B) -> fees_in_range (txn C) ->
  outranks A B -> outranks B C -> outranks A C.
Proof.
  intros Ha Hb Hc.
  rewrite (outranks_iff_spec A B Ha Hb), (outranks_iff_spec B C Hb Hc),
    (outranks_iff_spec A C Ha Hc).
  unfold outranks_spec.
  intros [[Ha' Hb']|[Hab H1]] [[Hb'' Hc']|[Hbc H2]]; try congruence.
  - left; split; congruence.
  - left; split; congruence.
  - right; split; [congruence|].
    destruct H1 as [H1|[E1 H1]], H2 as [H2|[E2 H2]]; try (left; lia).
    right; split; [lia|].
    destruct H1 as [H1|[F1 H1]], H2 as [H2|[F2 H2]]; try (left; lia).
    right; split; [lia|]. exact (lex_lt_trans _ _ _ H1 H2).
Qed.

Lemma outranks_asym A B :
  fees_in_range (txn A) -> fees_in_range (txn B) ->
  outranks A B -> ~ outranks B A.
Proof.
  intros Ha Hb H1 H2.
  exact (outranks_irrefl A Ha (outranks_trans A B A Ha Hb Ha H1 H2)).
Qed.

Lemma outranks_total A B :
  fees_in_range (txn A) -> fees_in_range (txn B) ->
  Hash (txn A) <> Hash (txn B) -> outranks A B \/ outranks B A.
Proof.
  intros Ha Hb Hne.
  rewrite (outranks_iff_spec A B Ha Hb), (outranks_iff_spec B A Hb Ha).
  unfold outranks_spec.
  destruct (isLowPrio A), (isLowPrio B); auto.
  all: destruct (Z.lt_total (FeePerByte (txn A)) (FeePerByte (txn B)))
         as [Hf|[Hf|Hf]];
       [ right; right; split; [reflexivity | left; lia]
       | | left; right; split; [reflexivity | left; lia] ].
  all: destruct (Z.lt_total (NetworkFee (txn A)) (NetworkFee (txn B)))
         as [Hn|[Hn|Hn]];
       [ right; right; split; [reflexivity|]; right; split; [lia | left; lia]
       | | left; right; split; [reflexivity|]; right; split; [lia | left; lia] ].
  all: destruct (bytes_Compare_cases (Hash (txn A)) (Hash (txn B)))
         as [[_ H]|[[_ H]|[_ H]]]; [ | contradiction | ];
       [ left | right ]; right; split; try reflexivity;
       right; split; try lia; right; split; try lia; exact H.
Qed.



(** Two transactions at the ends of the 64-bit range: a network fee of
    2^63 - 1 and a network fee of -1, one byte each. *)
Definition txMax : Transaction := mkTx [20%Z] [105%Z] 0 (2 ^ 63 - 1) [] 1.
Definition txNeg : Transaction := mkTx [21%Z] [106%Z] 0 (-1) [] 1.


(** *** An invariant of every reachable pool *)

Definition hashes (l : list item) : list (list Z) :=
  (fun it => Hash (txn it)) <$> l.

(** Every listed item is the one the map holds under its hash, no two
    listed items share a hash, and the inputs slice is sorted.  This
    holds whatever the fees are. *)
Record wf (mp : Pool) : Prop := mk_wf {
  wf_list_in_map :
    forall it, it ∈ verifiedTxes mp -> verifiedMap mp !! Hash (txn it) = Some it;
  wf_nodup : NoDup (hashes (verifiedTxes mp));
  wf_inputs : StronglySorted Input_le (inputs mp)
}.

(** The list is strictly descending, and the fees of its items are
    amounts that are not negative.  This holds as long as the fees of
    the transactions added are such amounts. *)
Definition descending (mp : Pool) : Prop :=
  StronglySorted outranks (verifiedTxes mp) /\
  Forall (fun it => fees_in_range (txn it)) (verifiedTxes mp).

Lemma wf_frame mp mp' :
  verifiedMap mp' = verifiedMap mp ->
  verifiedTxes mp' = verifiedTxes mp ->
  inputs mp' = inputs mp ->
  wf mp -> wf mp'.
Proof.
  intros Em Et Ei [H1 H2 H4]. constructor; rewrite ?Em, ?Et, ?Ei; auto.
Qed.

Lemma wf_NewMemPool capacity : wf (NewMemPool capacity).
Proof.
  constructor; simpl.
  - intros it Hit. inversion Hit.
  - constructor.
  - constructor.
Qed.

Lemma foldl_push_sorted ins slice :
  StronglySorted Input_le slice ->
  StronglySorted Input_le (foldl pushInputToSortedSlice slice ins).
Proof.
  revert slice. induction ins as [|i ins IH]; intros slice Hs; simpl; [exact Hs|].
  apply IH, pushInputToSortedSlice_sorted, Hs.
Qed.

Lemma foldl_drop_sorted ins slice :
  StronglySorted Input_le slice ->
  StronglySorted Input_le (foldl dropInputFromSortedSlice slice ins).
Proof.
  revert slice. induction ins as [|i ins IH]; intros slice Hs; simpl; [exact Hs|].
  apply IH, dropInputFromSortedSlice_sorted, Hs.
Qed.

Lemma not_containsKey_not_listed mp h :
  wf mp -> containsKey mp h = false -> h ∉ hashes (verifiedTxes mp).
Proof.
  intros Hwf Hck Hin. unfold hashes in Hin.
  apply list_elem_of_fmap in Hin as (it & -> & Hit).
  pose proof (wf_list_in_map mp Hwf it Hit) as Hx.
  unfold containsKey in Hck. rewrite Hx in Hck. discriminate.
Qed.

Lemma not_listed_ne l h x : h ∉ hashes l -> x ∈ l -> h <> Hash (txn x).
Proof.
  intros Hh Hx E. apply Hh. rewrite E. unfold hashes.
  apply list_elem_of_fmap. eauto.
Qed.

Lemma hashes_place n s x :
  hashes (take n s ++ x :: drop n s) =
  take n (hashes s) ++ Hash (txn x) :: drop n (hashes s).
Proof.
  unfold hashes. rewrite fmap_app, fmap_cons, fmap_take, fmap_drop. reflexivity.
Qed.

Lemma NoDup_place {A} n (l : list A) (x : A) :
  NoDup l -> x ∉ l -> NoDup (take n l ++ x :: drop n l).
Proof.
  intros Hnd Hx.
  rewrite <- (take_drop n l) in Hnd, Hx.
  apply NoDup_app in Hnd as (H1 & H12 & H2).
  apply NoDup_app. split; [exact H1|]. split.
  - intros y Hy Hy'. apply elem_of_cons in Hy' as [->|Hy'].
    + apply Hx. apply elem_of_app. auto.
    + exact (H12 y Hy Hy').
  - constructor; [|exact H2]. intros Hx'. apply Hx. apply elem_of_app. auto.
Qed.

Lemma elem_of_place {A} n (l : list A) (x y : A) :
  y ∈ take n l ++ x :: drop n l <-> y = x \/ y ∈ l.
Proof.
  assert (H : y ∈ l <-> y ∈ take n l \/ y ∈ drop n l).
  { rewrite <- elem_of_app, take_drop. reflexivity. }
  rewrite elem_of_app, elem_of_cons. tauto.
Qed.

(** In a descending list without the hash of the new item, the search of
    [Add] stops at the boundary between the items that outrank the new
    one and those it outranks. *)
Lemma Add_index_boundary pItem l :
  StronglySorted outranks l ->
  Forall (fun it => fees_in_range (txn it)) l ->
  fees_in_range (txn pItem) ->
  Hash (txn pItem) ∉ hashes l ->
  Add_index pItem l <= length l /\
  (forall x, x ∈ take (Add_index pItem l) l -> outranks x pItem) /\
  (forall x, x ∈ drop (Add_index pItem l) l -> outranks pItem x).
Proof.
  intros Hs Hr Hp Hfresh. unfold Add_index.
  rewrite Forall_forall in Hr.
  set (f := fun n : nat => (0 <? CompareTo pItem (l !! n))%Z).
  destruct (sort_Search_boundary f (length l)) as (Hle & Hlo & Hhi).
  { intros a b Hab Hb. unfold f.
    destruct (lookup_lt_is_Some_2 l a ltac:(lia)) as [x Ea].
    destruct (lookup_lt_is_Some_2 l b Hb) as [y Eb]. rewrite Ea, Eb.
    intros Hx. apply Z.ltb_lt in Hx. apply Z.ltb_lt.
    destruct (decide (a = b)) as [->|Hne]; [congruence|].
    assert (Hxy : outranks x y).
    { rewrite <- (take_drop (S a) l) in Hs.
      apply (StronglySorted_app_1_elem_of _ _ _ x y) in Hs; [exact Hs| |].
      - apply elem_of_take. exists a. split; [exact Ea | lia].
      - apply list_elem_of_lookup. exists (b - S a).
        rewrite lookup_drop. replace (S a + (b - S a)) with b by lia. exact Eb. }
    assert (Hrx : fees_in_range (txn x))
      by (apply Hr, list_elem_of_lookup; eauto).
    assert (Hry : fees_in_range (txn y))
      by (apply Hr, list_elem_of_lookup; eauto).
    exact (outranks_trans _ _ _ Hp Hrx Hry Hx Hxy). }
  split; [exact Hle|]. split.
  - intros x Hx. apply elem_of_take in Hx as (k & Ek & Hk).
    specialize (Hlo k Hk). unfold f in Hlo. rewrite Ek in Hlo.
    apply Z.ltb_ge in Hlo.
    destruct (outranks_total x pItem) as [H|H]; [| | |exact H|].
    + apply Hr, list_elem_of_lookup. eauto.
    + exact Hp.
    + intros E. apply Hfresh. rewrite <- E. unfold hashes.
      apply list_elem_of_fmap. exists x. split; [reflexivity|].
      apply list_elem_of_lookup. eauto.
    + unfold outranks in H. lia.
  - intros x Hx. apply list_elem_of_lookup in Hx as (k & Ek).
    rewrite lookup_drop in Ek.
    assert (Hk : sort_Search (length l) f + k < length l)
      by (apply lookup_lt_is_Some; eauto).
    specialize (Hhi _ (Nat.le_add_r _ k) Hk). unfold f at 1 in Hhi.
    rewrite Ek in Hhi. apply Z.ltb_lt in Hhi. exact Hhi.
Qed.

Lemma place_descending pItem s n :
  StronglySorted outranks s ->
  (forall x, x ∈ take n s -> outranks x pItem) ->
  (forall x, x ∈ drop n s -> outranks pItem x) ->
  StronglySorted outranks (take n s ++ pItem :: drop n s).
Proof.
  intros Hs Hlo Hhi.
  rewrite <- (take_drop n s) in Hs.
  apply StronglySorted_app in Hs as (H12 & H1 & H2).
  apply StronglySorted_app_2; [|exact H1|].
  - intros x1 x2 Hx1 Hx2. apply elem_of_cons in Hx2 as [->|Hx2]; auto.
  - constructor; [exact H2|]. apply Forall_forall. exact Hhi.
Qed.

Lemma wf_Add mp t fee now : wf mp -> wf (Add mp t fee now).1.
Proof.
  intros Hwf.
  pose proof (checkTxConflicts_frame mp t fee) as (Fm & Ft & Fi & Fc).
  destruct (Add_paths mp t fee now)
    as [Hc|Hc Hk|pItem Hc Hk Hcap Hn|s unlucky pItem n Hc Hk Hcap Es Hn
       |pItem n Hc Hk Hcap]; simpl.
  - exact (wf_frame _ _ Fm Ft Fi Hwf).
  - exact (wf_frame _ _ Fm Ft Fi Hwf).
  - pose proof (not_containsKey_not_listed mp _ Hwf Hk) as Hfresh.
    destruct Hwf as [H1 H2 H4]. constructor; simpl; auto.
    intros it Hit.
    rewrite lookup_insert_ne by exact (not_listed_ne _ _ _ Hfresh Hit). auto.
  - pose proof (not_containsKey_not_listed mp _ Hwf Hk) as Hfresh.
    destruct Hwf as [H1 H2 H4]. rewrite Es in H1, H2, Hfresh.
    unfold hashes in H2, Hfresh. rewrite fmap_app in H2, Hfresh. simpl in H2, Hfresh.
    apply NoDup_app in H2 as (Hs & Hsu & _).
    assert (Hts : Hash t ∉ hashes s).
    { intros Hin. apply Hfresh. apply elem_of_app. left. exact Hin. }
    assert (Htu : Hash t <> Hash (txn unlucky)).
    { intros E. apply Hfresh. apply elem_of_app. right. rewrite E. left. }
    constructor; simpl.
    + intros it Hit. apply elem_of_place in Hit as [->|Hit].
      * subst pItem; simpl.
        rewrite lookup_delete_ne by (intros E; apply Htu; symmetry; exact E).
        rewrite lookup_insert_eq. reflexivity.
      * assert (Hne : Hash (txn unlucky) <> Hash (txn it)).
        { intros E. apply (Hsu (Hash (txn it))).
          - unfold hashes. apply list_elem_of_fmap. eauto.
          - rewrite E. left. }
        rewrite lookup_delete_ne by exact Hne.
        rewrite lookup_insert_ne by exact (not_listed_ne _ _ _ Hts Hit).
        apply H1. apply elem_of_app. auto.
    + rewrite hashes_place. apply NoDup_place; [exact Hs | exact Hts].
    + apply foldl_push_sorted, H4.
  - pose proof (not_containsKey_not_listed mp _ Hwf Hk) as Hfresh.
    destruct Hwf as [H1 H2 H4].
    constructor; simpl.
    + intros it Hit. apply elem_of_place in Hit as [->|Hit].
      * subst pItem; simpl. rewrite lookup_insert_eq. reflexivity.
      * rewrite lookup_insert_ne by exact (not_listed_ne _ _ _ Hfresh Hit). auto.
    + rewrite hashes_place. apply NoDup_place; [exact H2 | exact Hfresh].
    + apply foldl_push_sorted, H4.
Qed.

Lemma Forall_place {A} (P : A -> Prop) n (l : list A) (x : A) :
  Forall P l -> P x -> Forall P (take n l ++ x :: drop n l).
Proof.
  intros Hl Hx. rewrite Forall_forall in Hl |- *.
  intros y Hy. apply elem_of_place in Hy as [->|Hy]; auto.
Qed.

(** [Add] of a transaction with fees in range keeps the list
    descending. *)
Lemma descending_Add mp t fee now :
  wf mp -> descending mp -> fees_in_range t -> descending (Add mp t fee now).1.
Proof.
  intros Hwf [Hs Hr] Ht.
  pose proof (checkTxConflicts_frame mp t fee) as (Fm & Ft & Fi & Fc).
  unfold descending.
  destruct (Add_paths mp t fee now)
    as [Hc|Hc Hk|pItem Hc Hk Hcap Hn|s unlucky pItem n Hc Hk Hcap Es Hn
       |pItem n Hc Hk Hcap]; simpl; rewrite ?Ft; auto.
  - pose proof (not_containsKey_not_listed mp _ Hwf Hk) as Hfresh.
    pose proof (Add_index_boundary pItem (verifiedTxes mp) Hs Hr Ht Hfresh)
      as (_ & Hlo & Hhi). fold n in Hlo, Hhi.
    rewrite Es in Hs, Hr, Hlo, Hhi.
    apply Forall_app in Hr as [Hr _]. split.
    + apply place_descending.
      * exact (StronglySorted_app_1_l _ _ _ Hs).
      * intros x Hx. apply Hlo. rewrite take_app_le by exact Hn. exact Hx.
      * intros x Hx. apply Hhi. rewrite drop_app_le by exact Hn.
        apply elem_of_app. left. exact Hx.
    + apply Forall_place; assumption.
  - pose proof (not_containsKey_not_listed mp _ Hwf Hk) as Hfresh.
    pose proof (Add_index_boundary pItem (verifiedTxes mp) Hs Hr Ht Hfresh)
      as (_ & Hlo & Hhi). fold n in Hlo, Hhi.
    split; [apply place_descending; assumption | apply Forall_place; assumption].
Qed.

(** Where the loop of [Remove] stops. *)
Lemma range_break_from_cases {A} (p : A -> bool) (s : list A) idx last :
  (exists i x, s !! i = Some x /\ p x = true /\
               range_break_from p s idx last = idx + i) \/
  ((forall x, x ∈ s -> p x = false) /\
   range_break_from p s idx last =
     match s with [] => last | _ => idx + (length s - 1) end).
Proof.
  revert idx last. induction s as [|y s IH]; intros idx last; simpl.
  - right. split; [intros x Hx; inversion Hx | reflexivity].
  - destruct (p y) eqn:Ey.
    + left. exists 0, y. rewrite Nat.add_0_r. auto.
    + destruct (IH (S idx) idx) as [(i & x & Ei & Hp & Hr)|[Hall Hr]].
      * left. exists (S i), x. simpl. split; [exact Ei|]. split; [exact Hp|].
        rewrite Hr. lia.
      * right. split.
        { intros x Hx. apply elem_of_cons in Hx as [->|Hx]; auto. }
        rewrite Hr. destruct s; simpl; lia.
Qed.

Lemma Remove_listed mp hash it :
  wf mp -> verifiedMap mp !! hash = Some it ->
  verifiedTxes (Remove mp hash) `sublist_of` verifiedTxes mp /\
  forall x, x ∈ verifiedTxes (Remove mp hash) -> Hash (txn x) <> hash.
Proof.
  intros Hwf Hit. unfold Remove. rewrite Hit. simpl.
  set (p := fun x : item => bool_decide (hash = Hash (txn x))).
  set (l := verifiedTxes mp).
  unfold range_break.
  destruct (range_break_from_cases p l 0 0) as [(i & x & Ei & Hp & ->)|[Hall ->]].
  - simpl.
    assert (Hi : i < length l) by (apply lookup_lt_is_Some; eauto).
    assert (Heq : (if (Z.of_nat i <? Z.of_nat (length l) - 1)%Z
                   then take i l ++ drop (S i) l
                   else if (Z.of_nat i =? Z.of_nat (length l) - 1)%Z
                        then take i l else l) = take i l ++ drop (S i) l).
    { destruct (Z.ltb_spec (Z.of_nat i) (Z.of_nat (length l) - 1)); [reflexivity|].
      destruct (Z.eqb_spec (Z.of_nat i) (Z.of_nat (length l) - 1)); [|lia].
      rewrite drop_ge by lia. rewrite app_nil_r. reflexivity. }
    rewrite Heq. split.
    + rewrite <- delete_take_drop. apply sublist_delete.
    + intros y Hy Ey.
      pose proof (wf_nodup mp Hwf) as Hnd. fold l in Hnd.
      rewrite <- (take_drop_middle l i x Ei) in Hnd.
      unfold hashes in Hnd. rewrite fmap_app, fmap_cons in Hnd.
      apply NoDup_app in Hnd as (_ & H12 & H2).
      apply NoDup_cons in H2 as [H2 _].
      subst p. simpl in Hp. apply bool_decide_eq_true in Hp.
      apply elem_of_app in Hy as [Hy|Hy].
      * apply (H12 (Hash (txn y))).
        { apply list_elem_of_fmap. eauto. }
        rewrite Ey, Hp. left.
      * apply H2. rewrite <- Hp, <- Ey. apply list_elem_of_fmap. eauto.
  - assert (Hne : forall y, y ∈ l -> Hash (txn y) <> hash).
    { intros y Hy E. specialize (Hall y Hy). subst p. simpl in Hall.
      apply bool_decide_eq_false in Hall. auto. }
    destruct l as [|a l'] eqn:El.
    + simpl. split; [reflexivity | intros y Hy; inversion Hy].
    + cbn [Nat.add].
      replace (Z.of_nat (length (a :: l') - 1) <? Z.of_nat (length (a :: l')) - 1)%Z
        with false by (symmetry; apply Z.ltb_ge; simpl; lia).
      replace (Z.of_nat (length (a :: l') - 1) =? Z.of_nat (length (a :: l')) - 1)%Z
        with true by (symmetry; apply Z.eqb_eq; simpl; lia).
      split; [apply sublist_take|].
      intros y Hy. apply Hne. eapply sublist_subseteq; [apply sublist_take|exact Hy].
Qed.

Lemma wf_Remove mp hash : wf mp -> wf (Remove mp hash).
Proof.
  intros Hwf.
  destruct (verifiedMap mp !! hash) as [it|] eqn:Hit.
  2:{ unfold Remove. rewrite Hit. exact Hwf. }
  destruct (Remove_listed mp hash it Hwf Hit) as [Hsub Hne].
  constructor.
  - intros x Hx.
    assert (Em : verifiedMap (Remove mp hash) = delete hash (verifiedMap mp))
      by (unfold Remove; rewrite Hit; reflexivity).
    rewrite Em, lookup_delete_ne by (intros E; exact (Hne x Hx (eq_sym E))).
    apply (wf_list_in_map mp Hwf). eapply sublist_subseteq; eauto.
  - apply (sublist_NoDup _ (hashes (verifiedTxes mp))); [exact (wf_nodup mp Hwf)|].
    unfold hashes. apply fmap_sublist. exact Hsub.
  - unfold Remove. rewrite Hit. simpl. apply foldl_drop_sorted, (wf_inputs mp Hwf).
Qed.

Lemma descending_sublist mp mp' :
  verifiedTxes mp' `sublist_of` verifiedTxes mp -> descending mp -> descending mp'.
Proof.
  intros Hsub [Hs Hr]. split.
  - exact (StronglySorted_sublist _ _ _ Hsub Hs).
  - rewrite Forall_forall in Hr |- *. intros x Hx. apply Hr.
    eapply sublist_subseteq; eauto.
Qed.

Lemma descending_Remove mp hash : wf mp -> descending mp -> descending (Remove mp hash).
Proof.
  intros Hwf Hd.
  destruct (verifiedMap mp !! hash) as [it|] eqn:Hit.
  2:{ unfold Remove. rewrite Hit. exact Hd. }
  destruct (Remove_listed mp hash it Hwf Hit) as [Hsub _].
  exact (descending_sublist _ _ Hsub Hd).
Qed.

(** One iteration of [RemoveStale] keeps the item, the map untouched, or
    drops it and deletes its hash from the map. *)
Lemma RemoveStale_step_cases isOK feer mp acc accI itm :
  (exists mp' accI',
     RemoveStale_step isOK feer (mp, acc, accI) itm = (mp', acc ++ [itm], accI') /\
     verifiedMap mp' = verifiedMap mp) \/
  (exists mp',
     RemoveStale_step isOK feer (mp, acc, accI) itm = (mp', acc, accI) /\
     verifiedMap mp' = delete (Hash (txn itm)) (verifiedMap mp)).
Proof.
  unfold RemoveStale_step.
  destruct (isOK (txn itm)); [|right; eexists; split; reflexivity].
  pose proof (tryAddSendersFee_frame mp (txn itm) feer) as (Fm & _).
  destruct (tryAddSendersFee mp (txn itm) feer) as [mp' ok]; simpl in Fm.
  destruct ok.
  - left. exists mp', (accI ++ Inputs (txn itm)). split; [reflexivity | exact Fm].
  - right. eexists. split; [reflexivity|]. simpl. rewrite Fm. reflexivity.
Qed.

Lemma RemoveStale_loop isOK feer (l : list item) :
  forall (mp : Pool) (acc : list item) (accI : list Input),
  NoDup (hashes (acc ++ l)) ->
  (forall it, it ∈ acc ++ l -> verifiedMap mp !! Hash (txn it) = Some it) ->
  (foldl (RemoveStale_step isOK feer) (mp, acc, accI) l).1.2 `sublist_of` acc ++ l /\
  (forall it, it ∈ (foldl (RemoveStale_step isOK feer) (mp, acc, accI) l).1.2 ->
     verifiedMap (foldl (RemoveStale_step isOK feer) (mp, acc, accI) l).1.1
       !! Hash (txn it) = Some it).
Proof.
  induction l as [|itm l IH]; intros mp acc accI Hnd Hin.
  - simpl. rewrite app_nil_r in *. split; [reflexivity | exact Hin].
  - cbn [foldl].
    destruct (RemoveStale_step_cases isOK feer mp acc accI itm)
      as [(mp' & accI' & -> & Em)|(mp' & -> & Em)].
    + replace (acc ++ itm :: l) with ((acc ++ [itm]) ++ l)
        by (rewrite <- app_assoc; reflexivity).
      apply IH.
      * rewrite <- app_assoc. exact Hnd.
      * intros it Hit. rewrite <- app_assoc in Hit. rewrite Em. auto.
    + assert (Hnd' : NoDup (hashes (acc ++ l))).
      { unfold hashes in *. rewrite fmap_app in *. rewrite fmap_cons in Hnd.
        apply NoDup_app in Hnd as (H1 & H12 & H2). apply NoDup_cons in H2 as [_ H2].
        apply NoDup_app. split; [exact H1|]. split; [|exact H2].
        intros x Hx Hx'. apply (H12 x Hx). right. exact Hx'. }
      assert (Hskip : acc ++ l `sublist_of` acc ++ itm :: l).
      { apply sublist_app; [reflexivity|]. apply sublist_cons. reflexivity. }
      destruct (IH mp' acc accI Hnd') as [Hs Hm].
      * intros it Hit. rewrite Em.
        assert (Hne : Hash (txn itm) <> Hash (txn it)).
        { intros E. unfold hashes in Hnd.
          rewrite fmap_app, fmap_cons in Hnd.
          apply NoDup_app in Hnd as (_ & H12 & H2).
          apply NoDup_cons in H2 as [H2 _].
          apply elem_of_app in Hit as [Hit|Hit].
          - apply (H12 (Hash (txn it))); [apply list_elem_of_fmap; eauto|].
            rewrite <- E. left.
          - apply H2. rewrite E. apply list_elem_of_fmap; eauto. }
        rewrite lookup_delete_ne by exact Hne. apply Hin.
        apply elem_of_app in Hit as [Hit|Hit]; apply elem_of_app; auto.
        right; right; exact Hit.
      * split; [etransitivity; [exact Hs | exact Hskip] | exact Hm].
Qed.

Lemma wf_RemoveStale mp isOK feer : wf mp -> wf (RemoveStale mp isOK feer).
Proof.
  intros [H1 H2 H4]. unfold RemoveStale.
  pose proof (RemoveStale_loop isOK feer (verifiedTxes mp) (set_fees mp ∅) [] []
                H2 H1) as Hloop.
  destruct (foldl _ _ _) as [[mp1 newTxes] newInputs]. simpl in Hloop.
  destruct Hloop as [Hsub Hin].
  constructor; simpl; auto.
  - apply (sublist_NoDup _ (hashes (verifiedTxes mp))); [exact H2|].
    unfold hashes. apply fmap_sublist. exact Hsub.
  - apply sort_Slice_sorted.
Qed.

Lemma descending_RemoveStale mp isOK feer :
  wf mp -> descending mp -> descending (RemoveStale mp isOK feer).
Proof.
  intros [H1 H2 H4] Hd. apply (descending_sublist mp); [|exact Hd].
  unfold RemoveStale.
  pose proof (RemoveStale_loop isOK feer (verifiedTxes mp) (set_fees mp ∅) [] []
                H2 H1) as Hloop.
  destruct (foldl _ _ _) as [[mp1 newTxes] newInputs]. simpl in Hloop.
  exact (proj1 Hloop).
Qed.

Lemma wf_apply_op mp o : wf mp -> wf (apply_op mp o).
Proof.
  intros Hwf. destruct o as [t fee now|hash|isOK feer|tx feer]; simpl.
  - apply wf_Add, Hwf.
  - apply wf_Remove, Hwf.
  - apply wf_RemoveStale, Hwf.
  - pose proof (checkTxConflicts_frame mp tx feer) as (Fm & Ft & Fi & _).
    exact (wf_frame _ _ Fm Ft Fi Hwf).
Qed.

Lemma wf_run capacity ops : wf (run capacity ops).
Proof.
  unfold run. generalize (wf_NewMemPool capacity).
  generalize (NewMemPool capacity).
  induction ops as [|o ops IH]; intros mp Hwf; simpl; [exact Hwf|].
  apply IH, wf_apply_op, Hwf.
Qed.

(** A call that adds no transaction with a fee out of range. *)
Definition op_in_range (o : op) : Prop :=
  match o with
  | OpAdd t _ _ => fees_in_range t
  | _ => True
  end.

Lemma descending_apply_op mp o :
  wf mp -> descending mp -> op_in_range o -> descending (apply_op mp o).
Proof.
  intros Hwf Hd Ho. destruct o as [t fee now|hash|isOK feer|tx feer]; simpl.
  - apply descending_Add; assumption.
  - apply descending_Remove; assumption.
  - apply descending_RemoveStale; assumption.
  - pose proof (checkTxConflicts_frame mp tx feer) as (_ & Ft & _).
    unfold descending, Verify. rewrite Ft. exact Hd.
Qed.

Lemma descending_run capacity ops :
  Forall op_in_range ops -> descending (run capacity ops).
Proof.
  unfold run.
  assert (Hd0 : descending (NewMemPool capacity)) by (split; constructor).
  revert Hd0. generalize (wf_NewMemPool capacity).
  generalize (NewMemPool capacity).
  induction ops as [|o ops IH]; intros mp Hwf Hd Hops; simpl; [exact Hd|].
  apply Forall_cons in Hops as [Ho Hops].
  apply IH; [apply wf_apply_op, Hwf | apply descending_apply_op; assumption | exact Hops].
Qed.

(** A fee policy without a low-priority class, every sender owning
    2^63 - 1 units. *)
Definition feerMax : Feer := mkFeer (fun _ => false) (fun _ => (2 ^ 63 - 1)%Z).

(** With a fee out of that range the list need not be descending: the
    difference of the fees wraps around and [Add] places the
    transaction with the fee 2^63 - 1 behind the one with the fee -1,
    which does not outrank it. *)
Lemma descending_needs_fees_in_range :
  let mp := run 2 [OpAdd txNeg feerMax 0; OpAdd txMax feerMax 1] in
  map txn (verifiedTxes mp) = [txNeg; txMax] /\
  strictly_descending (verifiedTxes mp) = false.
Proof. vm_compute. split; reflexivity. Qed.

(** *** What [Add], [Remove], [RemoveStale] and [Verify] leave behind *)

(** C9. When [Add] returns [ErrOOM] in a pool reached from the empty
    pool, the hash of the transaction was absent from the map before the
    call and is present after it, the pool is full, and the list and
    the inputs slice are left as they were: the transaction is in the
    map but neither in the list nor, with any of its inputs, in the
    inputs slice. *)
Theorem C9_Add_OOM_leaves_hash_in_map
    (capacity : nat) (ops : list op) (t : Transaction) (fee : Feer) (now : Z) :
  (Add (run capacity ops) t fee now).2 = Some ErrOOM ->
  ContainsKey (run capacity ops) (Hash t) = false /\
  ContainsKey (Add (run capacity ops) t fee now).1 (Hash t) = true /\
  length (verifiedTxes (run capacity ops)) = Mempool.capacity (run capacity ops) /\
  verifiedTxes (Add (run capacity ops) t fee now).1 = verifiedTxes (run capacity ops) /\
  inputs (Add (run capacity ops) t fee now).1 = inputs (run capacity ops) /\
  (Hash t ∉ hashes (verifiedTxes (Add (run capacity ops) t fee now).1)) /\
  (forall i, i ∈ Inputs t -> i ∉ inputs (Add (run capacity ops) t fee now).1).
Proof.
  pose proof (wf_run capacity ops) as Hwf.
  generalize dependent (run capacity ops). intros mp Hwf Herr.
  destruct (Add_paths mp t fee now)
    as [Hc|Hc Hk|pItem Hc Hk Hcap Hn|s unlucky pItem n Hc Hk Hcap Es Hn
       |pItem n Hc Hk Hcap]; simpl in Herr; try discriminate.
  simpl. unfold ContainsKey, containsKey at 2; simpl.
  rewrite lookup_insert_eq.
  repeat split; auto.
  - exact (not_containsKey_not_listed mp _ Hwf Hk).
  - apply areInputsInPool_false; [exact (wf_inputs mp Hwf)|].
    apply (checkTxConflicts_true mp t fee Hc).
Qed.

Lemma C9_Add_OOM_leaves_hash_in_map_witness :
  ContainsKey (Add (run 1 [OpAdd txA feer0 0]) txC feer0 1).1 (Hash txC) = true.
Proof.
  apply (C9_Add_OOM_leaves_hash_in_map 1 [OpAdd txA feer0 0] txC feer0 1).
  vm_compute. reflexivity.
Defined.

Lemma strictly_descending_sorted l :
  StronglySorted outranks l -> strictly_descending l = true.
Proof.
  induction 1 as [|x l Hl IH Hall]; simpl; [reflexivity|].
  rewrite IH, andb_true_r. apply forallb_forall. intros y Hy.
  apply Z.ltb_lt. rewrite Forall_forall in Hall. apply Hall.
  apply list_elem_of_In. exact Hy.
Qed.

Lemma list_in_map_wf mp : wf mp -> list_in_map mp = true.
Proof.
  intros Hwf. unfold list_in_map. apply forallb_forall. intros it Hit.
  rewrite (wf_list_in_map mp Hwf it) by (apply list_elem_of_In; exact Hit).
  apply bool_decide_eq_true. reflexivity.
Qed.

(** C1 (the code breaks the invariant).  In every pool reached from the
    empty pool every listed item is in the map, and the list is
    strictly descending as long as the fees of the transactions added
    are amounts that are not negative.  The rest fails, in pools reached by calls of [Add]
    alone: after an [Add] that fails with [ErrOOM] the map holds an item
    the list lacks; after an [Add] that evicts the last item the inputs
    slice still holds the inputs of the evicted transaction.  And
    [Remove] of the hash that the failed [Add] left in the map takes the
    last item off the list, leaving that item in the map and its input
    in the inputs slice. *)
Theorem C1_coherence_broken_by_Add :
  (forall capacity ops,
     (Forall op_in_range ops ->
      strictly_descending (verifiedTxes (run capacity ops)) = true) /\
     list_in_map (run capacity ops) = true) /\
  (let mp := run 1 [OpAdd txA feer0 0; OpAdd txC feer0 1] in
   map txn (verifiedTxes mp) = [txA] /\
   containsKey mp (Hash txC) = true /\
   map_in_list mp = false /\
   coherent mp = false) /\
  (let mp := run 1 [OpAdd txA feer0 0; OpAdd txB feer0 1] in
   map txn (verifiedTxes mp) = [txB] /\
   inputs mp = [inX; inY] /\
   map_in_list mp = true /\
   inputs_coherent mp = false /\
   coherent mp = false) /\
  (let mp := run 1 [OpAdd txA feer0 0; OpAdd txC feer0 1; OpRemove (Hash txC)] in
   verifiedTxes mp = [] /\
   containsKey mp (Hash txA) = true /\
   inputs mp = [inX] /\
   coherent mp = false).
Proof.
  split.
  - intros capacity ops. pose proof (wf_run capacity ops) as Hwf. split.
    + intros Hops. apply strictly_descending_sorted, (descending_run _ _ Hops).
    + apply list_in_map_wf, Hwf.
  - vm_compute. repeat split; reflexivity.
Qed.

(** C2 (the code misses the inputs and the fees).  [Add] of [txB] into
    the full pool holding [txA] succeeds and evicts [txA] from the list
    and from the map, but the input of [txA] stays in the inputs slice
    and its fee stays in the sender's sum: a later transaction spending
    that input is refused with [ErrConflict]. *)
Theorem C2_eviction_keeps_inputs_and_fees :
  let mp := run 1 [OpAdd txA feer0 0] in
  let r := Add mp txB feer0 1 in
  length (verifiedTxes mp) = capacity mp /\
  r.2 = None /\
  map txn (verifiedTxes r.1) = [txB] /\
  containsKey r.1 (Hash txA) = false /\
  inputs r.1 = [inX; inY] /\
  fees r.1 !! Sender txA = Some (mkUBF 1000 10) /\
  (Add r.1 txD feer0 2).2 = Some ErrConflict.
Proof. vm_compute. repeat split; reflexivity. Qed.

Lemma Verify_false_iff_Add_conflict mp tx feer now :
  (Verify mp tx feer).2 = false <-> (Add mp tx feer now).2 = Some ErrConflict.
Proof.
  unfold Verify.
  destruct (Add_paths mp tx feer now)
    as [Hc|Hc Hk|pItem Hc Hk Hcap Hn|s unlucky pItem n Hc Hk Hcap Es Hn
       |pItem n Hc Hk Hcap]; simpl; rewrite Hc; split; congruence.
Qed.

(** C3 (the code stores the snapshot).  [Verify] answers as the two
    checks of [Add] do and leaves the map, the list, the inputs slice
    and the capacity alone, but on a sender it has not seen it stores
    the balance in the fee table: here on the empty pool. *)
Theorem C3_Verify_stores_balance_snapshot :
  (forall mp tx feer now,
     ((Verify mp tx feer).2 = true <-> (Add mp tx feer now).2 <> Some ErrConflict) /\
     verifiedMap (Verify mp tx feer).1 = verifiedMap mp /\
     verifiedTxes (Verify mp tx feer).1 = verifiedTxes mp /\
     inputs (Verify mp tx feer).1 = inputs mp) /\
  fees (NewMemPool 1) !! Sender txA = None /\
  (Verify (NewMemPool 1) txA feer0).2 = true /\
  fees (Verify (NewMemPool 1) txA feer0).1 !! Sender txA = Some (mkUBF 1000 0) /\
  (Verify (NewMemPool 1) txA feer0).1 <> NewMemPool 1.
Proof.
  split.
  - intros mp tx feer now.
    pose proof (Verify_false_iff_Add_conflict mp tx feer now) as H.
    pose proof (checkTxConflicts_frame mp tx feer) as (Fm & Ft & Fi & _).
    split; [|unfold Verify; auto].
    destruct ((Verify mp tx feer).2); split; intros; try congruence.
    + intros E. apply H in E. discriminate.
    + exfalso. apply H0. apply H. reflexivity.
  - split; [reflexivity|]. split; [vm_compute; reflexivity|].
    split; [vm_compute; reflexivity|].
    intros E. apply (f_equal (fun p => fees p !! Sender txA)) in E.
    vm_compute in E. discriminate.
Qed.

(** *** Further properties of the pool *)

(** The accessors [TryGetValue] and [GetVerifiedTransactions]. *)
Record TxWithFee := mkTxWithFee { Tx : Transaction; Fee : Z }.

Definition TryGetValue (mp : Pool) (hash : list Z)
  : option Transaction * Z * bool :=
  match verifiedMap mp !! hash with
  | Some pItem => (Some (txn pItem), NetworkFee (txn pItem), true)
  | None => (None, 0%Z, false)
  end.

Definition GetVerifiedTransactions (mp : Pool) : list TxWithFee :=
  map (fun it => mkTxWithFee (txn it) (NetworkFee (txn it))) (verifiedTxes mp).

(** The balance and the fee sum that [checkBalanceAndUpdate] works with
    for a sender: the stored snapshot, or the balance fetched now. *)
Definition snapshot (mp : Pool) (feer : Feer) (sender : list Z)
  : utilityBalanceAndFees :=
  match fees mp !! sender with
  | Some sf => sf
  | None => mkUBF (GetUtilityTokenBalance feer sender) 0
  end.

(** The balance recorded for the sender of [tx] is below the fee sum
    recorded for it plus the fees of [tx], added as the code adds
    them. *)
Definition cannot_pay (mp : Pool) (feer : Feer) (tx : Transaction) : Prop :=
  (balance (snapshot mp feer (Sender tx)) <
   add64 (add64 (feeSum (snapshot mp feer (Sender tx))) (SystemFee tx))
         (NetworkFee tx))%Z.

Lemma checkBalanceAndUpdate_result mp tx feer :
  (checkBalanceAndUpdate mp tx feer).2 = false <-> cannot_pay mp feer tx.
Proof.
  unfold checkBalanceAndUpdate, cannot_pay, snapshot.
  destruct (fees mp !! Sender tx) as [sf|]; simpl;
    match goal with |- context [(?a <? ?b)%Z] => destruct (Z.ltb_spec a b) end;
    simpl; split; intros; try discriminate; try lia; reflexivity.
Qed.

Lemma areInputsInPool_true ins pool :
  areInputsInPool ins pool = true -> exists i, i ∈ ins /\ i ∈ pool.
Proof.
  unfold areInputsInPool. intros H. apply existsb_exists in H as (i & Hi & Hx).
  exists i. split; [apply list_elem_of_In; exact Hi|].
  destruct (pool !! findIndexForInput pool i) as [x|] eqn:Ex; [|discriminate].
  apply bool_decide_eq_true in Hx. subst x.
  apply list_elem_of_lookup. eauto.
Qed.

Lemma areInputsInPool_iff ins pool :
  StronglySorted Input_le pool ->
  areInputsInPool ins pool = true <-> exists i, i ∈ ins /\ i ∈ pool.
Proof.
  intros Hs. split; [apply areInputsInPool_true|].
  intros (i & Hi & Hp).
  destruct (areInputsInPool ins pool) eqn:E; [reflexivity|].
  exfalso. exact (areInputsInPool_false ins pool Hs E i Hi Hp).
Qed.

Lemma checkTxConflicts_result mp tx feer :
  StronglySorted Input_le (inputs mp) ->
  (checkTxConflicts mp tx feer).2 = false <->
  (exists i, i ∈ Inputs tx /\ i ∈ inputs mp) \/ cannot_pay mp feer tx.
Proof.
  intros Hs. unfold checkTxConflicts.
  pose proof (areInputsInPool_iff (Inputs tx) (inputs mp) Hs) as Hin.
  pose proof (checkBalanceAndUpdate_result mp tx feer) as Hbal.
  destruct (areInputsInPool (Inputs tx) (inputs mp)).
  - simpl. split; [intros _; left; apply Hin; reflexivity | reflexivity].
  - destruct (checkBalanceAndUpdate mp tx feer) as [mp' ok]. simpl in *.
    destruct ok; simpl; split; auto; try discriminate.
    + intros [Hex|Hcp]; [apply Hin in Hex; discriminate | apply Hbal, Hcp].
    + intros _. right. apply Hbal. reflexivity.
Qed.

(** The list after a successful [Add] on a pool with room. *)
Lemma Permutation_place {A} n (l : list A) (x : A) :
  take n l ++ x :: drop n l ≡ₚ x :: l.
Proof.
  rewrite <- Permutation_middle. rewrite take_drop. reflexivity.
Qed.

Lemma foldl_push_elem ins slice x :
  x ∈ foldl pushInputToSortedSlice slice ins <-> x ∈ ins \/ x ∈ slice.
Proof.
  revert slice. induction ins as [|i ins IH]; intros slice; simpl.
  - split; [auto | intros [H|H]; [inversion H | exact H]].
  - rewrite IH, pushInputToSortedSlice_elem, elem_of_cons. tauto.
Qed.

(** The bound on the length of the list, with the invariant. *)
Definition bounded (cap : nat) (mp : Pool) : Prop :=
  wf mp /\ capacity mp = cap /\ length (verifiedTxes mp) <= cap.

Lemma RemoveStale_capacity isOK feer (l : list item) :
  forall st,
  capacity (foldl (RemoveStale_step isOK feer) st l).1.1 = capacity st.1.1.
Proof.
  induction l as [|itm l IH]; intros [[mp acc] accI]; [reflexivity|].
  cbn [foldl]. rewrite IH. unfold RemoveStale_step.
  destruct (isOK (txn itm)); [|reflexivity].
  pose proof (tryAddSendersFee_frame mp (txn itm) feer) as (_ & _ & _ & Fc).
  destruct (tryAddSendersFee mp (txn itm) feer) as [mp' ok]; simpl in Fc.
  destruct ok; simpl; exact Fc.
Qed.

Lemma bounded_apply_op cap mp o : bounded cap mp -> bounded cap (apply_op mp o).
Proof.
  intros (Hwf & Hcap & Hlen).
  split; [apply wf_apply_op, Hwf|].
  destruct o as [t fee now|hash|isOK feer|tx feer]; simpl.
  - pose proof (checkTxConflicts_frame mp t fee) as (Fm & Ft & Fi & Fc).
    destruct (Add_paths mp t fee now)
      as [Hc|Hc Hk|pItem Hc Hk Hfull Hn|s unlucky pItem n Hc Hk Hfull Es Hn
         |pItem n Hc Hk Hfull]; simpl; rewrite ?Ft, ?Fc; auto.
    + split; [exact Hcap|]. rewrite Es in Hlen.
      rewrite length_app in *. simpl in *.
      rewrite length_take, length_drop. lia.
    + split; [exact Hcap|].
      rewrite length_app. simpl. rewrite length_take, length_drop. lia.
  - destruct (verifiedMap mp !! hash) as [it|] eqn:Hit.
    2:{ unfold Remove. rewrite Hit. auto. }
    destruct (Remove_listed mp hash it Hwf Hit) as [Hsub _].
    apply sublist_length in Hsub.
    split; [unfold Remove; rewrite Hit; exact Hcap | lia].
  - destruct Hwf as [H1 H2 H4]. unfold RemoveStale.
    pose proof (RemoveStale_loop isOK feer (verifiedTxes mp) (set_fees mp ∅) [] []
                  H2 H1) as [Hsub _].
    pose proof (RemoveStale_capacity isOK feer (verifiedTxes mp)
                  (set_fees mp ∅, [], [])) as Hc.
    destruct (foldl _ _ _) as [[mp1 newTxes] newInputs]. simpl in *.
    apply sublist_length in Hsub. split; [congruence | lia].
  - pose proof (checkTxConflicts_frame mp tx feer) as (_ & Ft & _ & Fc).
    unfold Verify. rewrite Ft, Fc. auto.
Qed.

Lemma bounded_run cap ops : bounded cap (run cap ops).
Proof.
  unfold run.
  assert (H0 : bounded cap (NewMemPool cap)).
  { split; [apply wf_NewMemPool|]. simpl. split; [reflexivity | lia]. }
  revert H0. generalize (NewMemPool cap).
  induction ops as [|o ops IH]; intros mp Hb; simpl; [exact Hb|].
  apply IH, bounded_apply_op, Hb.
Qed.

(** X1. A pool never holds more transactions than its capacity, which
    no call changes. *)
Theorem pool_never_exceeds_capacity (cap : nat) (ops : list op) :
  capacity (run cap ops) = cap /\ Count (run cap ops) <= cap.
Proof.
  destruct (bounded_run cap ops) as (_ & Hc & Hl). split; assumption.
Qed.

(** X2. After a successful [Add] the transaction is in the map and in
    the list, each of its inputs is in the inputs slice, and it was not
    in the map before. *)
Theorem Add_success_pools_the_transaction
    (cap : nat) (ops : list op) (t : Transaction) (fee : Feer) (now : Z) :
  (Add (run cap ops) t fee now).2 = None ->
  ContainsKey (run cap ops) (Hash t) = false /\
  ContainsKey (Add (run cap ops) t fee now).1 (Hash t) = true /\
  TryGetValue (Add (run cap ops) t fee now).1 (Hash t)
    = (Some t, NetworkFee t, true) /\
  mkItem t now (IsLowPriority fee (NetworkFee t))
    ∈ verifiedTxes (Add (run cap ops) t fee now).1 /\
  (forall i, i ∈ Inputs t -> i ∈ inputs (Add (run cap ops) t fee now).1).
Proof.
  intros Hok.
  pose proof (wf_run cap ops) as Hwf.
  pose proof (wf_Add _ t fee now Hwf) as Hwf'.
  generalize dependent (run cap ops). intros mp Hok Hwf Hwf'.
  assert (Hin : mkItem t now (IsLowPriority fee (NetworkFee t))
                  ∈ verifiedTxes (Add mp t fee now).1 /\
                containsKey mp (Hash t) = false /\
                (forall i, i ∈ Inputs t -> i ∈ inputs (Add mp t fee now).1)).
  { destruct (Add_paths mp t fee now)
      as [Hc|Hc Hk|pItem Hc Hk Hfull Hn|s unlucky pItem n Hc Hk Hfull Es Hn
         |pItem n Hc Hk Hfull]; simpl in Hok |- *; try discriminate.
    - split; [apply elem_of_place; left; reflexivity|]. split; [exact Hk|].
      intros i Hi. apply foldl_push_elem. left. exact Hi.
    - split; [apply elem_of_place; left; reflexivity|]. split; [exact Hk|].
      intros i Hi. apply foldl_push_elem. left. exact Hi. }
  destruct Hin as (Hin & Hk & Hins).
  pose proof (wf_list_in_map _ Hwf' _ Hin) as Hm. simpl in Hm.
  unfold ContainsKey, containsKey, TryGetValue. rewrite Hm. simpl.
  repeat split; auto.
Qed.

Lemma Add_success_pools_the_transaction_witness :
  ContainsKey (Add (run 1 [OpAdd txA feer0 0]) txB feer0 1).1 (Hash txB) = true.
Proof.
  apply (Add_success_pools_the_transaction 1 [OpAdd txA feer0 0] txB feer0 1).
  vm_compute. reflexivity.
Defined.

(** X3. As long as the fees of the transactions added are amounts
    that are not negative, a successful [Add] drops no item but, in a
    full pool, the last one, and only when the new item outranks it:
    with room the new list is the old one with the new item; in a full
    pool it is the old one without its last item, with the new item,
    and the evicted item is outranked by the new one and gone from the
    map. *)
Theorem Add_success_evicts_only_the_outranked_last
    (cap : nat) (ops : list op) (t : Transaction) (fee : Feer) (now : Z) :
  Forall op_in_range ops -> fees_in_range t ->
  (Add (run cap ops) t fee now).2 = None ->
  (length (verifiedTxes (run cap ops)) < cap /\
   verifiedTxes (Add (run cap ops) t fee now).1 ≡ₚ
     mkItem t now (IsLowPriority fee (NetworkFee t)) :: verifiedTxes (run cap ops)) \/
  (length (verifiedTxes (run cap ops)) = cap /\
   exists s unlucky,
     verifiedTxes (run cap ops) = s ++ [unlucky] /\
     verifiedTxes (Add (run cap ops) t fee now).1 ≡ₚ
       mkItem t now (IsLowPriority fee (NetworkFee t)) :: s /\
     outranks (mkItem t now (IsLowPriority fee (NetworkFee t))) unlucky /\
     ContainsKey (Add (run cap ops) t fee now).1 (Hash (txn unlucky)) = false).
Proof.
  intros Hops Ht Hok.
  destruct (bounded_run cap ops) as (Hwf & Hcap & Hlen).
  destruct (descending_run cap ops Hops) as [Hs Hr].
  generalize dependent (run cap ops). intros mp Hok Hwf Hcap Hlen Hs Hr.
  destruct (Add_paths mp t fee now)
    as [Hc|Hc Hk|pItem Hc Hk Hfull Hn|s unlucky pItem n Hc Hk Hfull Es Hn
       |pItem n Hc Hk Hfull]; simpl in Hok |- *; try discriminate.
  - right. split; [congruence|]. exists s, unlucky.
    split; [exact Es|]. split; [apply Permutation_place|].
    pose proof (not_containsKey_not_listed mp _ Hwf Hk) as Hfresh.
    pose proof (Add_index_boundary pItem (verifiedTxes mp) Hs Hr Ht Hfresh)
      as (_ & _ & Hhi). fold n in Hhi.
    split.
    + apply Hhi. rewrite Es, drop_app_le by exact Hn.
      apply elem_of_app. right. left.
    + unfold ContainsKey, containsKey. simpl. rewrite lookup_delete_eq. reflexivity.
  - left. split; [lia | apply Permutation_place].
Qed.

Lemma Add_success_evicts_only_the_outranked_last_witness :
  (length (verifiedTxes (run 1 [OpAdd txA feer0 0])) < 1 /\
   verifiedTxes (Add (run 1 [OpAdd txA feer0 0]) txB feer0 1).1 ≡ₚ
     mkItem txB 1 (IsLowPriority feer0 (NetworkFee txB))
       :: verifiedTxes (run 1 [OpAdd txA feer0 0])) \/
  (length (verifiedTxes (run 1 [OpAdd txA feer0 0])) = 1 /\
   exists s unlucky,
     verifiedTxes (run 1 [OpAdd txA feer0 0]) = s ++ [unlucky] /\
     verifiedTxes (Add (run 1 [OpAdd txA feer0 0]) txB feer0 1).1 ≡ₚ
       mkItem txB 1 (IsLowPriority feer0 (NetworkFee txB)) :: s /\
     outranks (mkItem txB 1 (IsLowPriority feer0 (NetworkFee txB))) unlucky /\
     ContainsKey (Add (run 1 [OpAdd txA feer0 0]) txB feer0 1).1
       (Hash (txn unlucky)) = false).
Proof.
  apply (Add_success_evicts_only_the_outranked_last 1 [OpAdd txA feer0 0] txB feer0 1);
    [in_range .. |].
  vm_compute. reflexivity.
Defined.

(** X4. [Remove] takes the hash out of the map and, in a pool reached
    from the empty pool, out of the list; it leaves the other hashes of
    the map alone, and a second [Remove] of the same hash changes
    nothing. *)
Theorem Remove_forgets_the_hash
    (cap : nat) (ops : list op) (hash hash' : list Z) :
  ContainsKey (Remove (run cap ops) hash) hash = false /\
  (hash ∉ hashes (verifiedTxes (Remove (run cap ops) hash))) /\
  Remove (Remove (run cap ops) hash) hash = Remove (run cap ops) hash /\
  (hash' <> hash ->
   ContainsKey (Remove (run cap ops) hash) hash' = ContainsKey (run cap ops) hash').
Proof.
  pose proof (wf_run cap ops) as Hwf.
  generalize dependent (run cap ops). intros mp Hwf.
  assert (Hgone : verifiedMap (Remove mp hash) !! hash = None).
  { unfold Remove. destruct (verifiedMap mp !! hash) as [it|] eqn:Hit; [|exact Hit].
    simpl. apply lookup_delete_eq. }
  split; [unfold ContainsKey, containsKey; rewrite Hgone; reflexivity|].
  split.
  { apply (not_containsKey_not_listed _ _ (wf_Remove mp hash Hwf)).
    unfold containsKey. rewrite Hgone. reflexivity. }
  split.
  { unfold Remove at 1. rewrite Hgone. reflexivity. }
  intros Hne. unfold ContainsKey, containsKey, Remove.
  destruct (verifiedMap mp !! hash) as [it|] eqn:Hit; [|reflexivity].
  simpl. rewrite lookup_delete_ne by congruence. reflexivity.
Qed.

Lemma Remove_forgets_the_hash_witness :
  ContainsKey (Remove (run 2 [OpAdd txA feer0 0; OpAdd txB feer0 1]) (Hash txA))
    (Hash txB)
  = ContainsKey (run 2 [OpAdd txA feer0 0; OpAdd txB feer0 1]) (Hash txB).
Proof.
  apply (Remove_forgets_the_hash 2 [OpAdd txA feer0 0; OpAdd txB feer0 1]
           (Hash txA) (Hash txB)).
  vm_compute. discriminate.
Defined.

(** X5. In a pool reached from the empty pool [Add] returns
    [ErrConflict] exactly when an input of the transaction is in the
    inputs slice, or the balance recorded for the sender is below the
    fee sum recorded for it plus the system and network fees of the
    transaction.  Both are read as the fee table has them, the fee
    policy's balance and a sum of zero standing for a sender without an
    entry: the recorded sum is not recomputed from the pooled
    transactions, and the inputs slice is not either. *)
Theorem Add_conflict_iff
    (cap : nat) (ops : list op) (t : Transaction) (fee : Feer) (now : Z) :
  (Add (run cap ops) t fee now).2 = Some ErrConflict <->
  (exists i, i ∈ Inputs t /\ i ∈ inputs (run cap ops)) \/
  cannot_pay (run cap ops) fee t.
Proof.
  pose proof (wf_run cap ops) as Hwf.
  generalize dependent (run cap ops). intros mp Hwf.
  rewrite <- (checkTxConflicts_result mp t fee (wf_inputs mp Hwf)).
  destruct (Add_paths mp t fee now)
    as [Hc|Hc Hk|pItem Hc Hk Hfull Hn|s unlucky pItem n Hc Hk Hfull Es Hn
       |pItem n Hc Hk Hfull]; simpl; rewrite Hc; split; congruence.
Qed.

(** X6. In a pool reached from the empty pool, as long as the fees of
    the transactions added and of the new one are amounts that are not
    negative, [Add] returns [ErrOOM] exactly when the two checks pass,
    the hash is new, the pool is full and every pooled item outranks
    the new one. *)
Theorem Add_out_of_memory_iff
    (cap : nat) (ops : list op) (t : Transaction) (fee : Feer) (now : Z) :
  Forall op_in_range ops -> fees_in_range t ->
  (Add (run cap ops) t fee now).2 = Some ErrOOM <->
  (Verify (run cap ops) t fee).2 = true /\
  ContainsKey (run cap ops) (Hash t) = false /\
  Count (run cap ops) = cap /\
  forall it, it ∈ verifiedTxes (run cap ops) ->
             outranks it (mkItem t now (IsLowPriority fee (NetworkFee t))).
Proof.
  intros Hops Ht.
  destruct (bounded_run cap ops) as (Hwf & Hcap & _).
  destruct (descending_run cap ops Hops) as [Hs Hr].
  generalize dependent (run cap ops). intros mp Hwf Hcap Hs Hr.
  unfold Verify, ContainsKey, Count, count.
  set (pItem := mkItem t now (IsLowPriority fee (NetworkFee t))).
  assert (Hb : containsKey mp (Hash t) = false ->
               (forall x, x ∈ take (Add_index pItem (verifiedTxes mp)) (verifiedTxes mp)
                          -> outranks x pItem) /\
               (forall x, x ∈ drop (Add_index pItem (verifiedTxes mp)) (verifiedTxes mp)
                          -> outranks pItem x)).
  { intros Hk. pose proof (not_containsKey_not_listed mp _ Hwf Hk) as Hfresh.
    apply (Add_index_boundary pItem (verifiedTxes mp) Hs Hr Ht Hfresh). }
  destruct (Add_paths mp t fee now)
    as [Hc|Hc Hk|pItem' Hc Hk Hfull Hn|s unlucky pItem' n Hc Hk Hfull Es Hn
       |pItem' n Hc Hk Hfull]; simpl.
  - split; [discriminate|]. intros (Hv & _). congruence.
  - split; [discriminate|]. intros (_ & Hk' & _). congruence.
  - split; [|reflexivity]. intros _.
    split; [exact Hc|]. split; [exact Hk|]. split; [congruence|].
    intros it Hit. destruct (Hb Hk) as [Hlo _]. apply Hlo.
    assert (En : Add_index pItem (verifiedTxes mp) = length (verifiedTxes mp))
      by exact Hn.
    rewrite En, take_ge by lia. exact Hit.
  - split; [discriminate|]. intros (_ & _ & _ & Hall). exfalso.
    destruct (Hb Hk) as [_ Hhi].
    assert (Hu : unlucky ∈ drop (Add_index pItem (verifiedTxes mp)) (verifiedTxes mp)).
    { change (Add_index pItem (verifiedTxes mp)) with n.
      rewrite Es, drop_app_le by exact Hn. apply elem_of_app. right. left. }
    assert (Hru : fees_in_range (txn unlucky)).
    { rewrite Forall_forall in Hr. apply Hr. rewrite Es.
      apply elem_of_app. right. left. }
    apply (outranks_asym pItem unlucky Ht Hru (Hhi _ Hu)). apply Hall.
    rewrite Es. apply elem_of_app. right. left.
  - split; [discriminate|]. intros (_ & _ & Hlen & _). congruence.
Qed.

Lemma Add_out_of_memory_iff_witness :
  (Add (run 1 [OpAdd txA feer0 0]) txC feer0 1).2 = Some ErrOOM <->
  (Verify (run 1 [OpAdd txA feer0 0]) txC feer0).2 = true /\
  ContainsKey (run 1 [OpAdd txA feer0 0]) (Hash txC) = false /\
  Count (run 1 [OpAdd txA feer0 0]) = 1 /\
  forall it, it ∈ verifiedTxes (run 1 [OpAdd txA feer0 0]) ->
             outranks it (mkItem txC 1 (IsLowPriority feer0 (NetworkFee txC))).
Proof.
  apply (Add_out_of_memory_iff 1 [OpAdd txA feer0 0] txC feer0 1); in_range.
Defined.

(** X7. On a sorted slice [dropInputFromSortedSlice] undoes
    [pushInputToSortedSlice]; the push keeps the slice sorted and adds
    the input to it, once. *)
Theorem push_then_drop_input (slice : list Input) (input : Input) :
  StronglySorted Input_le slice ->
  StronglySorted Input_le (pushInputToSortedSlice slice input) /\
  pushInputToSortedSlice slice input ≡ₚ input :: slice /\
  dropInputFromSortedSlice (pushInputToSortedSlice slice input) input = slice.
Proof.
  intros Hs.
  pose proof (pushInputToSortedSlice_sorted slice input Hs) as Hs'.
  split; [exact Hs'|].
  split; [rewrite pushInputToSortedSlice_eq; apply Permutation_place|].
  destruct (findIndexForInput_boundary slice input Hs) as (Hn & Hlo & Hhi).
  destruct (findIndexForInput_boundary _ input Hs') as (Hn' & Hlo' & Hhi').
  unfold dropInputFromSortedSlice.
  set (n := findIndexForInput slice input) in *.
  set (n' := findIndexForInput (pushInputToSortedSlice slice input) input) in *.
  rewrite pushInputToSortedSlice_eq in *. fold n in Hn', Hlo', Hhi' |- *.
  assert (Hlen : length (take n slice) = n) by (rewrite length_take; lia).
  assert (Hat : (take n slice ++ input :: drop n slice) !! n = Some input).
  { apply list_lookup_middle. symmetry. exact Hlen. }
  assert (En : n' = n).
  { destruct (Nat.lt_trichotomy n' n) as [Hlt|[E|Hgt]]; [|exact E|].
    - exfalso.
      destruct (lookup_lt_is_Some_2 (take n slice) n' ltac:(lia)) as [x Ex].
      assert (Hx : x ∈ take n slice) by (apply list_elem_of_lookup; eauto).
      apply (Input_lt_irrefl input).
      assert (Hle : Input_le input x).
      { apply Hhi'. apply list_elem_of_lookup. exists 0.
        rewrite lookup_drop, Nat.add_0_r, lookup_app_l by lia. exact Ex. }
      apply Input_le_iff in Hle as [Hl| ->].
      + exact (Input_lt_trans _ _ _ Hl (Hlo _ Hx)).
      + exact (Hlo _ Hx).
    - exfalso. apply (Input_lt_irrefl input). apply Hlo'.
      apply elem_of_take. exists n. split; [exact Hat | lia]. }
  rewrite En, Hat. rewrite bool_decide_eq_false_2 by (intros H; apply H; reflexivity).
  unfold copy_shift_left.
  rewrite take_app_length' by (symmetry; exact Hlen).
  replace (S n) with (length (take n slice) + 1) by lia.
  rewrite drop_app_add. simpl. rewrite drop_0. apply take_drop.
Qed.

Lemma push_then_drop_input_witness :
  dropInputFromSortedSlice (pushInputToSortedSlice [inX] inY) inY = [inX].
Proof.
  apply (push_then_drop_input [inX] inY).
  repeat constructor.
Defined.

(** X8. On a sorted inputs slice [areInputsInPool] answers true exactly
    when one of the given inputs is in the slice. *)
Theorem areInputsInPool_exact (ins pool : list Input) :
  StronglySorted Input_le pool ->
  areInputsInPool ins pool = true <-> exists i, i ∈ ins /\ i ∈ pool.
Proof. apply areInputsInPool_iff. Qed.

Lemma areInputsInPool_exact_witness :
  areInputsInPool [inY] [inX; inY] = true <-> exists i, i ∈ [inY] /\ i ∈ [inX; inY].
Proof.
  apply (areInputsInPool_exact [inY] [inX; inY]).
  repeat constructor; vm_compute; discriminate.
Defined.

Lemma checkBalanceAndUpdate_twice mp tx feer :
  checkBalanceAndUpdate (checkBalanceAndUpdate mp tx feer).1 tx feer
  = checkBalanceAndUpdate mp tx feer.
Proof.
  unfold checkBalanceAndUpdate.
  destruct (fees mp !! Sender tx) as [sf|] eqn:E.
  - destruct (_ <? _)%Z eqn:Eb; simpl; rewrite E, Eb; reflexivity.
  - destruct (_ <? _)%Z eqn:Eb; simpl; rewrite lookup_insert_eq, Eb; reflexivity.
Qed.

Lemma checkTxConflicts_twice mp tx feer :
  checkTxConflicts (checkTxConflicts mp tx feer).1 tx feer
  = checkTxConflicts mp tx feer.
Proof.
  pose proof (checkTxConflicts_frame mp tx feer) as (_ & _ & Fi & _).
  unfold checkTxConflicts at 1. rewrite Fi.
  unfold checkTxConflicts.
  destruct (areInputsInPool (Inputs tx) (inputs mp)) eqn:Ea; [reflexivity|].
  pose proof (checkBalanceAndUpdate_twice mp tx feer) as H.
  destruct (checkBalanceAndUpdate mp tx feer) as [mp1 ok]. simpl in *.
  destruct ok; simpl; rewrite H; reflexivity.
Qed.

(** X9. A call of [Verify] before [Add], with the same fee policy, does
    not change what [Add] returns nor the pool it leaves. *)
Theorem Verify_then_Add (mp : Pool) (t : Transaction) (fee : Feer) (now : Z) :
  Add (Verify mp t fee).1 t fee now = Add mp t fee now.
Proof.
  unfold Verify, Add. rewrite checkTxConflicts_twice. reflexivity.
Qed.

(** X10. In a pool reached from the empty pool
    [GetVerifiedTransactions] lists as many transactions as [Count]
    says, each with its network fee, and [TryGetValue] finds each of
    them under its hash. *)
Theorem listed_transactions_are_found (cap : nat) (ops : list op) :
  length (GetVerifiedTransactions (run cap ops)) = Count (run cap ops) /\
  forall x, x ∈ GetVerifiedTransactions (run cap ops) ->
    Fee x = NetworkFee (Tx x) /\
    TryGetValue (run cap ops) (Hash (Tx x)) = (Some (Tx x), Fee x, true).
Proof.
  pose proof (wf_run cap ops) as Hwf.
  generalize dependent (run cap ops). intros mp Hwf.
  unfold GetVerifiedTransactions, Count, count.
  split; [apply length_map|].
  intros x Hx. apply list_elem_of_In, in_map_iff in Hx as (it & <- & Hit).
  simpl. split; [reflexivity|].
  unfold TryGetValue.
  rewrite (wf_list_in_map mp Hwf it) by (apply list_elem_of_In; exact Hit).
  reflexivity.
Qed.

(** *** [RemoveStale] *)

Lemma RemoveStale_step_eq isOK feer mp acc accI itm :
  RemoveStale_step isOK feer (mp, acc, accI) itm =
  if isOK (txn itm) then
    if (tryAddSendersFee mp (txn itm) feer).2
    then ((tryAddSendersFee mp (txn itm) feer).1, acc ++ [itm],
          accI ++ Inputs (txn itm))
    else (mkPool (delete (Hash (txn itm))
                    (verifiedMap (tryAddSendersFee mp (txn itm) feer).1))
                 (verifiedTxes (tryAddSendersFee mp (txn itm) feer).1)
                 (inputs (tryAddSendersFee mp (txn itm) feer).1)
                 (fees (tryAddSendersFee mp (txn itm) feer).1)
                 (capacity (tryAddSendersFee mp (txn itm) feer).1),
          acc, accI)
  else (mkPool (delete (Hash (txn itm)) (verifiedMap mp)) (verifiedTxes mp)
               (inputs mp) (fees mp) (capacity mp), acc, accI).
Proof.
  unfold RemoveStale_step. destruct (isOK (txn itm)); [|reflexivity].
  destruct (tryAddSendersFee mp (txn itm) feer) as [mp' ok]. destruct ok; reflexivity.
Qed.

(** The map only loses entries in the loop. *)
Lemma RemoveStale_loop_map isOK feer (l : list item) : forall st h,
  verifiedMap st.1.1 !! h = None ->
  verifiedMap (foldl (RemoveStale_step isOK feer) st l).1.1 !! h = None.
Proof.
  induction l as [|itm l IH]; intros [[mp acc] accI] h Hh; [exact Hh|].
  cbn [foldl]. apply IH. rewrite RemoveStale_step_eq.
  pose proof (tryAddSendersFee_frame mp (txn itm) feer) as (Fm & _).
  simpl in Hh.
  destruct (isOK (txn itm)); [destruct (tryAddSendersFee mp (txn itm) feer).2|];
    simpl; rewrite ?Fm; try exact Hh;
    (destruct (decide (Hash (txn itm) = h)) as [->|Hne];
     [apply lookup_delete_eq | rewrite lookup_delete_ne by exact Hne; exact Hh]).
Qed.

(** The loop appends to the list the items it keeps, in order, and their
    inputs to the inputs; every item it passes is kept or loses its hash
    in the map. *)
Lemma RemoveStale_loop_shape isOK feer (l : list item) : forall mp acc accI,
  exists k,
    (foldl (RemoveStale_step isOK feer) (mp, acc, accI) l).1.2 = acc ++ k /\
    (foldl (RemoveStale_step isOK feer) (mp, acc, accI) l).2
      = accI ++ concat (map (fun it => Inputs (txn it)) k) /\
    k `sublist_of` l /\
    Forall (fun it => isOK (txn it) = true) k /\
    forall itm, itm ∈ l ->
      itm ∈ k \/
      verifiedMap (foldl (RemoveStale_step isOK feer) (mp, acc, accI) l).1.1
        !! Hash (txn itm) = None.
Proof.
  induction l as [|itm l IH]; intros mp acc accI.
  - exists []. simpl. rewrite !app_nil_r. repeat split; auto;
      try (intros x Hx; inversion Hx).
  - cbn [foldl]. rewrite RemoveStale_step_eq.
    destruct (isOK (txn itm)) eqn:Eok;
      [destruct (tryAddSendersFee mp (txn itm) feer).2 eqn:Etry|].
    + destruct (IH (tryAddSendersFee mp (txn itm) feer).1 (acc ++ [itm])
                  (accI ++ Inputs (txn itm))) as (k & E1 & E2 & Hs & Hall & Hm).
      exists (itm :: k). rewrite E1, E2, <- !app_assoc. simpl.
      split; [reflexivity|]. split; [reflexivity|].
      split; [apply sublist_skip, Hs|]. split; [constructor; assumption|].
      intros x Hx. apply elem_of_cons in Hx as [->|Hx]; [left; left|].
      destruct (Hm x Hx) as [H|H]; [left; right; exact H | right; exact H].
    + match goal with |- context [foldl _ (?m, acc, accI) l] => set (mp' := m) end.
      destruct (IH mp' acc accI) as (k & E1 & E2 & Hs & Hall & Hm).
      exists k. split; [exact E1|]. split; [exact E2|].
      split; [apply sublist_cons, Hs|]. split; [exact Hall|].
      intros x Hx. apply elem_of_cons in Hx as [->|Hx]; [|exact (Hm x Hx)].
      right. apply (RemoveStale_loop_map isOK feer l (mp', acc, accI)).
      subst mp'. simpl. apply lookup_delete_eq.
    + match goal with |- context [foldl _ (?m, acc, accI) l] => set (mp' := m) end.
      destruct (IH mp' acc accI) as (k & E1 & E2 & Hs & Hall & Hm).
      exists k. split; [exact E1|]. split; [exact E2|].
      split; [apply sublist_cons, Hs|]. split; [exact Hall|].
      intros x Hx. apply elem_of_cons in Hx as [->|Hx]; [|exact (Hm x Hx)].
      right. apply (RemoveStale_loop_map isOK feer l (mp', acc, accI)).
      subst mp'. simpl. apply lookup_delete_eq.
Qed.

(** X11. [RemoveStale] keeps a sublist of the list, in its order, of
    items the filter accepts; it drops the hash of every other listed
    item from the map; it rebuilds the inputs slice as the sorted inputs
    of the items it keeps; and it leaves the capacity alone. *)
Theorem RemoveStale_keeps_accepted_items
    (mp : Pool) (isOK : Transaction -> bool) (feer : Feer) :
  verifiedTxes (RemoveStale mp isOK feer) `sublist_of` verifiedTxes mp /\
  (forall it, it ∈ verifiedTxes (RemoveStale mp isOK feer) -> isOK (txn it) = true) /\
  (forall it, it ∈ verifiedTxes mp ->
     it ∈ verifiedTxes (RemoveStale mp isOK feer) \/
     ContainsKey (RemoveStale mp isOK feer) (Hash (txn it)) = false) /\
  inputs_coherent (RemoveStale mp isOK feer) = true /\
  capacity (RemoveStale mp isOK feer) = capacity mp.
Proof.
  unfold RemoveStale, inputs_coherent, ContainsKey, containsKey.
  destruct (RemoveStale_loop_shape isOK feer (verifiedTxes mp) (set_fees mp ∅) [] [])
    as (k & E1 & E2 & Hs & Hall & Hm).
  pose proof (RemoveStale_capacity isOK feer (verifiedTxes mp)
                (set_fees mp ∅, [], [])) as Hc.
  destruct (foldl _ _ _) as [[mp1 newTxes] newInputs]. simpl in *. subst.
  split; [exact Hs|].
  split; [rewrite Forall_forall in Hall; exact Hall|].
  split.
  { intros it Hit. destruct (Hm it Hit) as [H|H]; [left; exact H|].
    right. rewrite H. reflexivity. }
  split; [apply bool_decide_eq_true; reflexivity | exact Hc].
Qed.

(** The fees of a transaction, and the fees of the listed transactions
    of a sender, before any wrap-around. *)
Definition fee_of (tx : Transaction) : Z := (SystemFee tx + NetworkFee tx)%Z.

Fixpoint sender_total (s : list Z) (l : list item) : Z :=
  match l with
  | [] => 0%Z
  | it :: l' =>
      if decide (Sender (txn it) = s)
      then (fee_of (txn it) + sender_total s l')%Z
      else sender_total s l'
  end.

Lemma wrap64_mod x :
  ((wrap64 x + 2 ^ 63) `mod` 2 ^ 64 = (x + 2 ^ 63) `mod` 2 ^ 64)%Z.
Proof.
  unfold wrap64.
  replace ((x + 2 ^ 63) `mod` 2 ^ 64 - 2 ^ 63 + 2 ^ 63)%Z
    with ((x + 2 ^ 63) `mod` 2 ^ 64)%Z by lia.
  apply Z.mod_mod. lia.
Qed.

Lemma wrap64_add_l x y : wrap64 (wrap64 x + y)%Z = wrap64 (x + y)%Z.
Proof.
  unfold wrap64 at 1 3. f_equal.
  replace (wrap64 x + y + 2 ^ 63)%Z with ((wrap64 x + 2 ^ 63) + y)%Z by lia.
  rewrite <- Zplus_mod_idemp_l, wrap64_mod, Zplus_mod_idemp_l.
  f_equal. lia.
Qed.

Lemma wrap64_add_r x y : wrap64 (x + wrap64 y)%Z = wrap64 (x + y)%Z.
Proof. rewrite Z.add_comm, wrap64_add_l. f_equal. lia. Qed.

Lemma add64_assoc a b c : add64 (add64 a b) c = add64 a (add64 b c).
Proof.
  unfold add64. rewrite wrap64_add_l, wrap64_add_r. f_equal. lia.
Qed.

Lemma add64_total t x y :
  add64 (wrap64 t) (add64 x y) = wrap64 (t + (x + y))%Z.
Proof. unfold add64. rewrite wrap64_add_l, wrap64_add_r. reflexivity. Qed.

Lemma sender_total_snoc s l it :
  sender_total s (l ++ [it]) =
  (sender_total s l + if decide (Sender (txn it) = s) then fee_of (txn it) else 0)%Z.
Proof.
  induction l as [|x l IH]; simpl.
  - destruct (decide _); lia.
  - rewrite IH. destruct (decide (Sender (txn x) = s)); lia.
Qed.

Lemma sender_total_none s l :
  (forall it, it ∈ l -> Sender (txn it) <> s) -> sender_total s l = 0%Z.
Proof.
  induction l as [|x l IH]; intros H; simpl; [reflexivity|].
  rewrite decide_False by (apply H; left).
  apply IH. intros it Hit. apply H. right. exact Hit.
Qed.

(** What [tryAddSendersFee] does to the fee table. *)
Lemma tryAddSendersFee_fees mp tx feer :
  let u0 := snapshot mp feer (Sender tx) in
  let need := add64 (add64 (feeSum u0) (SystemFee tx)) (NetworkFee tx) in
  ((balance u0 < need)%Z /\
   (tryAddSendersFee mp tx feer).2 = false /\
   fees (tryAddSendersFee mp tx feer).1 = <[Sender tx := u0]> (fees mp)) \/
  ((need <= balance u0)%Z /\
   (tryAddSendersFee mp tx feer).2 = true /\
   fees (tryAddSendersFee mp tx feer).1
     = <[Sender tx := mkUBF (balance u0) need]> (fees mp)).
Proof.
  unfold tryAddSendersFee, checkBalanceAndUpdate, snapshot, addSendersFee, fees_at.
  destruct (fees mp !! Sender tx) as [sf|] eqn:E; simpl;
    match goal with |- context [(?a <? ?b)%Z] => destruct (Z.ltb_spec a b) end;
    simpl.
  - left. split; [assumption|]. split; [reflexivity|].
    symmetry. apply insert_id. exact E.
  - right. split; [assumption|]. split; [reflexivity|].
    rewrite E. simpl. rewrite add64_assoc. reflexivity.
  - left. split; [assumption|]. split; reflexivity.
  - right. split; [assumption|]. split; [reflexivity|].
    rewrite lookup_insert_eq. simpl. rewrite insert_insert_eq, add64_assoc.
    reflexivity.
Qed.

(** The fee table accounts for the items kept so far: a sender's entry
    holds the balance the fee policy gives, and the wrapped total of the
    fees of its kept items, which its balance covers once it has an item
    kept; a sender without an entry has no item kept. *)
Definition fees_account (feer : Feer) (fs : gmap (list Z) utilityBalanceAndFees)
    (acc : list item) : Prop :=
  forall s,
    match fs !! s with
    | Some u =>
        balance u = GetUtilityTokenBalance feer s /\
        feeSum u = wrap64 (sender_total s acc) /\
        ((exists it, it ∈ acc /\ Sender (txn it) = s) -> (feeSum u <= balance u)%Z)
    | None => forall it, it ∈ acc -> Sender (txn it) <> s
    end.

Lemma fees_account_snapshot feer fs acc s u :
  fees_account feer fs acc ->
  u = match fs !! s with
      | Some sf => sf
      | None => mkUBF (GetUtilityTokenBalance feer s) 0
      end ->
  balance u = GetUtilityTokenBalance feer s /\
  feeSum u = wrap64 (sender_total s acc) /\
  ((exists it, it ∈ acc /\ Sender (txn it) = s) -> (feeSum u <= balance u)%Z).
Proof.
  intros Hacc ->. specialize (Hacc s).
  destruct (fs !! s) as [sf|]; [exact Hacc|]. simpl.
  split; [reflexivity|]. split.
  - rewrite (sender_total_none s acc Hacc). reflexivity.
  - intros (it & Hit & Hs). exfalso. exact (Hacc it Hit Hs).
Qed.

Lemma fees_account_step isOK feer mp acc accI itm :
  fees_account feer (fees mp) acc ->
  fees_account feer
    (fees (RemoveStale_step isOK feer (mp, acc, accI) itm).1.1)
    (RemoveStale_step isOK feer (mp, acc, accI) itm).1.2.
Proof.
  intros Hacc. rewrite RemoveStale_step_eq.
  destruct (isOK (txn itm)); [|exact Hacc].
  pose proof (fees_account_snapshot feer (fees mp) acc (Sender (txn itm)) _ Hacc eq_refl)
    as (Hbal & Hsum & Hcov).
  fold (snapshot mp feer (Sender (txn itm))) in Hbal, Hsum, Hcov.
  destruct (tryAddSendersFee_fees mp (txn itm) feer) as [(Hlt & -> & Ef)|(Hle & -> & Ef)];
    simpl; rewrite Ef; intros s; specialize (Hacc s).
  - destruct (decide (Sender (txn itm) = s)) as [<-|Hne].
    + rewrite lookup_insert_eq. auto.
    + rewrite lookup_insert_ne by exact Hne. exact Hacc.
  - destruct (decide (Sender (txn itm) = s)) as [<-|Hne].
    + rewrite lookup_insert_eq. simpl. split; [exact Hbal|]. split; [|intros _; exact Hle].
      rewrite sender_total_snoc, decide_True by reflexivity.
      rewrite add64_assoc, Hsum. apply add64_total.
    + rewrite lookup_insert_ne by exact Hne.
      assert (Hin : forall it, it ∈ acc ++ [itm] -> Sender (txn it) = s -> it ∈ acc).
      { intros it Hit Hs. apply elem_of_app in Hit as [Hit|Hit]; [exact Hit|].
        apply list_elem_of_singleton in Hit. subst it. contradiction. }
      destruct (fees mp !! s) as [u|].
      * destruct Hacc as (H1 & H2 & H3). split; [exact H1|]. split.
        { rewrite sender_total_snoc, decide_False by exact Hne.
          rewrite Z.add_0_r. exact H2. }
        intros (it & Hit & Hs). apply H3. exists it. split; [|exact Hs]. auto.
      * intros it Hit Hs. apply (Hacc it); [|exact Hs]. auto.
Qed.

Lemma fees_account_loop isOK feer (l : list item) : forall mp acc accI,
  fees_account feer (fees mp) acc ->
  fees_account feer
    (fees (foldl (RemoveStale_step isOK feer) (mp, acc, accI) l).1.1)
    (foldl (RemoveStale_step isOK feer) (mp, acc, accI) l).1.2.
Proof.
  induction l as [|itm l IH]; intros mp acc accI Hacc; [exact Hacc|].
  cbn [foldl].
  pose proof (fees_account_step isOK feer mp acc accI itm Hacc) as Hstep.
  destruct (RemoveStale_step isOK feer (mp, acc, accI) itm) as [[mp' acc'] accI'].
  apply IH. exact Hstep.
Qed.

(** X12. After [RemoveStale] the fee table is the account of the items
    kept: the sender of every kept item has an entry with the balance
    the fee policy gives it and, as its fee sum, the total of the system
    and network fees of its kept items (wrapped to 64 bits), and that
    sum does not exceed the balance. *)
Theorem RemoveStale_recounts_fees
    (mp : Pool) (isOK : Transaction -> bool) (feer : Feer) (it : item) :
  it ∈ verifiedTxes (RemoveStale mp isOK feer) ->
  exists u,
    fees (RemoveStale mp isOK feer) !! Sender (txn it) = Some u /\
    balance u = GetUtilityTokenBalance feer (Sender (txn it)) /\
    feeSum u = wrap64 (sender_total (Sender (txn it))
                         (verifiedTxes (RemoveStale mp isOK feer))) /\
    (feeSum u <= balance u)%Z.
Proof.
  unfold RemoveStale.
  pose proof (fees_account_loop isOK feer (verifiedTxes mp) (set_fees mp ∅) [] []) as H.
  destruct (foldl _ _ _) as [[mp1 newTxes] newInputs]. simpl in *.
  intros Hit.
  assert (H0 : fees_account feer ∅ []).
  { intros s. rewrite lookup_empty. intros x Hx. inversion Hx. }
  specialize (H H0 (Sender (txn it))).
  destruct (fees mp1 !! Sender (txn it)) as [u|].
  - destruct H as (H1 & H2 & H3). exists u. repeat split; auto.
    apply H3. exists it. auto.
  - exfalso. exact (H it Hit eq_refl).
Qed.

Lemma RemoveStale_recounts_fees_witness :
  exists u,
    fees (RemoveStale (run 2 [OpAdd txA feer0 0; OpAdd txB feer0 1])
            (fun _ => true) feer0) !! Sender txA = Some u /\
    balance u = 1000%Z /\
    feeSum u = wrap64 (sender_total (Sender txA)
                         (verifiedTxes
                            (RemoveStale (run 2 [OpAdd txA feer0 0; OpAdd txB feer0 1])
                               (fun _ => true) feer0))) /\
    (feeSum u <= balance u)%Z.
Proof.
  apply (RemoveStale_recounts_fees (run 2 [OpAdd txA feer0 0; OpAdd txB feer0 1])
           (fun _ => true) feer0 (mkItem txA 0 false)).
  vm_compute. right. left.
Defined.

End Mempool.


(** ** The TCP peer session (package network) *)

Module Peer.

(** [handShakeStage] is a [uint8] bit mask, [1 << iota]. *)
Definition versionSent : Z := Z.shiftl 1 0.
Definition versionReceived : Z := Z.shiftl 1 1.
Definition verAckSent : Z := Z.shiftl 1 2.
Definition verAckReceived : Z := Z.shiftl 1 3.

Definition requestQueueSize : nat := 32.
Definition p2pMsgQueueSize : nat := 16.
Definition hpRequestQueueSize : nat := 4.

(** The four sentinel errors, [errors.New] values made on the spot, and
    the errors that come from outside: a failed serialization or a
    failed write on the connection, with a code that tells them apart. *)
Inductive error :=
| errGone
| errStateMismatch
| errPingPong
| errUnexpectedPong
| errors_New (msg : string)
| errExternal (code : Z).

(** A [*Message] as the peer sees it: the result of [msg.Bytes()]. *)
Record Message := mkMessage { Bytes : error + list Z }.

Record Version := mkVersion { StartHeight : Z }.
Record Ping := mkPing { LastBlockIndex : Z }.

(** A [*time.Timer] made by [time.AfterFunc]. *)
Inductive Timer := TimerPending | TimerFired | TimerStopped.

(** [Timer.Stop]: true when the call stops the timer, false when the
    timer has already expired or been stopped. *)
Definition Timer_Stop (t : Timer) : bool * Timer :=
  match t with
  | TimerPending => (true, TimerStopped)
  | TimerFired => (false, TimerFired)
  | TimerStopped => (false, TimerStopped)
  end.

Inductive queue := SendQ | P2PSendQ | HPSendQ.

(** The peer.  [conn_Write] is the outcome of [conn.Write] on a byte
    string; [getVersionMsg] is the server's version message; [done] is
    true once the channel is closed; [dropped] is what the first
    [Disconnect] sent to [server.unregister]; the three queues are the
    contents of the buffered channels. *)
Record TCPPeer := mkPeer {
  conn_Write : list Z -> option error;
  getVersionMsg : Message;
  version : option Version;
  lastBlockIndex : Z;
  handShake : Z;
  done : bool;
  dropped : option (option error);
  sendQ : list (list Z);
  p2pSendQ : list (list Z);
  hpSendQ : list (list Z);
  pingSent : Z;
  pingTimer : option Timer
}.

Definition NewTCPPeer (conn : list Z -> option error) (vmsg : Message) : TCPPeer :=
  mkPeer conn vmsg None 0 0 false None [] [] [] 0 None.

Definition set_handShake (p : TCPPeer) (h : Z) : TCPPeer :=
  mkPeer (conn_Write p) (getVersionMsg p) (version p) (lastBlockIndex p) h
         (done p) (dropped p) (sendQ p) (p2pSendQ p) (hpSendQ p)
         (pingSent p) (pingTimer p).

Definition set_ping (p : TCPPeer) (n : Z) (t : option Timer) : TCPPeer :=
  mkPeer (conn_Write p) (getVersionMsg p) (version p) (lastBlockIndex p)
         (handShake p) (done p) (dropped p) (sendQ p) (p2pSendQ p) (hpSendQ p)
         n t.

Definition set_lastBlockIndex (p : TCPPeer) (i : Z) : TCPPeer :=
  mkPeer (conn_Write p) (getVersionMsg p) (version p) i
         (handShake p) (done p) (dropped p) (sendQ p) (p2pSendQ p) (hpSendQ p)
         (pingSent p) (pingTimer p).

Definition get_queue (p : TCPPeer) (q : queue) : list (list Z) :=
  match q with
  | SendQ => sendQ p
  | P2PSendQ => p2pSendQ p
  | HPSendQ => hpSendQ p
  end.

Definition queue_cap (q : queue) : nat :=
  match q with
  | SendQ => requestQueueSize
  | P2PSendQ => p2pMsgQueueSize
  | HPSendQ => hpRequestQueueSize
  end.

(** [queue <- msg] once the send is chosen. *)
Definition push_queue (p : TCPPeer) (q : queue) (msg : list Z) : TCPPeer :=
  mkPeer (conn_Write p) (getVersionMsg p) (version p) (lastBlockIndex p)
         (handShake p) (done p) (dropped p)
         (match q with SendQ => sendQ p ++ [msg] | _ => sendQ p end)
         (match q with P2PSendQ => p2pSendQ p ++ [msg] | _ => p2pSendQ p end)
         (match q with HPSendQ => hpSendQ p ++ [msg] | _ => hpSendQ p end)
         (pingSent p) (pingTimer p).

(** What a call does: it returns, with the peer it leaves and its error
    value, or it blocks in a [select], with the peer as it is then. *)
Inductive outcome :=
| Returned (p : TCPPeer) (err : option error)
| Blocked (p : TCPPeer).

(** [TCPPeer.Handshaked]. *)
Definition Handshaked (p : TCPPeer) : bool :=
  (handShake p =?
   Z.lor (Z.lor (Z.lor verAckReceived verAckSent) versionReceived) versionSent)%Z.

(** [TCPPeer.putPacketIntoQueue].  The [select] has two cases: the send,
    ready when the buffer has room, and the receive on [done], ready
    once it is closed.  With both ready Go picks one at random:
    [pick_send] is that choice.  With none ready the call blocks. *)
Definition putPacketIntoQueue (p : TCPPeer) (q : queue) (msg : list Z)
    (pick_send : bool) : outcome :=
  if negb (Handshaked p) then Returned p (Some errStateMismatch)
  else
    let can_send := length (get_queue p q) <? queue_cap q in
    match can_send, done p with
    | true, true =>
        if pick_send then Returned (push_queue p q msg) None
        else Returned p (Some errGone)
    | true, false => Returned (push_queue p q msg) None
    | false, true => Returned p (Some errGone)
    | false, false => Blocked p
    end.

Definition EnqueuePacket (p : TCPPeer) (msg : list Z) (pick_send : bool) : outcome :=
  putPacketIntoQueue p SendQ msg pick_send.

(** [TCPPeer.putMsgIntoQueue]. *)
Definition putMsgIntoQueue (p : TCPPeer) (q : queue) (msg : Message)
    (pick_send : bool) : outcome :=
  match Bytes msg with
  | inl err => Returned p (Some err)
  | inr b => putPacketIntoQueue p q b pick_send
  end.

Definition EnqueueMessage (p : TCPPeer) (msg : Message) (pick_send : bool) : outcome :=
  putMsgIntoQueue p SendQ msg pick_send.

Definition EnqueueP2PPacket (p : TCPPeer) (msg : list Z) (pick_send : bool) : outcome :=
  putPacketIntoQueue p P2PSendQ msg pick_send.

Definition EnqueueP2PMessage (p : TCPPeer) (msg : Message) (pick_send : bool) : outcome :=
  putMsgIntoQueue p P2PSendQ msg pick_send.

Definition EnqueueHPPacket (p : TCPPeer) (msg : list Z) (pick_send : bool) : outcome :=
  putPacketIntoQueue p HPSendQ msg pick_send.

(** [TCPPeer.writeMsg]. *)
Definition writeMsg (p : TCPPeer) (msg : Message) : option error :=
  match Bytes msg with
  | inl err => Some err
  | inr b => conn_Write p b
  end.

(** [TCPPeer.SendVersion]. *)
Definition SendVersion (p : TCPPeer) : TCPPeer * option error :=
  let msg := getVersionMsg p in
  if negb (Z.land (handShake p) versionSent =? 0)%Z then
    (p, Some (errors_New "invalid handshake: already sent Version"%string))
  else
    let err := writeMsg p msg in
    match err with
    | None => (set_handShake p (Z.lor (handShake p) versionSent), err)
    | Some _ => (p, err)
    end.

(** [TCPPeer.HandleVersion]. *)
Definition HandleVersion (p : TCPPeer) (v : Version) : TCPPeer * option error :=
  if negb (Z.land (handShake p) versionReceived =? 0)%Z then
    (p, Some (errors_New "invalid handshake: already received Version"%string))
  else
    (mkPeer (conn_Write p) (getVersionMsg p) (Some v) (StartHeight v)
            (Z.lor (handShake p) versionReceived)
            (done p) (dropped p) (sendQ p) (p2pSendQ p) (hpSendQ p)
            (pingSent p) (pingTimer p),
     None).

(** [TCPPeer.SendVersionAck]. *)
Definition SendVersionAck (p : TCPPeer) (msg : Message) : TCPPeer * option error :=
  if (Z.land (handShake p) versionReceived =? 0)%Z then
    (p, Some (errors_New
       "invalid handshake: tried to send VersionAck, but no version received yet"%string))
  else if (Z.land (handShake p) versionSent =? 0)%Z then
    (p, Some (errors_New
       "invalid handshake: tried to send VersionAck, but didn't send Version yet"%string))
  else if negb (Z.land (handShake p) verAckSent =? 0)%Z then
    (p, Some (errors_New "invalid handshake: already sent VersionAck"%string))
  else
    let err := writeMsg p msg in
    match err with
    | None => (set_handShake p (Z.lor (handShake p) verAckSent), err)
    | Some _ => (p, err)
    end.

(** [TCPPeer.HandleVersionAck]. *)
Definition HandleVersionAck (p : TCPPeer) : TCPPeer * option error :=
  if (Z.land (handShake p) versionSent =? 0)%Z then
    (p, Some (errors_New
       "invalid handshake: received VersionAck, but no version sent yet"%string))
  else if (Z.land (handShake p) versionReceived =? 0)%Z then
    (p, Some (errors_New
       "invalid handshake: received VersionAck, but no version received yet"%string))
  else if negb (Z.land (handShake p) verAckReceived =? 0)%Z then
    (p, Some (errors_New "invalid handshake: already received VersionAck"%string))
  else
    (set_handShake p (Z.lor (handShake p) verAckReceived), None).

(** [TCPPeer.Disconnect]: the body runs once ([sync.Once]). *)
Definition Disconnect (p : TCPPeer) (err : option error) : TCPPeer :=
  match dropped p with
  | Some _ => p
  | None =>
      mkPeer (conn_Write p) (getVersionMsg p) (version p) (lastBlockIndex p)
             (handShake p) true (Some err) (sendQ p) (p2pSendQ p) (hpSendQ p)
             (pingSent p) (pingTimer p)
  end.

(** The ping timer runs out: the function given to [time.AfterFunc] is
    called, once, if the timer is still pending. *)
Definition timer_expires (p : TCPPeer) : TCPPeer :=
  match pingTimer p with
  | Some TimerPending =>
      Disconnect (set_ping p (pingSent p) (Some TimerFired)) (Some errPingPong)
  | _ => p
  end.

(** [TCPPeer.SendPing]. *)
Definition SendPing (p : TCPPeer) (msg : Message) (pick_send : bool) : outcome :=
  if negb (Handshaked p) then Returned p (Some errStateMismatch)
  else
    let p := set_ping p (add64 (pingSent p) 1)
               (match pingTimer p with
                | None => Some TimerPending
                | Some t => Some t
                end) in
    EnqueueMessage p msg pick_send.

(** [TCPPeer.HandlePong]. *)
Definition HandlePong (p : TCPPeer) (pong : Ping) : TCPPeer * option error :=
  let stopped :=
    match pingTimer p with
    | Some t => Some (Timer_Stop t)
    | None => None
    end in
  match stopped with
  | Some (false, t') => (set_ping p (pingSent p) (Some t'), Some errPingPong)
  | _ =>
      let p := set_ping p (sub64 (pingSent p) 1) None in
      if (pingSent p <? 0)%Z then (p, Some errUnexpectedPong)
      else (set_lastBlockIndex p (LastBlockIndex pong), None)
  end.

(** The events of a session, and the peer after a sequence of them on a
    fresh peer.  A call that blocks leaves the peer as it is when it
    blocks. *)
Inductive event :=
| EvSendVersion
| EvHandleVersion (v : Version)
| EvSendVersionAck (msg : Message)
| EvHandleVersionAck
| EvEnqueuePacket (q : queue) (msg : list Z) (pick_send : bool)
| EvEnqueueMessage (q : queue) (msg : Message) (pick_send : bool)
| EvSendPing (msg : Message) (pick_send : bool)
| EvHandlePong (pong : Ping)
| EvTimerExpires
| EvDisconnect (err : option error).

Definition peer_of (o : outcome) : TCPPeer :=
  match o with
  | Returned p _ => p
  | Blocked p => p
  end.

Definition apply_event (p : TCPPeer) (e : event) : TCPPeer :=
  match e with
  | EvSendVersion => (SendVersion p).1
  | EvHandleVersion v => (HandleVersion p v).1
  | EvSendVersionAck msg => (SendVersionAck p msg).1
  | EvHandleVersionAck => (HandleVersionAck p).1
  | EvEnqueuePacket q msg pick => peer_of (putPacketIntoQueue p q msg pick)
  | EvEnqueueMessage q msg pick => peer_of (putMsgIntoQueue p q msg pick)
  | EvSendPing msg pick => peer_of (SendPing p msg pick)
  | EvHandlePong pong => (HandlePong p pong).1
  | EvTimerExpires => timer_expires p
  | EvDisconnect err => Disconnect p err
  end.

Definition session (conn : list Z -> option error) (vmsg : Message)
    (evs : list event) : TCPPeer :=
  foldl apply_event (NewTCPPeer conn vmsg) evs.

(** *** The handshake *)

(** A bit of the mask is set. *)
Definition bit_set (h b : Z) : bool := negb (Z.land h b =? 0)%Z.

(** The preconditions of the four handshake methods, as the table of
    the spec gives them. *)
Definition pre_SendVersion (p : TCPPeer) : bool :=
  negb (bit_set (handShake p) versionSent).

Definition pre_HandleVersion (p : TCPPeer) : bool :=
  negb (bit_set (handShake p) versionReceived).

Definition pre_SendVersionAck (p : TCPPeer) : bool :=
  bit_set (handShake p) versionSent && bit_set (handShake p) versionReceived &&
  negb (bit_set (handShake p) verAckSent).

Definition pre_HandleVersionAck (p : TCPPeer) : bool :=
  bit_set (handShake p) versionSent && bit_set (handShake p) versionReceived &&
  negb (bit_set (handShake p) verAckReceived).

(** What a handshake method with precondition [pre] and bit [own] does:
    with the precondition unmet it fails and leaves the peer alone; with
    it met, the outcome [wr] of the write decides (a method that writes
    nothing has [wr = None]): a failed write is returned and the peer is
    left alone, otherwise the call succeeds and sets its own bit. *)
Definition handshake_method (pre : bool) (wr : option error) (own : Z)
    (p : TCPPeer) (r : TCPPeer * option error) : Prop :=
  if pre then
    match wr with
    | None => r.2 = None /\ handShake r.1 = Z.lor (handShake p) own
    | Some e => r = (p, Some e)
    end
  else r.1 = p /\ r.2 <> None.

(** The mask only ever holds the four handshake bits. *)
Definition mask_ok (p : TCPPeer) : Prop := (0 <= handShake p < 16)%Z.

Ltac mask_cases h H :=
  assert (h = 0 \/ h = 1 \/ h = 2 \/ h = 3 \/ h = 4 \/ h = 5 \/ h = 6 \/ h = 7 \/
          h = 8 \/ h = 9 \/ h = 10 \/ h = 11 \/ h = 12 \/ h = 13 \/ h = 14 \/
          h = 15)%Z as H by lia;
  repeat (destruct H as [H|H]).

Lemma mask_ok_apply_event p e : mask_ok p -> mask_ok (apply_event p e).
Proof.
  unfold mask_ok. intros Hm.
  destruct e as [|v|msg| |q msg pick|q msg pick|msg pick|pong| |err]; simpl.
  - unfold SendVersion. destruct (negb _); [exact Hm|].
    destruct (writeMsg _ _); [exact Hm|]. simpl.
    mask_cases (handShake p) H; rewrite H; vm_compute; split; congruence.
  - unfold HandleVersion. destruct (negb _); [exact Hm|]. simpl.
    mask_cases (handShake p) H; rewrite H; vm_compute; split; congruence.
  - unfold SendVersionAck.
    repeat (match goal with |- context [if ?c then _ else _] => destruct c end;
            [exact Hm|]).
    simpl. mask_cases (handShake p) H; rewrite H; vm_compute; split; congruence.
  - unfold HandleVersionAck.
    repeat (match goal with |- context [if ?c then _ else _] => destruct c end;
            [exact Hm|]).
    simpl. mask_cases (handShake p) H; rewrite H; vm_compute; split; congruence.
  - unfold putPacketIntoQueue. destruct (negb _); [exact Hm|].
    destruct (_ <? _), (done p), pick; simpl; destruct q; exact Hm.
  - unfold putMsgIntoQueue. destruct (Bytes msg); [exact Hm|].
    unfold putPacketIntoQueue. destruct (negb _); [exact Hm|].
    destruct (_ <? _), (done p), pick; simpl; destruct q; exact Hm.
  - unfold SendPing. destruct (negb _); [exact Hm|].
    unfold EnqueueMessage, putMsgIntoQueue. destruct (Bytes msg); [exact Hm|].
    unfold putPacketIntoQueue. destruct (negb _); [exact Hm|].
    simpl. destruct (_ <? _), (done p), pick; simpl; exact Hm.
  - unfold HandlePong.
    destruct (pingTimer p) as [[| |]|]; simpl; try exact Hm;
      destruct (_ <? _)%Z; exact Hm.
  - unfold timer_expires, Disconnect.
    destruct (pingTimer p) as [[| |]|]; simpl; try exact Hm.
    destruct (dropped p); exact Hm.
  - unfold Disconnect. destruct (dropped p); exact Hm.
Qed.

Lemma mask_ok_session conn vmsg evs : mask_ok (session conn vmsg evs).
Proof.
  unfold session.
  assert (H0 : mask_ok (NewTCPPeer conn vmsg)) by (unfold mask_ok; simpl; lia).
  revert H0. generalize (NewTCPPeer conn vmsg).
  induction evs as [|e evs IH]; intros p Hp; simpl; [exact Hp|].
  apply IH, mask_ok_apply_event, Hp.
Qed.

Lemma handshake_methods p v msg :
  mask_ok p ->
  handshake_method (pre_SendVersion p) (writeMsg p (getVersionMsg p))
                   versionSent p (SendVersion p) /\
  handshake_method (pre_HandleVersion p) None
                   versionReceived p (HandleVersion p v) /\
  handshake_method (pre_SendVersionAck p) (writeMsg p msg)
                   verAckSent p (SendVersionAck p msg) /\
  handshake_method (pre_HandleVersionAck p) None
                   verAckReceived p (HandleVersionAck p) /\
  (Handshaked p = true <->
   bit_set (handShake p) versionSent = true /\
   bit_set (handShake p) versionReceived = true /\
   bit_set (handShake p) verAckSent = true /\
   bit_set (handShake p) verAckReceived = true).
Proof.
  unfold mask_ok. intros Hm.
  unfold handshake_method, pre_SendVersion, pre_HandleVersion,
    pre_SendVersionAck, pre_HandleVersionAck, SendVersion, HandleVersion,
    SendVersionAck, HandleVersionAck, Handshaked, bit_set.
  destruct (writeMsg p (getVersionMsg p)) as [e1|];
  destruct (writeMsg p msg) as [e2|];
  mask_cases (handShake p) H; rewrite H;
  cbv [versionSent versionReceived verAckSent verAckReceived];
  simpl; repeat split; auto; try discriminate; try (intros; discriminate);
  try (intros (? & ? & ? & ?); discriminate).
Qed.

(** C5, as the code has it.  In every state of a session, a handshake
    method whose precondition is unmet returns an error and leaves the
    peer unchanged; with the precondition met, [HandleVersion] and
    [HandleVersionAck] succeed and set exactly their own bit, and
    [SendVersion] and [SendVersionAck] return the outcome of writing the
    message: on a failed write the bits are unchanged, otherwise exactly
    the method's own bit is set; and [Handshaked] is true exactly when
    all four bits are set. *)
Theorem C5_handshake_state_machine
    (conn : list Z -> option error) (vmsg : Message) (evs : list event)
    (v : Version) (msg : Message) :
  handshake_method (pre_SendVersion (session conn vmsg evs))
    (writeMsg (session conn vmsg evs) (getVersionMsg (session conn vmsg evs)))
    versionSent (session conn vmsg evs) (SendVersion (session conn vmsg evs)) /\
  handshake_method (pre_HandleVersion (session conn vmsg evs)) None
    versionReceived (session conn vmsg evs) (HandleVersion (session conn vmsg evs) v) /\
  handshake_method (pre_SendVersionAck (session conn vmsg evs))
    (writeMsg (session conn vmsg evs) msg)
    verAckSent (session conn vmsg evs) (SendVersionAck (session conn vmsg evs) msg) /\
  handshake_method (pre_HandleVersionAck (session conn vmsg evs)) None
    verAckReceived (session conn vmsg evs) (HandleVersionAck (session conn vmsg evs)) /\
  (Handshaked (session conn vmsg evs) = true <->
   bit_set (handShake (session conn vmsg evs)) versionSent = true /\
   bit_set (handShake (session conn vmsg evs)) versionReceived = true /\
   bit_set (handShake (session conn vmsg evs)) verAckSent = true /\
   bit_set (handShake (session conn vmsg evs)) verAckReceived = true).
Proof.
  apply handshake_methods, mask_ok_session.
Qed.

(** C5 as stated fails: on a fresh peer the precondition of
    [SendVersion] is met, yet the call returns an error when the write
    on the connection fails. *)
Lemma C5_counterexample_write_fails :
  let p := NewTCPPeer (fun _ => Some (errExternal 1)) (mkMessage (inr [])) in
  pre_SendVersion p = true /\
  (SendVersion p).2 = Some (errExternal 1) /\
  ~ ((SendVersion p).2 <> None <-> pre_SendVersion p = false).
Proof.
  vm_compute. split; [reflexivity|]. split; [reflexivity|].
  intros [H _]. assert (E : true = false) by (apply H; discriminate).
  discriminate.
Qed.

(** *** Keepalive *)

(** The armed ping timer of [p] fails to stop. *)
Definition stop_fails (p : TCPPeer) : Prop :=
  exists t, pingTimer p = Some t /\ (Timer_Stop t).1 = false.

(** In a session [done] is closed once the peer is dropped, the peer
    never keeps a stopped timer, and a fired timer means that the
    session is done. *)
Definition timer_ok (p : TCPPeer) : Prop :=
  (dropped p <> None -> done p = true) /\
  match pingTimer p with
  | None | Some TimerPending => True
  | Some TimerFired => done p = true /\ dropped p <> None
  | Some TimerStopped => False
  end.

(** [p'] has the [done] signal, the drop record and the timer of [p]. *)
Definition same_keepalive (p p' : TCPPeer) : Prop :=
  done p' = done p /\ dropped p' = dropped p /\ pingTimer p' = pingTimer p.

Ltac split_ifs :=
  repeat match goal with
         | |- context [if ?c then _ else _] => destruct c eqn:?
         end.

Lemma timer_ok_same p p' : same_keepalive p p' -> timer_ok p -> timer_ok p'.
Proof.
  unfold same_keepalive, timer_ok. intros (-> & -> & ->). auto.
Qed.

Lemma putPacketIntoQueue_same p q msg pick :
  same_keepalive p (peer_of (putPacketIntoQueue p q msg pick)).
Proof.
  unfold putPacketIntoQueue, same_keepalive.
  split_ifs; simpl; repeat split; congruence.
Qed.

Lemma putMsgIntoQueue_same p q msg pick :
  same_keepalive p (peer_of (putMsgIntoQueue p q msg pick)).
Proof.
  unfold putMsgIntoQueue. destruct (Bytes msg).
  - unfold same_keepalive; simpl; auto.
  - apply putPacketIntoQueue_same.
Qed.

Lemma handshake_same p v msg :
  same_keepalive p (SendVersion p).1 /\
  same_keepalive p (HandleVersion p v).1 /\
  same_keepalive p (SendVersionAck p msg).1 /\
  same_keepalive p (HandleVersionAck p).1.
Proof.
  unfold same_keepalive, SendVersion, HandleVersion, SendVersionAck,
    HandleVersionAck.
  repeat split; split_ifs; simpl; congruence.
Qed.

Lemma HandlePong_cases p pong :
  (stop_fails p /\ HandlePong p pong = (p, Some errPingPong)) \/
  (~ stop_fails p /\
   pingSent (HandlePong p pong).1 = sub64 (pingSent p) 1 /\
   pingTimer (HandlePong p pong).1 = None /\
   (((sub64 (pingSent p) 1 < 0)%Z /\ (HandlePong p pong).2 = Some errUnexpectedPong) \/
    ((0 <= sub64 (pingSent p) 1)%Z /\ (HandlePong p pong).2 = None))).
Proof.
  unfold HandlePong, stop_fails.
  destruct p as [cw gv ver lbi hs dn dr sq pq hq ps pt]; simpl.
  destruct pt as [[| |]|]; simpl.
  - right. split; [intros (t & E & Hs); inversion E; subst; discriminate|].
    destruct (Z.ltb_spec (sub64 ps 1) 0); simpl; auto.
  - left. split; [eexists; split; reflexivity | reflexivity].
  - left. split; [eexists; split; reflexivity | reflexivity].
  - right. split; [intros (t & E & Hs); discriminate|].
    destruct (Z.ltb_spec (sub64 ps 1) 0); simpl; auto.
Qed.

Lemma HandlePong_done p pong :
  done (HandlePong p pong).1 = done p /\
  dropped (HandlePong p pong).1 = dropped p.
Proof.
  unfold HandlePong.
  destruct p as [cw gv ver lbi hs dn dr sq pq hq ps pt]; simpl.
  destruct pt as [[| |]|]; simpl; auto; destruct (_ <? _)%Z; simpl; auto.
Qed.

Lemma timer_ok_apply_event p e : timer_ok p -> timer_ok (apply_event p e).
Proof.
  intros Hok.
  destruct e as [|v|msg| |q msg pick|q msg pick|msg pick|pong| |err]; simpl.
  - eapply timer_ok_same; [apply (handshake_same p (mkVersion 0) (mkMessage (inr [])))|exact Hok].
  - eapply timer_ok_same; [apply (handshake_same p v (mkMessage (inr [])))|exact Hok].
  - eapply timer_ok_same; [apply (handshake_same p (mkVersion 0) msg)|exact Hok].
  - eapply timer_ok_same; [apply (handshake_same p (mkVersion 0) (mkMessage (inr [])))|exact Hok].
  - eapply timer_ok_same; [apply putPacketIntoQueue_same|exact Hok].
  - eapply timer_ok_same; [apply putMsgIntoQueue_same|exact Hok].
  - unfold SendPing. destruct (negb (Handshaked p)); [exact Hok|].
    eapply timer_ok_same; [apply putMsgIntoQueue_same|].
    destruct Hok as [Hd Ht]. unfold timer_ok. simpl. split; [exact Hd|].
    destruct (pingTimer p) as [[| |]|]; auto.
  - destruct (HandlePong_cases p pong) as [[_ ->]|(_ & _ & Hpt & _)]; [exact Hok|].
    destruct (HandlePong_done p pong) as [Hdn Hdr].
    destruct Hok as [Hd _]. unfold timer_ok.
    rewrite Hpt, Hdn, Hdr. split; [exact Hd | exact I].
  - destruct Hok as [Hd Ht]. unfold timer_expires, Disconnect, timer_ok in *.
    destruct (pingTimer p) as [[| |]|] eqn:Et; simpl; rewrite ?Et; auto.
    destruct (dropped p) eqn:Ed; simpl; rewrite ?Ed.
    + split; [exact Hd|]. split; [apply Hd|]; congruence.
    + split; [reflexivity|]. split; [reflexivity | congruence].
  - destruct Hok as [Hd Ht]. unfold Disconnect, timer_ok in *.
    destruct (dropped p) eqn:Ed; simpl; rewrite ?Ed; auto.
    split; [reflexivity|].
    destruct (pingTimer p) as [[| |]|]; auto.
Qed.

Lemma timer_ok_session conn vmsg evs : timer_ok (session conn vmsg evs).
Proof.
  unfold session.
  assert (H0 : timer_ok (NewTCPPeer conn vmsg))
    by (unfold timer_ok; simpl; split; [congruence | exact I]).
  revert H0. generalize (NewTCPPeer conn vmsg).
  induction evs as [|e evs IH]; intros p Hp; simpl; [exact Hp|].
  apply IH, timer_ok_apply_event, Hp.
Qed.

(** C6. [HandlePong] returns [errPingPong] exactly when an armed ping
    timer fails to stop, and then changes nothing; in a session such a
    timer has fired, its callback being [Disconnect(errPingPong)], and
    the session is done.  Otherwise [HandlePong] clears the timer and
    decrements the counter, and returns [errUnexpectedPong] exactly when
    the counter is then negative, and no error otherwise. *)
Theorem C6_HandlePong
    (conn : list Z -> option error) (vmsg : Message) (evs : list event)
    (pong : Ping) :
  ((HandlePong (session conn vmsg evs) pong).2 = Some errPingPong <->
   stop_fails (session conn vmsg evs)) /\
  (stop_fails (session conn vmsg evs) ->
   (HandlePong (session conn vmsg evs) pong).1 = session conn vmsg evs /\
   pingTimer (session conn vmsg evs) = Some TimerFired /\
   done (session conn vmsg evs) = true) /\
  (~ stop_fails (session conn vmsg evs) ->
   pingSent (HandlePong (session conn vmsg evs) pong).1 =
     sub64 (pingSent (session conn vmsg evs)) 1 /\
   pingTimer (HandlePong (session conn vmsg evs) pong).1 = None /\
   ((HandlePong (session conn vmsg evs) pong).2 = Some errUnexpectedPong <->
    (pingSent (HandlePong (session conn vmsg evs) pong).1 < 0)%Z) /\
   ((HandlePong (session conn vmsg evs) pong).2 = None <->
    (0 <= pingSent (HandlePong (session conn vmsg evs) pong).1)%Z)) /\
  (forall p, pingTimer p = Some TimerPending ->
   timer_expires p =
   Disconnect (set_ping p (pingSent p) (Some TimerFired)) (Some errPingPong)).
Proof.
  pose proof (timer_ok_session conn vmsg evs) as [_ Hok].
  generalize dependent (session conn vmsg evs). intros p Hok.
  pose proof (HandlePong_cases p pong) as Hc.
  split; [|split; [|split]].
  - destruct Hc as [[Hf ->]|(Hnf & _ & _ & [[_ ->]|[_ ->]])]; simpl;
      split; auto; try discriminate; contradiction.
  - intros Hf. destruct Hc as [[_ ->]|[Hnf _]]; [|contradiction]. simpl.
    split; [reflexivity|].
    destruct Hf as (t & Et & Hs). rewrite Et in Hok |- *.
    destruct t; simpl in *; try discriminate; try contradiction.
    split; [reflexivity | apply Hok].
  - intros Hnf. destruct Hc as [[Hf _]|(_ & Hps & Hpt & Herr)]; [contradiction|].
    rewrite Hps. split; [reflexivity|]. split; [exact Hpt|].
    destruct Herr as [[Hlt ->]|[Hge ->]]; split; split; intros;
      try discriminate; try lia; reflexivity.
  - intros q Hq. unfold timer_expires. rewrite Hq. reflexivity.
Qed.

Lemma C6_HandlePong_witness :
  (HandlePong (session (fun _ => None) (mkMessage (inr []))
                 [EvDisconnect None]) (mkPing 0)).2 = Some errUnexpectedPong.
Proof.
  apply (C6_HandlePong (fun _ => None) (mkMessage (inr [])) [EvDisconnect None]
           (mkPing 0)).
  - intros (t & Et & _). vm_compute in Et. discriminate.
  - vm_compute. reflexivity.
Defined.

(** *** The outbound queues *)

(** [p'] has the three send queues of [p]. *)
Definition same_queues (p p' : TCPPeer) : Prop :=
  sendQ p' = sendQ p /\ p2pSendQ p' = p2pSendQ p /\ hpSendQ p' = hpSendQ p.

(** [p'] is [p] with [msg] at the back of queue [q], the other two
    queues as they were. *)
Definition enqueued (p : TCPPeer) (q : queue) (msg : list Z) (p' : TCPPeer) : Prop :=
  get_queue p' q = get_queue p q ++ [msg] /\
  forall q', q' <> q -> get_queue p' q' = get_queue p q'.

(** What a call on queue [q] with the packet [b] does to a peer that
    has not completed the handshake, and to one that has. *)
Definition packet_outcome (p : TCPPeer) (q : queue) (b : list Z) (o : outcome) : Prop :=
  if Handshaked p then
    (exists p', o = Returned p' None /\ enqueued p q b p' /\
                length (get_queue p q) < queue_cap q) \/
    (o = Returned p (Some errGone) /\ done p = true) \/
    (o = Blocked p /\ done p = false /\ queue_cap q <= length (get_queue p q))
  else o = Returned p (Some errStateMismatch).

Definition message_outcome (p : TCPPeer) (q : queue) (msg : Message) (o : outcome) : Prop :=
  match Bytes msg with
  | inl err => o = Returned p (Some err)
  | inr b => packet_outcome p q b o
  end.

Lemma putPacketIntoQueue_outcome p q b pick :
  packet_outcome p q b (putPacketIntoQueue p q b pick).
Proof.
  unfold packet_outcome, putPacketIntoQueue.
  destruct (Handshaked p); simpl; [|reflexivity].
  assert (He : enqueued p q b (push_queue p q b)).
  { split; [destruct q; reflexivity|].
    intros q' Hne. destruct q, q'; try reflexivity; contradiction. }
  destruct (Nat.ltb_spec (length (get_queue p q)) (queue_cap q)) as [Hroom|Hfull];
    destruct (done p) eqn:Ed; try destruct pick; eauto 10.
Qed.

(** C10, as the code has it.  [EnqueuePacket], [EnqueueP2PPacket] and
    [EnqueueHPPacket] fail with [errStateMismatch], the peer unchanged,
    while the handshake is not complete; once it is, the call appends
    the packet to its own queue when the queue has room, fails with
    [errGone] only when [done] is closed, and blocks when the queue is
    full and [done] is open.  [EnqueueMessage] and [EnqueueP2PMessage]
    serialize the message first: a failed serialization is returned
    whatever the handshake state, the peer unchanged; otherwise they
    behave as the packet forms on the serialized bytes. *)
Theorem C10_enqueue_operations
    (p : TCPPeer) (b : list Z) (msg : Message) (pick : bool) :
  packet_outcome p SendQ b (EnqueuePacket p b pick) /\
  packet_outcome p P2PSendQ b (EnqueueP2PPacket p b pick) /\
  packet_outcome p HPSendQ b (EnqueueHPPacket p b pick) /\
  message_outcome p SendQ msg (EnqueueMessage p msg pick) /\
  message_outcome p P2PSendQ msg (EnqueueP2PMessage p msg pick) /\
  (Handshaked p = false ->
   forall q, same_queues p (peer_of (putPacketIntoQueue p q b pick)) /\
             same_queues p (peer_of (putMsgIntoQueue p q msg pick))).
Proof.
  unfold EnqueuePacket, EnqueueP2PPacket, EnqueueHPPacket, EnqueueMessage,
    EnqueueP2PMessage, message_outcome, putMsgIntoQueue.
  split; [apply putPacketIntoQueue_outcome|].
  split; [apply putPacketIntoQueue_outcome|].
  split; [apply putPacketIntoQueue_outcome|].
  split; [destruct (Bytes msg); [reflexivity | apply putPacketIntoQueue_outcome]|].
  split; [destruct (Bytes msg); [reflexivity | apply putPacketIntoQueue_outcome]|].
  intros Hh q. unfold putMsgIntoQueue, putPacketIntoQueue. rewrite Hh. simpl.
  destruct (Bytes msg); unfold same_queues; simpl; auto.
Qed.

Lemma C10_enqueue_operations_witness :
  same_queues (NewTCPPeer (fun _ => None) (mkMessage (inr [])))
    (peer_of (putPacketIntoQueue (NewTCPPeer (fun _ => None) (mkMessage (inr [])))
                HPSendQ [1%Z] true)).
Proof.
  apply (C10_enqueue_operations (NewTCPPeer (fun _ => None) (mkMessage (inr [])))
           [1%Z] (mkMessage (inr [2%Z])) true).
  vm_compute. reflexivity.
Defined.

(** C10 as stated fails: on a peer that has not completed the handshake
    [EnqueueMessage] of a message that does not serialize returns the
    serialization error, not [errStateMismatch]. *)
Lemma C10_counterexample_serialization_error :
  let p := NewTCPPeer (fun _ => None) (mkMessage (inr [])) in
  let msg := mkMessage (inl (errExternal 7)) in
  Handshaked p = false /\
  EnqueueMessage p msg true = Returned p (Some (errExternal 7)) /\
  EnqueueMessage p msg true <> Returned p (Some errStateMismatch) /\
  EnqueueP2PMessage p msg true <> Returned p (Some errStateMismatch).
Proof.
  vm_compute. repeat split; try reflexivity; intros E; discriminate.
Qed.

(** *** Progress of the handshake *)

Lemma bit_set_lor h x b : bit_set h b = true -> bit_set (Z.lor h x) b = true.
Proof.
  unfold bit_set. rewrite !negb_true_iff, !Z.eqb_neq, Z.land_lor_distr_l,
    Z.lor_eq_0_iff. tauto.
Qed.

(** An event changes the mask only by setting one of the four bits, and
    only [HandleVersion] changes the recorded version, setting it along
    with its bit. *)
Lemma handShake_apply_event p e :
  (handShake (apply_event p e) = handShake p /\
   version (apply_event p e) = version p) \/
  (e = EvSendVersion /\ pre_SendVersion p = true /\
   handShake (apply_event p e) = Z.lor (handShake p) versionSent /\
   version (apply_event p e) = version p) \/
  ((exists v, e = EvHandleVersion v /\ version (apply_event p e) = Some v) /\
   pre_HandleVersion p = true /\
   handShake (apply_event p e) = Z.lor (handShake p) versionReceived) \/
  ((exists msg, e = EvSendVersionAck msg) /\ pre_SendVersionAck p = true /\
   handShake (apply_event p e) = Z.lor (handShake p) verAckSent /\
   version (apply_event p e) = version p) \/
  (e = EvHandleVersionAck /\ pre_HandleVersionAck p = true /\
   handShake (apply_event p e) = Z.lor (handShake p) verAckReceived /\
   version (apply_event p e) = version p).
Proof.
  destruct e as [|v|msg| |q msg pick|q msg pick|msg pick|pong| |err]; simpl.
  - unfold SendVersion, pre_SendVersion, bit_set.
    destruct (negb _) eqn:E; [left; auto|].
    destruct (writeMsg _ _); [left; auto|]. right; left. simpl. auto.
  - unfold HandleVersion, pre_HandleVersion, bit_set.
    destruct (negb _) eqn:E; [left; auto|]. right; right; left. simpl. eauto.
  - unfold SendVersionAck, pre_SendVersionAck, bit_set.
    destruct (_ =? _)%Z eqn:E1; [left; auto|].
    destruct (Z.land (handShake p) versionSent =? 0)%Z eqn:E2; [left; auto|].
    destruct (negb _) eqn:E3; [left; auto|].
    destruct (writeMsg _ _); [left; auto|]. right; right; right; left. simpl. eauto.
  - unfold HandleVersionAck, pre_HandleVersionAck, bit_set.
    destruct (_ =? _)%Z eqn:E1; [left; auto|].
    destruct (Z.land (handShake p) versionReceived =? 0)%Z eqn:E2; [left; auto|].
    destruct (negb _) eqn:E3; [left; auto|].
    right; right; right; right. simpl. auto.
  - left. unfold putPacketIntoQueue. split_ifs; simpl; auto.
  - left. unfold putMsgIntoQueue, putPacketIntoQueue.
    destruct (Bytes msg); split_ifs; simpl; auto.
  - left. unfold SendPing, EnqueueMessage, putMsgIntoQueue, putPacketIntoQueue.
    destruct (Bytes msg); split_ifs; simpl; auto.
  - left. unfold HandlePong. destruct (pingTimer p) as [[| |]|]; simpl; auto;
      destruct (_ <? _)%Z; simpl; auto.
  - left. unfold timer_expires, Disconnect.
    destruct (pingTimer p) as [[| |]|]; simpl; auto. destruct (dropped p); auto.
  - left. unfold Disconnect. destruct (dropped p); auto.
Qed.

Lemma bit_kept p e b :
  bit_set (handShake p) b = true -> bit_set (handShake (apply_event p e)) b = true.
Proof.
  intros Hb.
  destruct (handShake_apply_event p e)
    as [[-> _]|[(_ & _ & -> & _)|[(_ & _ & ->)|[(_ & _ & -> & _)|(_ & _ & -> & _)]]]];
    auto using bit_set_lor.
Qed.

Lemma bits_kept evs : forall p b,
  bit_set (handShake p) b = true ->
  bit_set (handShake (foldl apply_event p evs)) b = true.
Proof.
  induction evs as [|e evs IH]; intros p b Hb; simpl; [exact Hb|].
  apply IH, bit_kept, Hb.
Qed.

Lemma mask_ok_events evs : forall p, mask_ok p -> mask_ok (foldl apply_event p evs).
Proof.
  induction evs as [|e evs IH]; intros p Hp; simpl; [exact Hp|].
  apply IH, mask_ok_apply_event, Hp.
Qed.

(** X13. Whatever happens to a peer afterwards, a bit of the handshake
    mask that is set stays set; so a peer that has completed the
    handshake stays handshaked, and each of the four handshake methods
    then fails and leaves it as it is. *)
Theorem handshake_progress_is_kept
    (p : TCPPeer) (evs : list event) (v : Version) (msg : Message) :
  (forall b, bit_set (handShake p) b = true ->
             bit_set (handShake (foldl apply_event p evs)) b = true) /\
  (Handshaked p = true ->
   Handshaked (foldl apply_event p evs) = true /\
   (SendVersion (foldl apply_event p evs)).1 = foldl apply_event p evs /\
   (SendVersion (foldl apply_event p evs)).2 <> None /\
   (HandleVersion (foldl apply_event p evs) v).1 = foldl apply_event p evs /\
   (HandleVersion (foldl apply_event p evs) v).2 <> None /\
   (SendVersionAck (foldl apply_event p evs) msg).1 = foldl apply_event p evs /\
   (SendVersionAck (foldl apply_event p evs) msg).2 <> None /\
   (HandleVersionAck (foldl apply_event p evs)).1 = foldl apply_event p evs /\
   (HandleVersionAck (foldl apply_event p evs)).2 <> None).
Proof.
  split; [intros b; apply bits_kept|].
  intros Hh.
  assert (E : handShake p = 15%Z) by (apply Z.eqb_eq in Hh; exact Hh).
  assert (Hm : mask_ok (foldl apply_event p evs))
    by (apply mask_ok_events; unfold mask_ok; lia).
  pose proof (bits_kept evs p versionSent) as B1.
  pose proof (bits_kept evs p versionReceived) as B2.
  pose proof (bits_kept evs p verAckSent) as B3.
  pose proof (bits_kept evs p verAckReceived) as B4.
  rewrite E in B1, B2, B3, B4.
  specialize (B1 eq_refl). specialize (B2 eq_refl).
  specialize (B3 eq_refl). specialize (B4 eq_refl).
  pose proof (handshake_methods _ v msg Hm) as (M1 & M2 & M3 & M4 & M5).
  unfold handshake_method, pre_SendVersion, pre_HandleVersion,
    pre_SendVersionAck, pre_HandleVersionAck in M1, M2, M3, M4.
  rewrite B1 in M1. rewrite B2 in M2. rewrite B1, B2, B3 in M3.
  rewrite B1, B2, B4 in M4. simpl in M1, M2, M3, M4.
  split; [apply M5; auto|]. tauto.
Qed.

Lemma handshake_progress_is_kept_witness :
  Handshaked
    (foldl apply_event
       (session (fun _ => None) (mkMessage (inr []))
          [EvSendVersion; EvHandleVersion (mkVersion 7);
           EvSendVersionAck (mkMessage (inr [])); EvHandleVersionAck])
       [EvSendVersion; EvDisconnect None]) = true.
Proof.
  apply (handshake_progress_is_kept
           (session (fun _ => None) (mkMessage (inr []))
              [EvSendVersion; EvHandleVersion (mkVersion 7);
               EvSendVersionAck (mkMessage (inr [])); EvHandleVersionAck])
           [EvSendVersion; EvDisconnect None] (mkVersion 0) (mkMessage (inr []))).
  vm_compute. reflexivity.
Defined.

(** In a session the acknowledgements come after the versions, and the
    version is recorded exactly when it has been received. *)
Definition handshake_ordered (p : TCPPeer) : Prop :=
  mask_ok p /\
  (bit_set (handShake p) verAckSent = true ->
   bit_set (handShake p) versionSent = true /\
   bit_set (handShake p) versionReceived = true) /\
  (bit_set (handShake p) verAckReceived = true ->
   bit_set (handShake p) versionSent = true /\
   bit_set (handShake p) versionReceived = true) /\
  (bit_set (handShake p) versionReceived = true <-> version p <> None).

Lemma handshake_ordered_apply_event p e :
  handshake_ordered p -> handshake_ordered (apply_event p e).
Proof.
  intros (Hm & H1 & H2 & H3).
  pose proof (mask_ok_apply_event p e Hm) as Hm'.
  split; [exact Hm'|].
  unfold mask_ok in Hm.
  destruct (handShake_apply_event p e)
    as [[-> ->]|[(_ & Hp & -> & ->)|[((v & _ & ->) & Hp & ->)
       |[(_ & Hp & -> & ->)|(_ & Hp & -> & ->)]]]];
    [tauto| | | |];
    unfold pre_SendVersion, pre_HandleVersion, pre_SendVersionAck,
      pre_HandleVersionAck in Hp;
    revert H1 H2 H3 Hp; mask_cases (handShake p) H; rewrite H;
    vm_compute; intuition congruence.
Qed.

Lemma handshake_ordered_session conn vmsg evs :
  handshake_ordered (session conn vmsg evs).
Proof.
  unfold session.
  assert (H0 : handshake_ordered (NewTCPPeer conn vmsg)).
  { unfold handshake_ordered, mask_ok. vm_compute. intuition congruence. }
  revert H0. generalize (NewTCPPeer conn vmsg).
  induction evs as [|e evs IH]; intros p Hp; simpl; [exact Hp|].
  apply IH, handshake_ordered_apply_event, Hp.
Qed.

(** X14. In every state of a session an acknowledgement bit is set only
    when both version bits are: no VersionAck is sent or accepted before
    the two Version messages have passed.  The peer's version is
    recorded exactly when the received bit is set, and the handshake is
    complete exactly when both acknowledgement bits are set. *)
Theorem acks_follow_versions
    (conn : list Z -> option error) (vmsg : Message) (evs : list event) :
  (bit_set (handShake (session conn vmsg evs)) verAckSent = true \/
   bit_set (handShake (session conn vmsg evs)) verAckReceived = true ->
   bit_set (handShake (session conn vmsg evs)) versionSent = true /\
   bit_set (handShake (session conn vmsg evs)) versionReceived = true) /\
  (bit_set (handShake (session conn vmsg evs)) versionReceived = true <->
   version (session conn vmsg evs) <> None) /\
  (Handshaked (session conn vmsg evs) = true <->
   bit_set (handShake (session conn vmsg evs)) verAckSent = true /\
   bit_set (handShake (session conn vmsg evs)) verAckReceived = true).
Proof.
  pose proof (handshake_ordered_session conn vmsg evs) as (Hm & H1 & H2 & H3).
  pose proof (handshake_methods _ (mkVersion 0) (mkMessage (inr [])) Hm)
    as (_ & _ & _ & _ & M5).
  split; [tauto|]. split; [exact H3|]. tauto.
Qed.

Lemma acks_follow_versions_witness :
  bit_set (handShake (session (fun _ => None) (mkMessage (inr []))
                        [EvSendVersion; EvHandleVersion (mkVersion 7);
                         EvSendVersionAck (mkMessage (inr []))]))
          versionSent = true /\
  bit_set (handShake (session (fun _ => None) (mkMessage (inr []))
                        [EvSendVersion; EvHandleVersion (mkVersion 7);
                         EvSendVersionAck (mkMessage (inr []))]))
          versionReceived = true.
Proof.
  apply (acks_follow_versions (fun _ => None) (mkMessage (inr []))
           [EvSendVersion; EvHandleVersion (mkVersion 7);
            EvSendVersionAck (mkMessage (inr []))]).
  left. vm_compute. reflexivity.
Defined.

(** *** Disconnecting *)

Lemma keepalive_apply_event p e :
  same_keepalive p (apply_event p e) \/
  (exists msg pick, e = EvSendPing msg pick) \/
  (exists pong, e = EvHandlePong pong) \/
  e = EvTimerExpires \/ (exists err, e = EvDisconnect err).
Proof.
  destruct e as [|v|msg| |q msg pick|q msg pick|msg pick|pong| |err]; simpl; eauto 6.
  - left. apply (handshake_same p (mkVersion 0) (mkMessage (inr []))).
  - left. apply (handshake_same p v (mkMessage (inr []))).
  - left. apply (handshake_same p (mkVersion 0) msg).
  - left. apply (handshake_same p (mkVersion 0) (mkMessage (inr []))).
  - left. apply putPacketIntoQueue_same.
  - left. apply putMsgIntoQueue_same.
Qed.

Lemma SendPing_done p msg pick :
  done (peer_of (SendPing p msg pick)) = done p /\
  dropped (peer_of (SendPing p msg pick)) = dropped p.
Proof.
  unfold SendPing. destruct (negb (Handshaked p)); [auto|].
  match goal with |- context [EnqueueMessage ?q _ _] =>
    destruct (putMsgIntoQueue_same q SendQ msg pick) as (E1 & E2 & _) end.
  unfold EnqueueMessage. rewrite E1, E2. auto.
Qed.

Lemma dropped_apply_event p e r :
  dropped p = Some r ->
  dropped (apply_event p e) = Some r /\ done (apply_event p e) = done p.
Proof.
  intros Hd.
  destruct (keepalive_apply_event p e)
    as [(E1 & E2 & _)|[(msg & pick & ->)|[(pong & ->)|[->|(err & ->)]]]]; simpl.
  - rewrite E1, E2. auto.
  - destruct (SendPing_done p msg pick) as [-> ->]. auto.
  - destruct (HandlePong_done p pong) as [-> ->]. auto.
  - unfold timer_expires, Disconnect.
    destruct (pingTimer p) as [[| |]|]; simpl; rewrite ?Hd; auto.
  - unfold Disconnect. rewrite Hd. auto.
Qed.

Lemma dropped_events evs : forall p r,
  dropped p = Some r ->
  dropped (foldl apply_event p evs) = Some r /\
  done (foldl apply_event p evs) = done p.
Proof.
  induction evs as [|e evs IH]; intros p r Hd; simpl; [auto|].
  destruct (dropped_apply_event p e r Hd) as [Hd' Hdn].
  destruct (IH _ r Hd') as [H1 H2]. split; [exact H1|]. congruence.
Qed.

(** X15. [Disconnect] takes effect once.  The first call closes [done]
    and reports its error to the server; whatever happens afterwards,
    further calls of [Disconnect] and an expiring ping timer included,
    the reported error stays that of the first call and [done] stays
    closed. *)
Theorem first_Disconnect_wins
    (p : TCPPeer) (err : option error) (evs : list event) :
  dropped p = None ->
  done (foldl apply_event (Disconnect p err) evs) = true /\
  dropped (foldl apply_event (Disconnect p err) evs) = Some err.
Proof.
  intros Hn.
  assert (Hd : dropped (Disconnect p err) = Some err)
    by (unfold Disconnect; rewrite Hn; reflexivity).
  assert (Hdn : done (Disconnect p err) = true)
    by (unfold Disconnect; rewrite Hn; reflexivity).
  destruct (dropped_events evs _ _ Hd) as [H1 H2]. split; congruence.
Qed.

Lemma first_Disconnect_wins_witness :
  done (foldl apply_event
          (Disconnect (NewTCPPeer (fun _ => None) (mkMessage (inr [])))
             (Some errGone))
          [EvDisconnect None; EvTimerExpires]) = true /\
  dropped (foldl apply_event
             (Disconnect (NewTCPPeer (fun _ => None) (mkMessage (inr [])))
                (Some errGone))
             [EvDisconnect None; EvTimerExpires]) = Some (Some errGone).
Proof.
  apply (first_Disconnect_wins (NewTCPPeer (fun _ => None) (mkMessage (inr [])))
           (Some errGone) [EvDisconnect None; EvTimerExpires]).
  reflexivity.
Defined.

(** *** Pings *)

Lemma fired_apply_event p e :
  pingTimer p = Some TimerFired -> pingTimer (apply_event p e) = Some TimerFired.
Proof.
  intros Hf.
  destruct (keepalive_apply_event p e)
    as [(_ & _ & E)|[(msg & pick & ->)|[(pong & ->)|[->|(err & ->)]]]]; simpl.
  - congruence.
  - unfold SendPing. destruct (negb (Handshaked p)); [exact Hf|].
    match goal with |- context [EnqueueMessage ?q _ _] =>
      destruct (putMsgIntoQueue_same q SendQ msg pick) as (_ & _ & E) end.
    unfold EnqueueMessage. rewrite E. simpl. rewrite Hf. reflexivity.
  - unfold HandlePong. rewrite Hf. reflexivity.
  - unfold timer_expires. rewrite Hf. exact Hf.
  - unfold Disconnect. destruct (dropped p); exact Hf.
Qed.

Lemma fired_events evs : forall p,
  pingTimer p = Some TimerFired ->
  pingTimer (foldl apply_event p evs) = Some TimerFired.
Proof.
  induction evs as [|e evs IH]; intros p Hf; simpl; [exact Hf|].
  apply IH, fired_apply_event, Hf.
Qed.

(** X16. A ping timeout is final.  When the pending ping timer of a
    peer that is not yet dropped runs out, the peer is disconnected with
    [errPingPong]; and whatever happens afterwards, the timer is never
    cleared or armed again, so every later [HandlePong] fails with
    [errPingPong] and changes nothing. *)
Theorem ping_timeout_is_final
    (p : TCPPeer) (evs : list event) (pong : Ping) :
  pingTimer p = Some TimerPending ->
  dropped p = None ->
  dropped (foldl apply_event (timer_expires p) evs) = Some (Some errPingPong) /\
  done (foldl apply_event (timer_expires p) evs) = true /\
  HandlePong (foldl apply_event (timer_expires p) evs) pong
    = (foldl apply_event (timer_expires p) evs, Some errPingPong).
Proof.
  intros Hp Hn.
  assert (Hf : pingTimer (timer_expires p) = Some TimerFired).
  { unfold timer_expires, Disconnect. rewrite Hp. simpl. rewrite Hn. reflexivity. }
  assert (Hd : dropped (timer_expires p) = Some (Some errPingPong)).
  { unfold timer_expires, Disconnect. rewrite Hp. simpl. rewrite Hn. reflexivity. }
  assert (Hdn : done (timer_expires p) = true).
  { unfold timer_expires, Disconnect. rewrite Hp. simpl. rewrite Hn. reflexivity. }
  destruct (dropped_events evs _ _ Hd) as [H1 H2].
  split; [exact H1|]. split; [congruence|].
  apply (fired_events evs) in Hf.
  destruct (HandlePong_cases (foldl apply_event (timer_expires p) evs) pong)
    as [[_ E]|[Hnf _]]; [exact E|].
  exfalso. apply Hnf. exists TimerFired. split; [exact Hf | reflexivity].
Qed.

(** A session that completes the handshake and sends one ping. *)
Definition pinged : TCPPeer :=
  session (fun _ => None) (mkMessage (inr []))
    [EvSendVersion; EvHandleVersion (mkVersion 7);
     EvSendVersionAck (mkMessage (inr [])); EvHandleVersionAck;
     EvSendPing (mkMessage (inr [1%Z])) true].

Lemma ping_timeout_is_final_witness :
  dropped (foldl apply_event (timer_expires pinged) [EvHandlePong (mkPing 3)])
    = Some (Some errPingPong) /\
  done (foldl apply_event (timer_expires pinged) [EvHandlePong (mkPing 3)]) = true /\
  HandlePong (foldl apply_event (timer_expires pinged) [EvHandlePong (mkPing 3)])
    (mkPing 4)
    = (foldl apply_event (timer_expires pinged) [EvHandlePong (mkPing 3)],
       Some errPingPong).
Proof.
  apply (ping_timeout_is_final pinged [EvHandlePong (mkPing 3)] (mkPing 4));
    vm_compute; reflexivity.
Defined.

Lemma SendPing_counts p msg pick :
  Handshaked p = true ->
  pingSent (peer_of (SendPing p msg pick)) = add64 (pingSent p) 1 /\
  pingTimer (peer_of (SendPing p msg pick))
    = Some (match pingTimer p with Some t => t | None => TimerPending end) /\
  lastBlockIndex (peer_of (SendPing p msg pick)) = lastBlockIndex p /\
  Handshaked (peer_of (SendPing p msg pick)) = true.
Proof.
  intros Hh. unfold SendPing, EnqueueMessage, putMsgIntoQueue, putPacketIntoQueue.
  rewrite Hh. simpl.
  assert (Hh' : forall n t, Handshaked (set_ping p n t) = true) by (intros; exact Hh).
  rewrite Hh'. simpl.
  destruct (Bytes msg); simpl; [destruct (pingTimer p); auto|].
  destruct (_ <? _), (done p), pick; simpl; destruct (pingTimer p); auto.
Qed.

(** X17. A ping and its pong.  On a handshaked peer [SendPing] counts
    the ping and arms the timer before it queues the message, so also
    when the message is not queued; the [HandlePong] that follows stops
    the timer, clears it, brings the counter back to what it was,
    records the block index of the pong and succeeds. *)
Theorem SendPing_then_HandlePong
    (p : TCPPeer) (msg : Message) (pick : bool) (pong : Ping) :
  Handshaked p = true ->
  pingTimer p = None \/ pingTimer p = Some TimerPending ->
  (0 <= pingSent p < 2 ^ 63 - 1)%Z ->
  pingSent (peer_of (SendPing p msg pick)) = (pingSent p + 1)%Z /\
  pingTimer (peer_of (SendPing p msg pick)) = Some TimerPending /\
  (HandlePong (peer_of (SendPing p msg pick)) pong).2 = None /\
  pingSent (HandlePong (peer_of (SendPing p msg pick)) pong).1 = pingSent p /\
  pingTimer (HandlePong (peer_of (SendPing p msg pick)) pong).1 = None /\
  lastBlockIndex (HandlePong (peer_of (SendPing p msg pick)) pong).1
    = LastBlockIndex pong.
Proof.
  intros Hh Ht Hr.
  destruct (SendPing_counts p msg pick Hh) as (Hps & Hpt & _ & _).
  assert (Hpt' : pingTimer (peer_of (SendPing p msg pick)) = Some TimerPending)
    by (rewrite Hpt; destruct Ht as [-> | ->]; reflexivity).
  assert (Hps' : pingSent (peer_of (SendPing p msg pick)) = (pingSent p + 1)%Z).
  { rewrite Hps. unfold add64, wrap64.
    rewrite Z.mod_small by lia. lia. }
  clear Hps Hpt.
  destruct (peer_of (SendPing p msg pick)) as [cw gv ver lbi hs dn dr sq pq hq ps pt].
  simpl in *. subst ps pt.
  unfold HandlePong. simpl.
  assert (E : sub64 (pingSent p + 1) 1 = pingSent p).
  { unfold sub64, wrap64.
    replace (pingSent p + 1 - 1 + 2 ^ 63)%Z with (pingSent p + 2 ^ 63)%Z by lia.
    rewrite Z.mod_small by lia. lia. }
  rewrite E.
  destruct (Z.ltb_spec (pingSent p) 0); [lia|]. simpl. repeat split.
Qed.

Lemma SendPing_then_HandlePong_witness :
  pingSent (peer_of (SendPing pinged (mkMessage (inr [2%Z])) true))
    = (pingSent pinged + 1)%Z /\
  pingTimer (peer_of (SendPing pinged (mkMessage (inr [2%Z])) true))
    = Some TimerPending /\
  (HandlePong (peer_of (SendPing pinged (mkMessage (inr [2%Z])) true)) (mkPing 9)).2
    = None /\
  pingSent (HandlePong (peer_of (SendPing pinged (mkMessage (inr [2%Z])) true))
              (mkPing 9)).1 = pingSent pinged /\
  pingTimer (HandlePong (peer_of (SendPing pinged (mkMessage (inr [2%Z])) true))
               (mkPing 9)).1 = None /\
  lastBlockIndex (HandlePong (peer_of (SendPing pinged (mkMessage (inr [2%Z])) true))
                    (mkPing 9)).1 = LastBlockIndex (mkPing 9).
Proof.
  apply (SendPing_then_HandlePong pinged (mkMessage (inr [2%Z])) true (mkPing 9)).
  - vm_compute. reflexivity.
  - right. vm_compute. reflexivity.
  - vm_compute. split; [intros E; discriminate | reflexivity].
Defined.

(** X18. A pong that answers no ping is not forgiven.  On a peer with
    no ping outstanding and no fired timer [HandlePong] fails with
    [errUnexpectedPong], leaves the last block index alone and leaves
    the counter at -1; so the pong that answers the next ping is
    rejected as unexpected too. *)
Theorem unexpected_pong_is_not_forgiven
    (p : TCPPeer) (pong pong' : Ping) (msg : Message) (pick : bool) :
  Handshaked p = true ->
  pingTimer p = None \/ pingTimer p = Some TimerPending ->
  pingSent p = 0%Z ->
  (HandlePong p pong).2 = Some errUnexpectedPong /\
  lastBlockIndex (HandlePong p pong).1 = lastBlockIndex p /\
  pingSent (HandlePong p pong).1 = (-1)%Z /\
  (HandlePong (peer_of (SendPing (HandlePong p pong).1 msg pick)) pong').2
    = Some errUnexpectedPong.
Proof.
  intros Hh Ht H0.
  assert (E1 : HandlePong p pong
               = (set_ping p (-1) None, Some errUnexpectedPong)).
  { unfold HandlePong. rewrite H0. destruct Ht as [-> | ->]; reflexivity. }
  rewrite E1. simpl. repeat split.
  assert (Hh' : Handshaked (set_ping p (-1) None) = true) by exact Hh.
  destruct (SendPing_counts (set_ping p (-1) None) msg pick Hh')
    as (Hps & Hpt & _ & _).
  simpl in Hps, Hpt.
  destruct (peer_of (SendPing (set_ping p (-1) None) msg pick))
    as [cw gv ver lbi hs dn dr sq pq hq ps pt].
  simpl in *. subst ps pt. reflexivity.
Qed.

Lemma unexpected_pong_is_not_forgiven_witness :
  let p := (HandlePong pinged (mkPing 1)).1 in
  (HandlePong p (mkPing 2)).2 = Some errUnexpectedPong /\
  lastBlockIndex (HandlePong p (mkPing 2)).1 = lastBlockIndex p /\
  pingSent (HandlePong p (mkPing 2)).1 = (-1)%Z /\
  (HandlePong (peer_of (SendPing (HandlePong p (mkPing 2)).1
                          (mkMessage (inr [3%Z])) true)) (mkPing 4)).2
    = Some errUnexpectedPong.
Proof.
  apply (unexpected_pong_is_not_forgiven (HandlePong pinged (mkPing 1)).1
           (mkPing 2) (mkPing 4) (mkMessage (inr [3%Z])) true).
  - vm_compute. reflexivity.
  - left. vm_compute. reflexivity.
  - vm_compute. reflexivity.
Defined.

End Peer.


(** ** Transactions in the simple DAO (package dao) *)

Module DAO.

Inductive error :=
| ErrKeyNotFound
| ErrAlreadyExists
| ErrHasConflicts
| errors_New (msg : string)
| errExternal (code : Z).

(** Modelled from the spec: [transaction.Transaction] and its
    [EncodeBinary] are declared outside the DAO's file.  The spec stores
    a transaction as its wire bytes and reads the version byte at their
    start (value offset 4, after the block index): the wire bytes are
    the version byte followed by the rest.  [Conflicts] are the hashes
    of the [ConflictsT] attributes. *)
Record Transaction := mkTx {
  Hash : list Z;
  Version : Z;
  Rest : list Z;
  Conflicts : list (list Z)
}.

Definition EncodeBinary (tx : Transaction) : list Z := Version tx :: Rest tx.

(** [WriteU32LE] and [ReadU32LE]. *)
Definition u32le (i : Z) : list Z :=
  [i `mod` 256; (i / 256) `mod` 256; (i / 65536) `mod` 256;
   (i / 16777216) `mod` 256]%Z.

Definition ReadU32LE (b : list Z) : Z :=
  (nth 0 b 0 + 256 * nth 1 b 0 + 65536 * nth 2 b 0 + 16777216 * nth 3 b 0)%Z.

(** The store under the DAO, seen through [Get]: the value of a key, or
    the error ([ErrKeyNotFound] for an absent key).  [Put] on the
    memcached layer always succeeds. *)
Definition Store := list Z -> error + list Z.

Definition Store_Get (st : Store) (key : list Z) : error + list Z := st key.

Definition Store_Put (st : Store) (key value : list Z) : Store :=
  fun k => if decide (k = key) then inr value else st k.

Definition NewMemoryStore : Store := fun _ => inl ErrKeyNotFound.

Record Simple := mkSimple {
  P2PSigExtensions : bool;
  Store_of : Store
}.

Section Transactions.

(** The key prefix [storage.DataTransaction], the version byte
    [transaction.DummyVersion] and [Transaction.DecodeBinary] are
    declared outside the DAO's file: they are parameters here. *)
Variable DataTransaction : Z.
Variable DummyVersion : Z.
Variable DecodeBinary : list Z -> error + Transaction.

(** [storage.AppendPrefix]. *)
Definition AppendPrefix (prefix : Z) (b : list Z) : list Z := prefix :: b.

(** [Simple.GetTransaction]: the transaction and its height, or the
    error.  [b[4]] is read after the length check. *)
Definition GetTransaction (dao : Simple) (hash : list Z)
  : error + (Transaction * Z) :=
  let key := AppendPrefix DataTransaction hash in
  match Store_Get (Store_of dao) key with
  | inl err => inl err
  | inr b =>
      if length b <? 5 then inl (errors_New "bad transaction bytes")
      else if (nth 4 b 0 =? DummyVersion)%Z then inl ErrKeyNotFound
      else
        let height := ReadU32LE b in
        match DecodeBinary (drop 4 b) with
        | inl err => inl err
        | inr tx => inr (tx, height)
        end
  end.

(** [Simple.HasTransaction]. *)
Definition HasTransaction (dao : Simple) (hash : list Z) : option error :=
  let key := AppendPrefix DataTransaction hash in
  match Store_Get (Store_of dao) key with
  | inl _ => None
  | inr bytes =>
      if length bytes <? 5 then None
      else if (nth 4 bytes 0 =? DummyVersion)%Z then Some ErrHasConflicts
      else Some ErrAlreadyExists
  end.

(** [Simple.StoreAsTransaction]: the transaction under its hash, then,
    with the P2P signature extensions, a dummy under every hash it
    conflicts with. *)
Definition StoreAsTransaction (dao : Simple) (tx : Transaction) (index : Z) : Simple :=
  let key := AppendPrefix DataTransaction (Hash tx) in
  let st := Store_Put (Store_of dao) key (u32le index ++ EncodeBinary tx) in
  let st :=
    if P2PSigExtensions dao then
      foldl (fun st hash =>
               Store_Put st (AppendPrefix DataTransaction hash)
                         (u32le index ++ [DummyVersion]))
            st (Conflicts tx)
    else st in
  mkSimple (P2PSigExtensions dao) st.

(** The value stored under the hash. *)
Definition stored (dao : Simple) (hash : list Z) (b : list Z) : Prop :=
  Store_Get (Store_of dao) (AppendPrefix DataTransaction hash) = inr b.

(** C7. A hash whose stored value has the dummy version byte at offset
    4 makes [GetTransaction] report [ErrKeyNotFound] and
    [HasTransaction] report [ErrHasConflicts]; a hash under which a
    transaction is stored in full, block index then wire bytes with a
    version other than the dummy one, makes [HasTransaction] report
    [ErrAlreadyExists]; an absent hash makes it report nil. *)
Theorem C7_dummy_transactions (dao : Simple) (hash : list Z) :
  (forall b, stored dao hash b -> b !! 4 = Some DummyVersion ->
     GetTransaction dao hash = inl ErrKeyNotFound /\
     HasTransaction dao hash = Some ErrHasConflicts) /\
  (forall index tx,
     stored dao hash (u32le index ++ EncodeBinary tx) ->
     Version tx <> DummyVersion ->
     HasTransaction dao hash = Some ErrAlreadyExists) /\
  (Store_Get (Store_of dao) (AppendPrefix DataTransaction hash) = inl ErrKeyNotFound ->
     HasTransaction dao hash = None).
Proof.
  unfold stored, GetTransaction, HasTransaction.
  split; [|split].
  - intros b -> Hb.
    pose proof (lookup_lt_Some _ _ _ Hb) as Hlen.
    destruct (Nat.ltb_spec (length b) 5) as [?|_]; [lia|].
    assert (E : nth 4 b 0%Z = DummyVersion).
    { apply nth_lookup_Some with (d := 0%Z) in Hb. exact Hb. }
    rewrite E, Z.eqb_refl. split; reflexivity.
  - intros index tx -> Hv. simpl.
    destruct (Z.eqb_spec (Version tx) DummyVersion); [contradiction|reflexivity].
  - intros ->. reflexivity.
Qed.

(** What [StoreAsTransaction] leaves under the hash of the transaction
    and under the hashes it conflicts with. *)
Lemma StoreAsTransaction_stored dao tx index :
  Hash tx ∉ Conflicts tx \/ P2PSigExtensions dao = false ->
  stored (StoreAsTransaction dao tx index) (Hash tx) (u32le index ++ EncodeBinary tx).
Proof.
  intros Hself. unfold stored, StoreAsTransaction, Store_Get. cbn [Store_of].
  set (st0 := Store_Put (Store_of dao) (AppendPrefix DataTransaction (Hash tx))
                (u32le index ++ EncodeBinary tx)).
  assert (H0 : st0 (AppendPrefix DataTransaction (Hash tx))
               = inr (u32le index ++ EncodeBinary tx)).
  { subst st0. unfold Store_Put. rewrite decide_True by reflexivity. reflexivity. }
  clearbody st0.
  destruct (P2PSigExtensions dao); [|exact H0].
  destruct Hself as [Hself|?]; [|discriminate].
  revert st0 H0.
  induction (Conflicts tx) as [|h hs IH]; intros st Hst; [exact Hst|].
  cbn [foldl]. apply IH.
  - intros Hin. apply Hself. right. exact Hin.
  - unfold Store_Put. rewrite decide_False; [exact Hst|].
    unfold AppendPrefix. intros E. inversion E. apply Hself. subst. left.
Qed.

Lemma StoreAsTransaction_dummy dao tx index h :
  P2PSigExtensions dao = true -> h ∈ Conflicts tx ->
  stored (StoreAsTransaction dao tx index) h (u32le index ++ [DummyVersion]).
Proof.
  intros Hp Hin. unfold stored, StoreAsTransaction, Store_Get. cbn [Store_of].
  rewrite Hp.
  generalize (Store_Put (Store_of dao) (AppendPrefix DataTransaction (Hash tx))
                (u32le index ++ EncodeBinary tx)).
  induction (Conflicts tx) as [|h' hs IH] using rev_ind; intros st.
  - inversion Hin.
  - rewrite foldl_app. cbn [foldl]. unfold Store_Put at 1.
    destruct (decide (AppendPrefix DataTransaction h = AppendPrefix DataTransaction h'))
      as [E|Hne]; [reflexivity|].
    apply IH. apply elem_of_app in Hin as [Hin|Hin]; [exact Hin|].
    apply list_elem_of_singleton in Hin. subst. contradiction.
Qed.

(** *** Storing and reading back a transaction *)

Lemma ReadU32LE_u32le (i : Z) (rest : list Z) :
  (0 <= i < 2 ^ 32)%Z -> ReadU32LE (u32le i ++ rest) = i.
Proof.
  intros Hi. unfold ReadU32LE, u32le. cbn [app nth].
  assert (E2 : (i / 65536 = i / 256 / 256)%Z)
    by (rewrite Z.div_div by lia; reflexivity).
  assert (E3 : (i / 16777216 = i / 256 / 256 / 256)%Z)
    by (rewrite !Z.div_div by lia; reflexivity).
  rewrite E2, E3.
  pose proof (Z.div_mod i 256 ltac:(lia)) as D1.
  pose proof (Z.div_mod (i / 256) 256 ltac:(lia)) as D2.
  pose proof (Z.div_mod (i / 256 / 256) 256 ltac:(lia)) as D3.
  assert (H3 : (0 <= i / 256 / 256 / 256 < 256)%Z).
  { rewrite !Z.div_div by lia. split; [apply Z.div_pos; lia|].
    apply Z.div_lt_upper_bound; lia. }
  rewrite (Z.mod_small (i / 256 / 256 / 256)) by exact H3. lia.
Qed.

Lemma StoreAsTransaction_other dao tx index h :
  h <> Hash tx -> h ∉ Conflicts tx \/ P2PSigExtensions dao = false ->
  Store_Get (Store_of (StoreAsTransaction dao tx index)) (AppendPrefix DataTransaction h)
  = Store_Get (Store_of dao) (AppendPrefix DataTransaction h).
Proof.
  intros Hne Hc. unfold StoreAsTransaction, Store_Get. cbn [Store_of].
  set (st0 := Store_Put (Store_of dao) (AppendPrefix DataTransaction (Hash tx))
                (u32le index ++ EncodeBinary tx)).
  assert (H0 : st0 (AppendPrefix DataTransaction h)
               = Store_of dao (AppendPrefix DataTransaction h)).
  { subst st0. unfold Store_Put. rewrite decide_False; [reflexivity|].
    unfold AppendPrefix. intros E. inversion E. contradiction. }
  clearbody st0.
  destruct (P2PSigExtensions dao); [|exact H0].
  destruct Hc as [Hc|?]; [|discriminate].
  revert st0 H0.
  induction (Conflicts tx) as [|h' hs IH]; intros st Hst; [exact Hst|].
  cbn [foldl]. apply IH.
  - intros Hin. apply Hc. right. exact Hin.
  - unfold Store_Put. rewrite decide_False; [exact Hst|].
    unfold AppendPrefix. intros E. inversion E. apply Hc. subst. left.
Qed.

(** X22. What [StoreAsTransaction] stores, [GetTransaction] and
    [HasTransaction] read back: the transaction with its block index
    under its own hash, unless it names itself as a conflict; a dummy,
    which [GetTransaction] does not return, under every hash it
    conflicts with when the P2P signature extensions are on; and what
    was there before under every other hash. *)
Theorem StoreAsTransaction_then_GetTransaction
    (dao : Simple) (tx : Transaction) (index : Z) :
  (0 <= index < 2 ^ 32)%Z ->
  Version tx <> DummyVersion ->
  DecodeBinary (EncodeBinary tx) = inr tx ->
  (Hash tx ∉ Conflicts tx \/ P2PSigExtensions dao = false ->
   GetTransaction (StoreAsTransaction dao tx index) (Hash tx) = inr (tx, index) /\
   HasTransaction (StoreAsTransaction dao tx index) (Hash tx) = Some ErrAlreadyExists) /\
  (P2PSigExtensions dao = true ->
   forall h, h ∈ Conflicts tx ->
     GetTransaction (StoreAsTransaction dao tx index) h = inl ErrKeyNotFound /\
     HasTransaction (StoreAsTransaction dao tx index) h = Some ErrHasConflicts) /\
  (forall h, h <> Hash tx -> h ∉ Conflicts tx \/ P2PSigExtensions dao = false ->
     GetTransaction (StoreAsTransaction dao tx index) h = GetTransaction dao h /\
     HasTransaction (StoreAsTransaction dao tx index) h = HasTransaction dao h).
Proof.
  intros Hi Hv Hdec. split; [|split].
  - intros Hself.
    pose proof (StoreAsTransaction_stored dao tx index Hself) as Hs.
    unfold stored in Hs. unfold GetTransaction, HasTransaction. rewrite Hs.
    assert (Hlen : (length (u32le index ++ EncodeBinary tx) <? 5) = false)
      by reflexivity.
    assert (Hnth : nth 4 (u32le index ++ EncodeBinary tx) 0%Z = Version tx)
      by reflexivity.
    assert (Hdrop : drop 4 (u32le index ++ EncodeBinary tx) = EncodeBinary tx)
      by reflexivity.
    rewrite Hlen, Hnth, Hdrop, Hdec, ReadU32LE_u32le by exact Hi.
    destruct (Z.eqb_spec (Version tx) DummyVersion) as [?|_]; [contradiction|].
    split; reflexivity.
  - intros Hp h Hh.
    pose proof (StoreAsTransaction_dummy dao tx index h Hp Hh) as Hs.
    unfold stored in Hs. unfold GetTransaction, HasTransaction. rewrite Hs.
    cbn [u32le app length Nat.ltb Nat.leb nth].
    rewrite Z.eqb_refl. split; reflexivity.
  - intros h Hne Hc. unfold GetTransaction, HasTransaction.
    rewrite (StoreAsTransaction_other dao tx index h Hne Hc). split; reflexivity.
Qed.

End Transactions.

Lemma C7_dummy_transactions_witness :
  let dao := StoreAsTransaction 2 255 (mkSimple true NewMemoryStore)
               (mkTx [1%Z] 0 [9%Z] [[7%Z]]) 3 in
  GetTransaction 2 255 (fun _ => inl (errExternal 0)) dao [7%Z] = inl ErrKeyNotFound /\
  HasTransaction 2 255 dao [7%Z] = Some ErrHasConflicts.
Proof.
  apply (proj1 (C7_dummy_transactions 2 255 (fun _ => inl (errExternal 0))
           (StoreAsTransaction 2 255 (mkSimple true NewMemoryStore)
              (mkTx [1%Z] 0 [9%Z] [[7%Z]]) 3)
           [7%Z]) (u32le 3 ++ [255%Z])).
  - apply StoreAsTransaction_dummy; [reflexivity | simpl; left].
  - reflexivity.
Defined.

(** A decoder that reads back the wire bytes of the model: the version
    byte, then the rest; the hash and the conflicts are those of the
    one transaction of the example. *)
Definition decode_example (b : list Z) : error + Transaction :=
  match b with
  | v :: rest => inr (mkTx [1%Z] v rest [[7%Z]])
  | [] => inl (errExternal 0)
  end.

Lemma StoreAsTransaction_then_GetTransaction_witness :
  GetTransaction 2 255 decode_example
    (StoreAsTransaction 2 255 (mkSimple true NewMemoryStore)
       (mkTx [1%Z] 0 [9%Z] [[7%Z]]) 3) [1%Z]
  = inr (mkTx [1%Z] 0 [9%Z] [[7%Z]], 3%Z) /\
  HasTransaction 2 255
    (StoreAsTransaction 2 255 (mkSimple true NewMemoryStore)
       (mkTx [1%Z] 0 [9%Z] [[7%Z]]) 3) [1%Z]
  = Some ErrAlreadyExists.
Proof.
  apply (proj1 (StoreAsTransaction_then_GetTransaction 2 255 decode_example
                  (mkSimple true NewMemoryStore) (mkTx [1%Z] 0 [9%Z] [[7%Z]]) 3
                  ltac:(lia) ltac:(discriminate) eq_refl)).
  left. simpl. intros H. apply list_elem_of_singleton in H. discriminate.
Defined.

End DAO.


(** ** Versions, storage items and transfer logs in the simple DAO *)

Module SimpleDAO.

(** [make([]byte, n)]. *)
Definition make (n : nat) : list Z := replicate n 0%Z.

(** [copy(dst[off:], src)]: as many bytes as both sides have. *)
Definition copy_at (dst : list Z) (off : nat) (src : list Z) : list Z :=
  let n := min (length dst - off) (length src) in
  take off dst ++ take n src ++ drop (off + n) dst.

(** [binary.LittleEndian.PutUint32(b[off:], v)], on a buffer that has
    four bytes from [off] on, as the buffers of this file have. *)
Definition PutUint32 (b : list Z) (off : nat) (v : Z) : list Z :=
  copy_at b off (DAO.u32le v).

(** [binary.LittleEndian.Uint32(b)]; it panics on fewer than four
    bytes, which is [None] here. *)
Definition Uint32 (b : list Z) : option Z :=
  if length b <? 4 then None else Some (DAO.ReadU32LE b).

(** The conversion [uint32(id)] of an [int32]. *)
Definition uint32 (id : Z) : Z := (id `mod` 2 ^ 32)%Z.

(** Modelled from the spec: [util.Uint160Size] is declared outside the
    DAO's file; a Hash160 is a fixed-width 20-byte identifier. *)
Definition Uint160Size : nat := 20.

(** Modelled from the spec: [KeyPrefix.Bytes] is declared outside the
    DAO's file; a key prefix is a single byte. *)
Definition KeyPrefix_Bytes (k : Z) : list Z := [k].

(** [dao.Version]; [Value] is the string, as its bytes. *)
Record Version := mkVersion {
  StoragePrefix : Z;
  StateRootInHeader : bool;
  P2PSigExtensions : bool;
  KeepOnlyLatestState : bool;
  Value : list Z
}.

Definition stateRootInHeaderBit : Z := Z.shiftl 1 0.
Definition p2pSigExtensionsBit : Z := Z.shiftl 1 1.
Definition keepOnlyLatestStateBit : Z := Z.shiftl 1 2.

(** The loop of [FromBytes]: the index of the first zero byte, or the
    length of the data when there is none. *)
Fixpoint first_nul (data : list Z) : nat :=
  match data with
  | [] => 0
  | b :: data' => if (b =? 0)%Z then 0 else S (first_nul data')
  end.

(** [Version.FromBytes]: the receiver as the call leaves it, and the
    error. *)
Definition FromBytes (v : Version) (data : list Z) : Version * option DAO.error :=
  if length data =? 0 then (v, Some (DAO.errors_New "missing version"))
  else
    let i := first_nul data in
    if i =? length data then
      (mkVersion (StoragePrefix v) (StateRootInHeader v) (P2PSigExtensions v)
                 (KeepOnlyLatestState v) data, None)
    else if negb (length data =? i + 3) then
      (v, Some (DAO.errors_New "version is invalid"))
    else
      (mkVersion (nth (i + 1) data 0%Z)
                 (negb (Z.land (nth (i + 2) data 0%Z) stateRootInHeaderBit =? 0)%Z)
                 (negb (Z.land (nth (i + 2) data 0%Z) p2pSigExtensionsBit =? 0)%Z)
                 (negb (Z.land (nth (i + 2) data 0%Z) keepOnlyLatestStateBit =? 0)%Z)
                 (take i data),
       None).

(** [Version.Bytes]. *)
Definition Bytes (v : Version) : list Z :=
  let mask := 0%Z in
  let mask := if StateRootInHeader v then Z.lor mask stateRootInHeaderBit else mask in
  let mask := if P2PSigExtensions v then Z.lor mask p2pSigExtensionsBit else mask in
  let mask := if KeepOnlyLatestState v then Z.lor mask keepOnlyLatestStateBit else mask in
  Value v ++ [0%Z; StoragePrefix v; mask].

(** [dao.Simple], with its whole version record; [DAO.Simple] above
    keeps of it the one flag that the transaction code reads. *)
Record Simple := mkSimple {
  Version_of : Version;
  Store_of : DAO.Store
}.

Definition set_Store (dao : Simple) (st : DAO.Store) : Simple :=
  mkSimple (Version_of dao) st.

(** [makeStorageItemKey]. *)
Definition makeStorageItemKey (prefix : Z) (id : Z) (key : list Z) : list Z :=
  let buf := make (5 + length key) in
  let buf := <[0 := prefix]> buf in
  let buf := PutUint32 buf 1 (uint32 id) in
  copy_at buf 5 key.

(** [Simple.GetStorageItem]: [None] is the nil item. *)
Definition GetStorageItem (dao : Simple) (id : Z) (key : list Z) : option (list Z) :=
  match DAO.Store_Get (Store_of dao)
          (makeStorageItemKey (StoragePrefix (Version_of dao)) id key) with
  | inl _ => None
  | inr b => Some b
  end.

(** [Simple.PutStorageItem]. *)
Definition PutStorageItem (dao : Simple) (id : Z) (key : list Z) (si : list Z) : Simple :=
  let stKey := makeStorageItemKey (StoragePrefix (Version_of dao)) id key in
  set_Store dao (DAO.Store_Put (Store_of dao) stKey si).

(** What a call that reads a number returns: the number, the error of
    the store, or a panic on a value that is too short. *)
Inductive reading :=
| Read (n : Z)
| Failed (err : DAO.error)
| Panic.

Section Keys.

(** The key prefixes are declared outside the DAO's file: they are
    parameters here. *)
Variable SYSVersion : Z.
Variable SYSStateSyncPoint : Z.
Variable SYSStateSyncCurrentBlockHeight : Z.
Variable STNEP17Transfers : Z.

(** [Simple.GetVersion]. *)
Definition GetVersion (dao : Simple) : Version * option DAO.error :=
  let version := mkVersion 0 false false false [] in
  match DAO.Store_Get (Store_of dao) (KeyPrefix_Bytes SYSVersion) with
  | inl err => (version, Some err)
  | inr data => FromBytes version data
  end.

(** [Simple.PutVersion]. *)
Definition PutVersion (dao : Simple) (v : Version) : Simple :=
  mkSimple v (DAO.Store_Put (Store_of dao) (KeyPrefix_Bytes SYSVersion) (Bytes v)).

(** [Simple.GetStateSyncPoint]. *)
Definition GetStateSyncPoint (dao : Simple) : reading :=
  match DAO.Store_Get (Store_of dao) (KeyPrefix_Bytes SYSStateSyncPoint) with
  | inl err => Failed err
  | inr b => match Uint32 b with Some n => Read n | None => Panic end
  end.

(** [Simple.GetStateSyncCurrentBlockHeight]. *)
Definition GetStateSyncCurrentBlockHeight (dao : Simple) : reading :=
  match DAO.Store_Get (Store_of dao)
          (KeyPrefix_Bytes SYSStateSyncCurrentBlockHeight) with
  | inl err => Failed err
  | inr b => match Uint32 b with Some n => Read n | None => Panic end
  end.

(** [Simple.PutStateSyncPoint]. *)
Definition PutStateSyncPoint (dao : Simple) (p : Z) : Simple :=
  let buf := make 4 in
  let buf := PutUint32 buf 0 p in
  set_Store dao (DAO.Store_Put (Store_of dao) (KeyPrefix_Bytes SYSStateSyncPoint) buf).

(** [Simple.PutStateSyncCurrentBlockHeight]. *)
Definition PutStateSyncCurrentBlockHeight (dao : Simple) (h : Z) : Simple :=
  let buf := make 4 in
  let buf := PutUint32 buf 0 h in
  set_Store dao (DAO.Store_Put (Store_of dao)
                   (KeyPrefix_Bytes SYSStateSyncCurrentBlockHeight) buf).

(** [getNEP17TransferLogKey], on the 20 bytes of [acc.BytesBE()]. *)
Definition getNEP17TransferLogKey (acc : list Z) (index : Z) : list Z :=
  let key := make (1 + Uint160Size + 4) in
  let key := <[0 := STNEP17Transfers]> key in
  let key := copy_at key 1 acc in
  PutUint32 key Uint160Size index.

(** [Simple.GetNEP17TransferLog]: the log is its [Raw] bytes, and the
    new log is the empty one. *)
Definition GetNEP17TransferLog (dao : Simple) (acc : list Z) (index : Z)
  : DAO.error + list Z :=
  let key := getNEP17TransferLogKey acc index in
  match DAO.Store_Get (Store_of dao) key with
  | inl err =>
      match err with
      | DAO.ErrKeyNotFound => inr []
      | _ => inl err
      end
  | inr value => inr value
  end.

(** [Simple.PutNEP17TransferLog]. *)
Definition PutNEP17TransferLog (dao : Simple) (acc : list Z) (index : Z)
    (lg : list Z) : Simple :=
  let key := getNEP17TransferLogKey acc index in
  set_Store dao (DAO.Store_Put (Store_of dao) key lg).

(** *** Buffers *)

Lemma copy_at_middle (a b c src : list Z) :
  length b = length src ->
  copy_at (a ++ b ++ c) (length a) src = a ++ src ++ c.
Proof.
  intros Hb. unfold copy_at. rewrite !length_app.
  replace (min (length a + (length b + length c) - length a) (length src))
    with (length src) by lia.
  rewrite take_app_length, firstn_all.
  rewrite <- Hb. rewrite drop_app_add, drop_app_length. reflexivity.
Qed.

Lemma u32le_inj (i j : Z) :
  (0 <= i < 2 ^ 32)%Z -> (0 <= j < 2 ^ 32)%Z -> DAO.u32le i = DAO.u32le j -> i = j.
Proof.
  intros Hi Hj E.
  rewrite <- (DAO.ReadU32LE_u32le i [] Hi), <- (DAO.ReadU32LE_u32le j [] Hj), E.
  reflexivity.
Qed.

Lemma uint32_inj (i j : Z) :
  (- 2 ^ 31 <= i < 2 ^ 31)%Z -> (- 2 ^ 31 <= j < 2 ^ 31)%Z ->
  uint32 i = uint32 j -> i = j.
Proof.
  unfold uint32. intros Hi Hj E.
  pose proof (Z.div_mod i (2 ^ 32) ltac:(lia)) as Di.
  pose proof (Z.div_mod j (2 ^ 32) ltac:(lia)) as Dj.
  pose proof (Z.mod_pos_bound i (2 ^ 32) ltac:(lia)).
  pose proof (Z.mod_pos_bound j (2 ^ 32) ltac:(lia)).
  lia.
Qed.

Lemma uint32_range (i : Z) : (0 <= uint32 i < 2 ^ 32)%Z.
Proof. unfold uint32. apply Z.mod_pos_bound. lia. Qed.

Lemma makeStorageItemKey_eq prefix id key :
  makeStorageItemKey prefix id key = prefix :: DAO.u32le (uint32 id) ++ key.
Proof.
  unfold makeStorageItemKey, PutUint32, make. cbv zeta.
  assert (E1 : <[0 := prefix]> (replicate (5 + length key) 0%Z)
               = [prefix] ++ replicate 4 0%Z ++ replicate (length key) 0%Z)
    by reflexivity.
  rewrite E1.
  pose proof (copy_at_middle [prefix] (replicate 4 0%Z)
                (replicate (length key) 0%Z) (DAO.u32le (uint32 id)) eq_refl) as E0.
  change (length [prefix]) with 1 in E0. rewrite E0.
  assert (E2 : [prefix] ++ DAO.u32le (uint32 id) ++ replicate (length key) 0%Z
               = ([prefix] ++ DAO.u32le (uint32 id))
                   ++ replicate (length key) 0%Z ++ [])
    by (rewrite app_nil_r; reflexivity).
  rewrite E2.
  pose proof (copy_at_middle ([prefix] ++ DAO.u32le (uint32 id))
                (replicate (length key) 0%Z) [] key (length_replicate _ _)) as E3.
  change (length ([prefix] ++ DAO.u32le (uint32 id))) with 5 in E3.
  rewrite E3, app_nil_r. reflexivity.
Qed.

Lemma makeStorageItemKey_inj prefix id key id' key' :
  (- 2 ^ 31 <= id < 2 ^ 31)%Z -> (- 2 ^ 31 <= id' < 2 ^ 31)%Z ->
  makeStorageItemKey prefix id key = makeStorageItemKey prefix id' key' ->
  id = id' /\ key = key'.
Proof.
  intros Hi Hi'. rewrite !makeStorageItemKey_eq. intros E.
  assert (E' : DAO.u32le (uint32 id) ++ key = DAO.u32le (uint32 id') ++ key')
    by congruence.
  apply app_inj_1 in E' as [E1 E2]; [|reflexivity].
  split; [|exact E2].
  apply uint32_inj; [exact Hi | exact Hi'|].
  apply u32le_inj; [apply uint32_range | apply uint32_range | exact E1].
Qed.

Lemma getNEP17TransferLogKey_eq acc index :
  length acc = Uint160Size ->
  getNEP17TransferLogKey acc index
  = STNEP17Transfers :: take 19 acc ++ DAO.u32le index ++ [0%Z].
Proof.
  intros Hlen. unfold getNEP17TransferLogKey, PutUint32, make. cbv zeta.
  assert (E1 : <[0 := STNEP17Transfers]> (replicate (1 + Uint160Size + 4) 0%Z)
               = [STNEP17Transfers] ++ replicate Uint160Size 0%Z ++ replicate 4 0%Z)
    by reflexivity.
  rewrite E1.
  pose proof (copy_at_middle [STNEP17Transfers] (replicate Uint160Size 0%Z)
                (replicate 4 0%Z) acc) as E0.
  change (length [STNEP17Transfers]) with 1 in E0.
  rewrite E0 by (rewrite length_replicate; symmetry; exact Hlen).
  assert (E2 : [STNEP17Transfers] ++ acc ++ replicate 4 0%Z
               = ([STNEP17Transfers] ++ take 19 acc)
                   ++ (drop 19 acc ++ replicate 3 0%Z) ++ [0%Z]).
  { rewrite <- (take_drop 19 acc) at 1. rewrite <- !app_assoc. reflexivity. }
  rewrite E2.
  assert (H19 : Uint160Size = length ([STNEP17Transfers] ++ take 19 acc)).
  { rewrite length_app, length_take, Hlen. reflexivity. }
  rewrite H19 at 1.
  rewrite copy_at_middle.
  - rewrite <- app_assoc. reflexivity.
  - rewrite length_app, length_drop, Hlen. reflexivity.
Qed.

(** *** The version record *)

Lemma first_nul_app (l : list Z) (rest : list Z) :
  0%Z ∉ l -> first_nul (l ++ 0%Z :: rest) = length l.
Proof.
  induction l as [|b l IH]; intros Hn; [reflexivity|].
  simpl. destruct (Z.eqb_spec b 0) as [->|_]; [exfalso; apply Hn; left|].
  rewrite IH; [reflexivity|]. intros H. apply Hn. right. exact H.
Qed.

Lemma first_nul_elem (l : list Z) (rest : list Z) :
  0%Z ∈ l -> first_nul (l ++ rest) < length l.
Proof.
  induction l as [|b l IH]; intros Hn; [inversion Hn|].
  simpl. destruct (Z.eqb_spec b 0) as [->|Hb]; [lia|].
  apply elem_of_cons in Hn as [E|Hn]; [congruence|].
  specialize (IH Hn). lia.
Qed.

Lemma first_nul_none (l : list Z) : 0%Z ∉ l -> first_nul l = length l.
Proof.
  induction l as [|b l IH]; intros Hn; [reflexivity|].
  simpl. destruct (Z.eqb_spec b 0) as [->|_]; [exfalso; apply Hn; left|].
  rewrite IH; [reflexivity|]. intros H. apply Hn. right. exact H.
Qed.

Lemma FromBytes_Bytes (v0 v : Version) :
  0%Z ∉ Value v -> FromBytes v0 (Bytes v) = (v, None).
Proof.
  intros Hn. unfold FromBytes, Bytes.
  set (mask := if KeepOnlyLatestState v then _ else _).
  rewrite first_nul_app by exact Hn.
  rewrite length_app. cbn [length].
  destruct (Nat.eqb_spec (length (Value v) + 3) 0) as [?|_]; [lia|].
  destruct (Nat.eqb_spec (length (Value v)) (length (Value v) + 3)) as [?|_]; [lia|].
  rewrite Nat.eqb_refl. cbn [negb].
  rewrite !app_nth2_plus, take_app_length. cbn [nth].
  destruct v as [sp [] [] [] val]; reflexivity.
Qed.

(** X23. The version record survives its serialization exactly when
    its label has no zero byte: [FromBytes] of [Bytes] gives the record
    back, into whatever receiver, and with a zero byte in the label it
    fails with "version is invalid" and leaves the receiver alone.  So
    [GetVersion] after [PutVersion] returns the version that was put.
    Empty data is a "missing version"; data with no zero byte at all is
    taken as a bare label, the other fields of the receiver kept. *)
Theorem Version_round_trip (v0 v : Version) (dao : Simple) (data : list Z) :
  (0%Z ∉ Value v ->
   FromBytes v0 (Bytes v) = (v, None) /\
   GetVersion (PutVersion dao v) = (v, None)) /\
  (0%Z ∈ Value v ->
   FromBytes v0 (Bytes v) = (v0, Some (DAO.errors_New "version is invalid"))) /\
  FromBytes v0 [] = (v0, Some (DAO.errors_New "missing version")) /\
  (data <> [] -> 0%Z ∉ data ->
   FromBytes v0 data
   = (mkVersion (StoragePrefix v0) (StateRootInHeader v0) (P2PSigExtensions v0)
                (KeepOnlyLatestState v0) data, None)).
Proof.
  split; [|split; [|split]].
  - intros Hn. split; [apply FromBytes_Bytes, Hn|].
    unfold GetVersion, PutVersion, DAO.Store_Get, DAO.Store_Put. cbn [Store_of].
    rewrite decide_True by reflexivity. apply FromBytes_Bytes, Hn.
  - intros Hz. unfold FromBytes, Bytes.
    set (mask := if KeepOnlyLatestState v then _ else _).
    pose proof (first_nul_elem (Value v) [0%Z; StoragePrefix v; mask] Hz) as Hlt.
    rewrite length_app. cbn [length].
    destruct (Nat.eqb_spec (length (Value v) + 3) 0) as [?|_]; [lia|].
    destruct (Nat.eqb_spec (first_nul (Value v ++ [0%Z; StoragePrefix v; mask]))
                (length (Value v) + 3)) as [?|_]; [lia|].
    destruct (Nat.eqb_spec (length (Value v) + 3)
                (first_nul (Value v ++ [0%Z; StoragePrefix v; mask]) + 3)) as [?|_];
      [lia | reflexivity].
  - reflexivity.
  - intros Hne Hn. unfold FromBytes.
    destruct (Nat.eqb_spec (length data) 0) as [E|_].
    { destruct data; [contradiction | discriminate]. }
    rewrite first_nul_none by exact Hn. rewrite Nat.eqb_refl. reflexivity.
Qed.

(** *** Storage items *)

(** X24. A storage item is read back under the contract id and key it
    was put under, and under no other: the keys of two different pairs
    of id and key never coincide. *)
Theorem PutStorageItem_then_GetStorageItem
    (dao : Simple) (id id' : Z) (key key' si : list Z) :
  (- 2 ^ 31 <= id < 2 ^ 31)%Z -> (- 2 ^ 31 <= id' < 2 ^ 31)%Z ->
  GetStorageItem (PutStorageItem dao id key si) id' key'
  = if decide (id' = id /\ key' = key) then Some si
    else GetStorageItem dao id' key'.
Proof.
  intros Hi Hi'. unfold GetStorageItem, PutStorageItem, set_Store, DAO.Store_Get,
    DAO.Store_Put. cbn [Store_of Version_of].
  destruct (decide (id' = id /\ key' = key)) as [[-> ->]|Hne].
  - rewrite decide_True by reflexivity. reflexivity.
  - rewrite decide_False; [reflexivity|].
    intros E. apply makeStorageItemKey_inj in E; [|assumption..].
    apply Hne. exact E.
Qed.

(** *** The state synchronisation point *)

(** X25. The state synchronisation point and the block height of the
    synchronisation are read back as they were put, without a panic;
    and as long as their two prefixes differ putting one does not
    change the other. *)
Theorem sync_heights_round_trip (dao : Simple) (p : Z) :
  (0 <= p < 2 ^ 32)%Z ->
  GetStateSyncPoint (PutStateSyncPoint dao p) = Read p /\
  GetStateSyncCurrentBlockHeight (PutStateSyncCurrentBlockHeight dao p) = Read p /\
  (SYSStateSyncPoint <> SYSStateSyncCurrentBlockHeight ->
   GetStateSyncCurrentBlockHeight (PutStateSyncPoint dao p)
     = GetStateSyncCurrentBlockHeight dao /\
   GetStateSyncPoint (PutStateSyncCurrentBlockHeight dao p)
     = GetStateSyncPoint dao).
Proof.
  intros Hp.
  assert (Hbuf : PutUint32 (make 4) 0 p = DAO.u32le p).
  { unfold PutUint32, make.
    change (replicate 4 0%Z) with ([] ++ replicate 4 0%Z ++ []).
    change 0 with (length (@nil Z)) at 1.
    rewrite copy_at_middle by reflexivity. apply app_nil_r. }
  assert (Hrd : Uint32 (DAO.u32le p) = Some p).
  { unfold Uint32. cbn [DAO.u32le length Nat.ltb Nat.leb].
    rewrite <- (app_nil_r (DAO.u32le p)), DAO.ReadU32LE_u32le by exact Hp.
    reflexivity. }
  unfold GetStateSyncPoint, GetStateSyncCurrentBlockHeight, PutStateSyncPoint,
    PutStateSyncCurrentBlockHeight, set_Store, DAO.Store_Get, DAO.Store_Put,
    KeyPrefix_Bytes.
  cbn [Store_of]. rewrite Hbuf.
  split; [rewrite decide_True by reflexivity; rewrite Hrd; reflexivity|].
  split; [rewrite decide_True by reflexivity; rewrite Hrd; reflexivity|].
  intros Hne.
  split; (rewrite decide_False; [reflexivity | intros E; inversion E; congruence]).
Qed.

(** *** Transfer logs *)

(** X26. A transfer log is read back under the account and index it
    was put under.  The index is written into the key from the last
    byte of the account on, so the key holds only the first 19 bytes of
    the account: the log is also read back under every account with
    the same first 19 bytes, and under no other account or index. *)
Theorem PutNEP17TransferLog_then_GetNEP17TransferLog
    (dao : Simple) (acc acc' : list Z) (index index' : Z) (lg : list Z) :
  length acc = Uint160Size -> length acc' = Uint160Size ->
  (0 <= index < 2 ^ 32)%Z -> (0 <= index' < 2 ^ 32)%Z ->
  GetNEP17TransferLog (PutNEP17TransferLog dao acc index lg) acc' index'
  = if decide (take 19 acc' = take 19 acc /\ index' = index) then inr lg
    else GetNEP17TransferLog dao acc' index'.
Proof.
  intros Ha Ha' Hi Hi'.
  unfold GetNEP17TransferLog, PutNEP17TransferLog, set_Store, DAO.Store_Get,
    DAO.Store_Put. cbn [Store_of].
  rewrite !getNEP17TransferLogKey_eq by assumption.
  destruct (decide (take 19 acc' = take 19 acc /\ index' = index)) as [[-> ->]|Hne].
  - rewrite decide_True by reflexivity. reflexivity.
  - rewrite decide_False; [reflexivity|].
    intros E. apply Hne.
    assert (E' : take 19 acc' ++ DAO.u32le index' ++ [0%Z]
                 = take 19 acc ++ DAO.u32le index ++ [0%Z]) by congruence.
    apply app_inj_1 in E' as [E1 E2].
    2:{ rewrite !length_take, Ha, Ha'. reflexivity. }
    split; [exact E1|].
    apply app_inj_1 in E2 as [E2 _]; [|reflexivity].
    apply u32le_inj; assumption.
Qed.

End Keys.

Lemma Version_round_trip_witness :
  FromBytes (mkVersion 0 false false false [])
    (Bytes (mkVersion 112 true false true [48; 46; 49]%Z))
  = (mkVersion 112 true false true [48; 46; 49]%Z, None) /\
  GetVersion 1
    (PutVersion 1 (mkSimple (mkVersion 0 false false false []) DAO.NewMemoryStore)
       (mkVersion 112 true false true [48; 46; 49]%Z))
  = (mkVersion 112 true false true [48; 46; 49]%Z, None).
Proof.
  apply (proj1 (Version_round_trip 1 (mkVersion 0 false false false [])
                  (mkVersion 112 true false true [48; 46; 49]%Z)
                  (mkSimple (mkVersion 0 false false false []) DAO.NewMemoryStore)
                  [])).
  simpl. intros H. repeat (apply elem_of_cons in H as [H|H]; [discriminate|]).
  inversion H.
Defined.

Lemma PutStorageItem_then_GetStorageItem_witness :
  GetStorageItem
    (PutStorageItem (mkSimple (mkVersion 112 false false false []) DAO.NewMemoryStore)
       (-1) [1%Z] [9%Z])
    (-1) [1%Z]
  = if decide ((-1)%Z = (-1)%Z /\ [1%Z] = [1%Z]) then Some [9%Z]
    else GetStorageItem (mkSimple (mkVersion 112 false false false []) DAO.NewMemoryStore)
           (-1) [1%Z].
Proof.
  apply (PutStorageItem_then_GetStorageItem
           (mkSimple (mkVersion 112 false false false []) DAO.NewMemoryStore)
           (-1) (-1) [1%Z] [1%Z] [9%Z]); lia.
Defined.

Lemma sync_heights_round_trip_witness :
  GetStateSyncPoint 3
    (PutStateSyncPoint 3
       (mkSimple (mkVersion 112 false false false []) DAO.NewMemoryStore) 70000)
  = Read 70000.
Proof.
  apply (sync_heights_round_trip 3 4
           (mkSimple (mkVersion 112 false false false []) DAO.NewMemoryStore) 70000).
  lia.
Defined.

(** Two accounts that differ in their last byte only. *)
Definition account_a : list Z := replicate 19 7%Z ++ [1%Z].
Definition account_b : list Z := replicate 19 7%Z ++ [2%Z].

Lemma PutNEP17TransferLog_then_GetNEP17TransferLog_witness :
  GetNEP17TransferLog 5
    (PutNEP17TransferLog 5
       (mkSimple (mkVersion 112 false false false []) DAO.NewMemoryStore)
       account_a 0 [42%Z])
    account_b 0
  = if decide (take 19 account_b = take 19 account_a /\ 0%Z = 0%Z) then inr [42%Z]
    else GetNEP17TransferLog 5
           (mkSimple (mkVersion 112 false false false []) DAO.NewMemoryStore)
           account_b 0.
Proof.
  apply (PutNEP17TransferLog_then_GetNEP17TransferLog 5
           (mkSimple (mkVersion 112 false false false []) DAO.NewMemoryStore)
           account_a account_b 0 0 [42%Z]); first [reflexivity | lia].
Defined.

End SimpleDAO.

(** ** The caching DAO (package dao) *)

Module CachedDAO.

Section Cached.

(** What the pointers of the caches point to, the script hash of an
    account and of a contract, and the wrapped DAO with the methods
    that [Cached] calls on it are declared outside the DAO's file: they
    are parameters here.  The wrapped DAO is a state that every call
    may change; a pointer that may be nil is an [option]. *)
Variables Account Contract NEP5Balances NEP5TransferLog : Type.
Variable Account_ScriptHash : Account -> list Z.
Variable Contract_ScriptHash : Contract -> list Z.
Variable D : Type.
Variable D_GetAccountStateOrNew : D -> list Z -> D * (option Account * option DAO.error).
Variable D_GetAccountState : D -> list Z -> D * (option Account * option DAO.error).
Variable D_GetContractState : D -> list Z -> D * (option Contract * option DAO.error).
Variable D_PutContractState : D -> Contract -> D * option DAO.error.
Variable D_DeleteContractState : D -> list Z -> D * option DAO.error.
Variable D_GetNEP5Balances : D -> list Z -> D * (option NEP5Balances * option DAO.error).
Variable D_GetNEP5TransferLog :
  D -> list Z -> Z -> D * (option NEP5TransferLog * option DAO.error).

(** [dao.Cached].  [PutAccountState] reads the script hash through its
    argument, so that only pointers that are not nil reach [accounts];
    the other maps can hold nil. *)
Record Cached := mkCached {
  DAO_of : D;
  accounts : gmap (list Z) Account;
  contracts : gmap (list Z) (option Contract);
  balances : gmap (list Z) (option NEP5Balances);
  transfers : gmap (list Z) (gmap Z (option NEP5TransferLog));
  dropNEP5Cache : bool
}.

Definition set_DAO (cd : Cached) (d : D) : Cached :=
  mkCached d (accounts cd) (contracts cd) (balances cd) (transfers cd)
           (dropNEP5Cache cd).

Definition set_contracts (cd : Cached) (m : gmap (list Z) (option Contract)) : Cached :=
  mkCached (DAO_of cd) (accounts cd) m (balances cd) (transfers cd)
           (dropNEP5Cache cd).

(** [Cached.GetAccountStateOrNew]. *)
Definition GetAccountStateOrNew (cd : Cached) (hash : list Z)
  : Cached * (option Account * option DAO.error) :=
  match accounts cd !! hash with
  | Some a => (cd, (Some a, None))
  | None =>
      let '(d, r) := D_GetAccountStateOrNew (DAO_of cd) hash in (set_DAO cd d, r)
  end.

(** [Cached.GetAccountState]. *)
Definition GetAccountState (cd : Cached) (hash : list Z)
  : Cached * (option Account * option DAO.error) :=
  match accounts cd !! hash with
  | Some a => (cd, (Some a, None))
  | None =>
      let '(d, r) := D_GetAccountState (DAO_of cd) hash in (set_DAO cd d, r)
  end.

(** [Cached.PutAccountState]. *)
Definition PutAccountState (cd : Cached) (a : Account) : Cached * option DAO.error :=
  (mkCached (DAO_of cd) (<[Account_ScriptHash a := a]> (accounts cd)) (contracts cd)
            (balances cd) (transfers cd) (dropNEP5Cache cd),
   None).

(** [Cached.GetContractState]. *)
Definition GetContractState (cd : Cached) (hash : list Z)
  : Cached * (option Contract * option DAO.error) :=
  match contracts cd !! hash with
  | Some (Some c) => (cd, (Some c, None))
  | _ =>
      let '(d, (cs, err)) := D_GetContractState (DAO_of cd) hash in
      let cd := set_DAO cd d in
      match err with
      | None => (set_contracts cd (<[hash := cs]> (contracts cd)), (cs, err))
      | Some _ => (cd, (cs, err))
      end
  end.

(** [Cached.PutContractState]. *)
Definition PutContractState (cd : Cached) (cs : Contract) : Cached * option DAO.error :=
  let cd := set_contracts cd (<[Contract_ScriptHash cs := Some cs]> (contracts cd)) in
  let '(d, err) := D_PutContractState (DAO_of cd) cs in
  (set_DAO cd d, err).

(** [Cached.DeleteContractState]. *)
Definition DeleteContractState (cd : Cached) (hash : list Z) : Cached * option DAO.error :=
  let cd := set_contracts cd (<[hash := None]> (contracts cd)) in
  let '(d, err) := D_DeleteContractState (DAO_of cd) hash in
  (set_DAO cd d, err).

(** [Cached.GetNEP5Balances]. *)
Definition GetNEP5Balances (cd : Cached) (acc : list Z)
  : Cached * (option NEP5Balances * option DAO.error) :=
  match balances cd !! acc with
  | Some (Some bs) => (cd, (Some bs, None))
  | _ =>
      let '(d, r) := D_GetNEP5Balances (DAO_of cd) acc in (set_DAO cd d, r)
  end.

(** [Cached.PutNEP5Balances]. *)
Definition PutNEP5Balances (cd : Cached) (acc : list Z) (bs : option NEP5Balances)
  : Cached * option DAO.error :=
  (mkCached (DAO_of cd) (accounts cd) (contracts cd) (<[acc := bs]> (balances cd))
            (transfers cd) (dropNEP5Cache cd),
   None).

(** [Cached.GetNEP5TransferLog]. *)
Definition GetNEP5TransferLog (cd : Cached) (acc : list Z) (index : Z)
  : Cached * (option NEP5TransferLog * option DAO.error) :=
  let ts := transfers cd !! acc in
  match ts with
  | Some m =>
      match m !! index with
      | Some (Some lg) => (cd, (Some lg, None))
      | _ =>
          let '(d, r) := D_GetNEP5TransferLog (DAO_of cd) acc index in
          (set_DAO cd d, r)
      end
  | None =>
      let '(d, r) := D_GetNEP5TransferLog (DAO_of cd) acc index in
      (set_DAO cd d, r)
  end.

(** [Cached.PutNEP5TransferLog]. *)
Definition PutNEP5TransferLog (cd : Cached) (acc : list Z) (index : Z)
    (bs : option NEP5TransferLog) : Cached * option DAO.error :=
  let ts := match transfers cd !! acc with
            | Some ts => ts
            | None => ∅
            end in
  (mkCached (DAO_of cd) (accounts cd) (contracts cd) (balances cd)
            (<[acc := <[index := bs]> ts]> (transfers cd)) (dropNEP5Cache cd),
   None).

(** X27. The write caches answer for what was put.  After
    [PutAccountState], [PutNEP5Balances] or [PutNEP5TransferLog] the
    matching getter returns the pointer that was put, with no error and
    without a call on the wrapped DAO, which the put did not touch
    either; what the getters return under another key is what they
    returned before.  Putting nil balances makes the getter ask the
    wrapped DAO. *)
Theorem write_caches_answer_for_their_puts
    (cd : Cached) (a : Account) (acc acc' : list Z) (bs : NEP5Balances)
    (index index' : Z) (lg : NEP5TransferLog) :
  (PutAccountState cd a).2 = None /\
  DAO_of (PutAccountState cd a).1 = DAO_of cd /\
  GetAccountState (PutAccountState cd a).1 (Account_ScriptHash a)
    = ((PutAccountState cd a).1, (Some a, None)) /\
  GetAccountStateOrNew (PutAccountState cd a).1 (Account_ScriptHash a)
    = ((PutAccountState cd a).1, (Some a, None)) /\
  (acc' <> Account_ScriptHash a ->
   (GetAccountState (PutAccountState cd a).1 acc').2 = (GetAccountState cd acc').2) /\
  DAO_of (PutNEP5Balances cd acc (Some bs)).1 = DAO_of cd /\
  GetNEP5Balances (PutNEP5Balances cd acc (Some bs)).1 acc
    = ((PutNEP5Balances cd acc (Some bs)).1, (Some bs, None)) /\
  (GetNEP5Balances (PutNEP5Balances cd acc None).1 acc).2
    = (D_GetNEP5Balances (DAO_of cd) acc).2 /\
  (acc' <> acc ->
   (GetNEP5Balances (PutNEP5Balances cd acc (Some bs)).1 acc').2
     = (GetNEP5Balances cd acc').2) /\
  DAO_of (PutNEP5TransferLog cd acc index (Some lg)).1 = DAO_of cd /\
  GetNEP5TransferLog (PutNEP5TransferLog cd acc index (Some lg)).1 acc index
    = ((PutNEP5TransferLog cd acc index (Some lg)).1, (Some lg, None)) /\
  (acc' <> acc \/ index' <> index ->
   (GetNEP5TransferLog (PutNEP5TransferLog cd acc index (Some lg)).1 acc' index').2
     = (GetNEP5TransferLog cd acc' index').2).
Proof.
  repeat split.
  - unfold GetAccountState, PutAccountState. cbn [fst accounts].
    rewrite lookup_insert_eq. reflexivity.
  - unfold GetAccountStateOrNew, PutAccountState. cbn [fst accounts].
    rewrite lookup_insert_eq. reflexivity.
  - intros Hne. unfold GetAccountState, PutAccountState. cbn [fst accounts DAO_of].
    rewrite lookup_insert_ne by congruence.
    destruct (accounts cd !! acc'); [reflexivity|].
    destruct (D_GetAccountState (DAO_of cd) acc'). reflexivity.
  - unfold GetNEP5Balances, PutNEP5Balances. cbn [fst balances].
    rewrite lookup_insert_eq. reflexivity.
  - unfold GetNEP5Balances, PutNEP5Balances. cbn [fst balances DAO_of].
    rewrite lookup_insert_eq.
    destruct (D_GetNEP5Balances (DAO_of cd) acc). reflexivity.
  - intros Hne. unfold GetNEP5Balances, PutNEP5Balances. cbn [fst balances DAO_of].
    rewrite lookup_insert_ne by congruence.
    destruct (balances cd !! acc') as [[?|]|]; try reflexivity;
      destruct (D_GetNEP5Balances (DAO_of cd) acc'); reflexivity.
  - unfold GetNEP5TransferLog, PutNEP5TransferLog. cbn [fst transfers].
    rewrite !lookup_insert_eq. reflexivity.
  - intros Hne. unfold GetNEP5TransferLog, PutNEP5TransferLog.
    cbn [fst transfers DAO_of].
    destruct (decide (acc' = acc)) as [->|Ha].
    + destruct Hne as [?|Hi]; [contradiction|].
      rewrite lookup_insert_eq, lookup_insert_ne by congruence.
      destruct (transfers cd !! acc) as [m|].
      * destruct (m !! index') as [[?|]|]; try reflexivity;
          destruct (D_GetNEP5TransferLog (DAO_of cd) acc index'); reflexivity.
      * rewrite lookup_empty.
        destruct (D_GetNEP5TransferLog (DAO_of cd) acc index'). reflexivity.
    + rewrite lookup_insert_ne by congruence.
      destruct (transfers cd !! acc') as [m|].
      * destruct (m !! index') as [[?|]|]; try reflexivity;
          destruct (D_GetNEP5TransferLog (DAO_of cd) acc' index'); reflexivity.
      * destruct (D_GetNEP5TransferLog (DAO_of cd) acc' index'). reflexivity.
Qed.

(** X28. The contract cache.  A contract that [GetContractState] has
    found is answered from the cache afterwards, with no call on the
    wrapped DAO; [PutContractState] caches the contract before it
    writes it through, so that it is answered from the cache even when
    the write fails; and after [DeleteContractState] the next
    [GetContractState] asks the wrapped DAO again. *)
Theorem contract_cache
    (cd : Cached) (hash : list Z) (cs : Contract) :
  ((GetContractState cd hash).2 = (Some cs, None) ->
   GetContractState (GetContractState cd hash).1 hash
     = ((GetContractState cd hash).1, (Some cs, None))) /\
  (PutContractState cd cs).2 = (D_PutContractState (DAO_of cd) cs).2 /\
  GetContractState (PutContractState cd cs).1 (Contract_ScriptHash cs)
    = ((PutContractState cd cs).1, (Some cs, None)) /\
  (DeleteContractState cd hash).2 = (D_DeleteContractState (DAO_of cd) hash).2 /\
  (GetContractState (DeleteContractState cd hash).1 hash).2
    = (D_GetContractState (D_DeleteContractState (DAO_of cd) hash).1 hash).2.
Proof.
  split; [|split; [|split; [|split]]].
  - unfold GetContractState.
    destruct (contracts cd !! hash) as [[c|]|] eqn:Ec.
    + cbn [fst snd]. intros E. inversion E; subst. rewrite Ec. reflexivity.
    + destruct (D_GetContractState (DAO_of cd) hash) as [d [c [e|]]];
        cbn [fst snd]; intros E; inversion E; subst.
      simpl. rewrite lookup_insert_eq. reflexivity.
    + destruct (D_GetContractState (DAO_of cd) hash) as [d [c [e|]]];
        cbn [fst snd]; intros E; inversion E; subst.
      simpl. rewrite lookup_insert_eq. reflexivity.
  - unfold PutContractState. cbn [DAO_of set_contracts].
    destruct (D_PutContractState (DAO_of cd) cs). reflexivity.
  - unfold PutContractState, GetContractState. cbn [DAO_of set_contracts].
    destruct (D_PutContractState (DAO_of cd) cs) as [d e].
    simpl. rewrite lookup_insert_eq. reflexivity.
  - unfold DeleteContractState. cbn [DAO_of set_contracts].
    destruct (D_DeleteContractState (DAO_of cd) hash). reflexivity.
  - unfold DeleteContractState, GetContractState. cbn [DAO_of set_contracts].
    destruct (D_DeleteContractState (DAO_of cd) hash) as [d e].
    simpl. rewrite lookup_insert_eq.
    destruct (D_GetContractState d hash) as [d' [c [e'|]]]; reflexivity.
Qed.

End Cached.

(** A wrapped DAO that knows one contract, the number 5 under the hash
    [5], and whose writes fail. *)
Definition lower_example : unit -> list Z -> unit * (option Z * option DAO.error) :=
  fun _ h => if decide (h = [5%Z]) then (tt, (Some 5%Z, None))
             else (tt, (None, Some DAO.ErrKeyNotFound)).

Lemma write_caches_answer_for_their_puts_witness :
  (GetAccountState Z Z Z Z unit lower_example
     (PutAccountState Z Z Z Z (fun a => [a]) unit
        (mkCached Z Z Z Z unit tt ∅ ∅ ∅ ∅ false) 8%Z).1 [3%Z]).2
  = (GetAccountState Z Z Z Z unit lower_example
       (mkCached Z Z Z Z unit tt ∅ ∅ ∅ ∅ false) [3%Z]).2.
Proof.
  refine (proj1 (proj2 (proj2 (proj2 (proj2
            (write_caches_answer_for_their_puts Z Z Z Z (fun a => [a]) unit
               lower_example lower_example lower_example
               (fun _ _ _ => (tt, (None, Some DAO.ErrKeyNotFound)))
               (mkCached Z Z Z Z unit tt ∅ ∅ ∅ ∅ false) 8%Z [1%Z] [3%Z] 0%Z
               0%Z 0%Z 0%Z))))) _).
  discriminate.
Defined.

Lemma contract_cache_witness :
  GetContractState Z Z Z Z unit lower_example
    (GetContractState Z Z Z Z unit lower_example
       (mkCached Z Z Z Z unit tt ∅ ∅ ∅ ∅ false) [5%Z]).1 [5%Z]
  = ((GetContractState Z Z Z Z unit lower_example
        (mkCached Z Z Z Z unit tt ∅ ∅ ∅ ∅ false) [5%Z]).1, (Some 5%Z, None)).
Proof.
  refine (proj1 (contract_cache Z Z Z Z (fun c => [c]) unit lower_example
                   (fun _ _ => (tt, Some (DAO.errExternal 1)))
                   (fun _ _ => (tt, Some (DAO.errExternal 1)))
                   (mkCached Z Z Z Z unit tt ∅ ∅ ∅ ∅ false) [5%Z] 5%Z) _).
  reflexivity.
Defined.

End CachedDAO.

(** ** Proofs of inclusion in the Merkle-Patricia trie (package mpt) *)

Module MPT.

(** The four kinds of node.  A branch has 17 children: one per nibble
    and the value slot; the hash of an empty hash node is [None]. *)
#[local] Unset Elimination Schemes.
Inductive Node :=
| LeafNode (value : list Z)
| BranchNode (Children : list Node)
| ExtensionNode (key : list Z) (next : Node)
| HashNode (hash : option (list Z)).
#[local] Set Elimination Schemes.

(** What the serialization of a node holds: its own data and the hashes
    of its children.  Hash nodes are not a persistent kind. *)
Inductive FlatNode :=
| FLeaf (value : list Z)
| FBranch (children : list (option (list Z)))
| FExtension (key : list Z) (next : option (list Z)).

Inductive error := ErrNotFound | ErrKeyNotFound | ErrDecode | ErrIndex.

Record Trie := mkTrie {
  root : Node;
  Store : gmap (list Z) (list Z)
}.

(** The index of the value slot of a branch. *)
Definition lastChild : nat := 16.

(** Modelled from the spec: [toNibbles] is declared outside the file of
    the proofs; the key is converted to its nibble expansion, the high
    nibble of each byte first. *)
Definition toNibbles (key : list Z) : list Z :=
  flat_map (fun b => [Z.shiftr b 4; Z.land b 15]) key.

(** Modelled from the spec: [splitPath] is declared outside the file of
    the proofs; a branch is indexed by the first nibble of the path, and
    by the value slot when the path is empty. *)
Definition splitPath (path : list Z) : nat * list Z :=
  match path with
  | [] => (lastChild, path)
  | x :: path' => (Z.to_nat x, path')
  end.

(** [bytes.HasPrefix]. *)
Definition HasPrefix (s prefix : list Z) : bool :=
  bool_decide (take (length prefix) s = prefix).

Definition unflatten (f : FlatNode) : Node :=
  match f with
  | FLeaf v => LeafNode v
  | FBranch hs => BranchNode (map HashNode hs)
  | FExtension k h => ExtensionNode k (HashNode h)
  end.

Section Hashing.

(** [hash.DoubleSha256], the canonical serialization of a node and its
    decoder are declared outside the file of the proofs: they are
    parameters here. *)
Variable DoubleSha256 : list Z -> list Z.
Variable encode : FlatNode -> list Z.
Variable decode : list Z -> option FlatNode.

(** Modelled from the spec: [Node.Bytes] is declared outside the file of
    the proofs; every non-hash node has a canonical serialization, in
    which a child stands as its hash, and the hash of the node is the
    double SHA-256 of that serialization.  A hash node is never
    serialized by the code below; its bytes are taken to be its hash. *)
Fixpoint Bytes (n : Node) : list Z :=
  match n with
  | LeafNode v => encode (FLeaf v)
  | BranchNode cs =>
      encode (FBranch (map (fun c =>
                match c with
                | HashNode h => h
                | _ => Some (DoubleSha256 (Bytes c))
                end) cs))
  | ExtensionNode k nx =>
      encode (FExtension k
                match nx with
                | HashNode h => h
                | _ => Some (DoubleSha256 (Bytes nx))
                end)
  | HashNode h => default [] h
  end.

(** [Node.Hash]. *)
Definition NodeHash (n : Node) : option (list Z) :=
  match n with
  | HashNode h => h
  | _ => Some (DoubleSha256 (Bytes n))
  end.

(** Modelled from the spec: [Trie.getFromStore] is declared outside the
    file of the proofs; nodes live in the store under their hash and a
    hash node is resolved by loading and decoding what is stored there. *)
Definition getFromStore (st : gmap (list Z) (list Z)) (h : list Z) : error + Node :=
  match st !! h with
  | None => inl ErrKeyNotFound
  | Some b =>
      match decode b with
      | None => inl ErrDecode
      | Some f => inr (unflatten f)
      end
  end.

(** [Trie.getProof].  The recursion of the source follows references
    into the store; [fuel] bounds its depth and [None] is the result
    when it runs out.  The proofs collected so far are threaded through
    the calls, as the source does with [*proofs]. *)
Fixpoint getProof (fuel : nat) (st : gmap (list Z) (list Z)) (curr : Node)
    (path : list Z) (proofs : list (list Z))
  : option ((error + Node) * list (list Z)) :=
  match fuel with
  | O => None
  | S fuel =>
      match curr with
      | LeafNode v =>
          if bool_decide (path = []) then Some (inr curr, proofs ++ [Bytes curr])
          else Some (inl ErrNotFound, proofs)
      | BranchNode cs =>
          let proofs := proofs ++ [Bytes curr] in
          let '(i, path) := splitPath path in
          match cs !! i with
          | None => Some (inl ErrIndex, proofs)
          | Some c =>
              match getProof fuel st c path proofs with
              | None => None
              | Some (inl err, proofs) => Some (inl err, proofs)
              | Some (inr r, proofs) => Some (inr (BranchNode (<[i := r]> cs)), proofs)
              end
          end
      | ExtensionNode key next =>
          if HasPrefix path key then
            let proofs := proofs ++ [Bytes curr] in
            match getProof fuel st next (drop (length key) path) proofs with
            | None => None
            | Some (inl err, proofs) => Some (inl err, proofs)
            | Some (inr r, proofs) => Some (inr (ExtensionNode key r), proofs)
            end
          else Some (inl ErrNotFound, proofs)
      | HashNode (Some h) =>
          match getFromStore st h with
          | inl err => Some (inl err, proofs)
          | inr r => getProof fuel st r path proofs
          end
      | HashNode None => Some (inl ErrNotFound, proofs)
      end
  end.

(** [Trie.GetProof]: the trie it leaves, the proof and the error. *)
Definition GetProof (fuel : nat) (t : Trie) (key : list Z)
  : option (Trie * list (list Z) * option error) :=
  let path := toNibbles key in
  match getProof fuel (Store t) (root t) path [] with
  | None => None
  | Some (inl err, proof) => Some (t, proof, Some err)
  | Some (inr r, proof) => Some (mkTrie r (Store t), proof, None)
  end.

(** Modelled from the spec: [Trie.getWithPath] is declared outside the
    file of the proofs; it is the standard radix descent, the same
    nibble descent as [getProof], and it ends with the value of the leaf
    it reaches, or with [ErrNotFound]: [Get] gives a value or NotFound,
    also when the store does not resolve a reference met on the way. *)
Fixpoint getWithPath (fuel : nat) (st : gmap (list Z) (list Z)) (curr : Node)
    (path : list Z) : option (error + list Z) :=
  match fuel with
  | O => None
  | S fuel =>
      match curr with
      | LeafNode v =>
          if bool_decide (path = []) then Some (inr v) else Some (inl ErrNotFound)
      | BranchNode cs =>
          let '(i, path) := splitPath path in
          match cs !! i with
          | None => Some (inl ErrIndex)
          | Some c => getWithPath fuel st c path
          end
      | ExtensionNode key next =>
          if HasPrefix path key
          then getWithPath fuel st next (drop (length key) path)
          else Some (inl ErrNotFound)
      | HashNode (Some h) =>
          match getFromStore st h with
          | inl _ => Some (inl ErrNotFound)
          | inr r => getWithPath fuel st r path
          end
      | HashNode None => Some (inl ErrNotFound)
      end
  end.

(** Modelled from the spec: [Trie.Get] is declared outside the file of
    the proofs; the key is converted to nibbles before the descent. *)
Definition Get (fuel : nat) (t : Trie) (key : list Z) : option (error + list Z) :=
  getWithPath fuel (Store t) (root t) (toNibbles key).

(** The store that [VerifyProof] fills: every proof element under its
    own double SHA-256. *)
Definition proof_store (proofs : list (list Z)) : gmap (list Z) (list Z) :=
  foldl (fun st p => <[DoubleSha256 p := p]> st) ∅ proofs.

(** [VerifyProof]: the value and whether the descent ended without an
    error; [None] when the fuel runs out. *)
Definition VerifyProof (fuel : nat) (rh : list Z) (key : list Z)
    (proofs : list (list Z)) : option (list Z * bool) :=
  let path := toNibbles key in
  let st := proof_store proofs in
  match getWithPath fuel st (HashNode (Some rh)) path with
  | None => None
  | Some (inr bs) => Some (bs, true)
  | Some (inl _) => Some ([], false)
  end.

(** *** What the verifier's descent needs *)

(** The store is content-addressed: what is stored under a hash is the
    canonical serialization of a node, and that hash is its double
    SHA-256. *)
Definition store_ok (st : gmap (list Z) (list Z)) : Prop :=
  forall h b, st !! h = Some b ->
    DoubleSha256 b = h /\ exists f, b = encode f.

(** No two different elements of the proof have the same hash. *)
Definition no_collision (proofs : list (list Z)) : Prop :=
  forall p q, p ∈ proofs -> q ∈ proofs ->
    DoubleSha256 p = DoubleSha256 q -> p = q.

(** The reference [h] resolves to the supplied proof element [p]: [p]
    is addressed by [h], its own double SHA-256, and no later element
    has taken its place. *)
Definition resolves (proofs : list (list Z)) (h p : list Z) : Prop :=
  exists l1 l2, proofs = l1 ++ p :: l2 /\ DoubleSha256 p = h /\
                forall q, q ∈ l2 -> DoubleSha256 q <> h.

(** The nibble descent of the verifier, as the spec words it: every
    reference met on the way resolves to a supplied proof element, and
    the descent ends at a leaf, whose value it yields. *)
Inductive descent (proofs : list (list Z)) : Node -> list Z -> list Z -> Prop :=
| descent_leaf v : descent proofs (LeafNode v) [] v
| descent_branch cs path i path' c v :
    splitPath path = (i, path') -> cs !! i = Some c ->
    descent proofs c path' v ->
    descent proofs (BranchNode cs) path v
| descent_extension key nx path v :
    HasPrefix path key = true ->
    descent proofs nx (drop (length key) path) v ->
    descent proofs (ExtensionNode key nx) path v
| descent_hash h p f path v :
    resolves proofs h p -> decode p = Some f ->
    descent proofs (unflatten f) path v ->
    descent proofs (HashNode (Some h)) path v.

Lemma getWithPath_S fuel st curr path :
  getWithPath (S fuel) st curr path =
  match curr with
  | LeafNode v =>
      if bool_decide (path = []) then Some (inr v) else Some (inl ErrNotFound)
  | BranchNode cs =>
      match cs !! (splitPath path).1 with
      | None => Some (inl ErrIndex)
      | Some c => getWithPath fuel st c (splitPath path).2
      end
  | ExtensionNode key next =>
      if HasPrefix path key
      then getWithPath fuel st next (drop (length key) path)
      else Some (inl ErrNotFound)
  | HashNode (Some h) =>
      match getFromStore st h with
      | inl _ => Some (inl ErrNotFound)
      | inr r => getWithPath fuel st r path
      end
  | HashNode None => Some (inl ErrNotFound)
  end.
Proof.
  destruct curr as [v|cs|key nx|[h|]]; try reflexivity.
  simpl. destruct (splitPath path). reflexivity.
Qed.

Lemma getProof_S fuel st curr path proofs :
  getProof (S fuel) st curr path proofs =
  match curr with
  | LeafNode v =>
      if bool_decide (path = []) then Some (inr curr, proofs ++ [Bytes curr])
      else Some (inl ErrNotFound, proofs)
  | BranchNode cs =>
      match cs !! (splitPath path).1 with
      | None => Some (inl ErrIndex, proofs ++ [Bytes curr])
      | Some c =>
          match getProof fuel st c (splitPath path).2 (proofs ++ [Bytes curr]) with
          | None => None
          | Some (inl err, proofs) => Some (inl err, proofs)
          | Some (inr r, proofs) =>
              Some (inr (BranchNode (<[(splitPath path).1 := r]> cs)), proofs)
          end
      end
  | ExtensionNode key next =>
      if HasPrefix path key then
        match getProof fuel st next (drop (length key) path) (proofs ++ [Bytes curr]) with
        | None => None
        | Some (inl err, proofs) => Some (inl err, proofs)
        | Some (inr r, proofs) => Some (inr (ExtensionNode key r), proofs)
        end
      else Some (inl ErrNotFound, proofs)
  | HashNode (Some h) =>
      match getFromStore st h with
      | inl err => Some (inl err, proofs)
      | inr r => getProof fuel st r path proofs
      end
  | HashNode None => Some (inl ErrNotFound, proofs)
  end.
Proof.
  destruct curr as [v|cs|key nx|[h|]]; try reflexivity.
  simpl. destruct (splitPath path). reflexivity.
Qed.

(** More fuel does not change a result. *)
Lemma getWithPath_mono fuel : forall fuel' st curr path x,
  fuel <= fuel' ->
  getWithPath fuel st curr path = Some x ->
  getWithPath fuel' st curr path = Some x.
Proof.
  induction fuel as [|fuel IH]; intros fuel' st curr path x Hle H;
    [discriminate|].
  destruct fuel' as [|fuel']; [lia|].
  rewrite getWithPath_S in H |- *.
  destruct curr as [v|cs|key nx|[h|]]; try exact H.
  - destruct (cs !! _); [|exact H]. apply (IH fuel'); [lia | exact H].
  - destruct (HasPrefix path key); [|exact H]. apply (IH fuel'); [lia | exact H].
  - destruct (getFromStore st h); [exact H|]. apply (IH fuel'); [lia | exact H].
Qed.

Lemma Bytes_branch cs : Bytes (BranchNode cs) = encode (FBranch (map NodeHash cs)).
Proof. reflexivity. Qed.

Lemma Bytes_extension k nx :
  Bytes (ExtensionNode k nx) = encode (FExtension k (NodeHash nx)).
Proof. reflexivity. Qed.

Lemma Bytes_unflatten f : Bytes (unflatten f) = encode f.
Proof.
  destruct f as [v|hs|k h]; simpl; try reflexivity.
  f_equal. f_equal. rewrite map_map. simpl. apply map_id.
Qed.

Lemma NodeHash_unflatten f :
  NodeHash (unflatten f) = Some (DoubleSha256 (encode f)).
Proof. rewrite <- Bytes_unflatten. destruct f; reflexivity. Qed.

Lemma proof_store_snoc proofs p :
  proof_store (proofs ++ [p]) = <[DoubleSha256 p := p]> (proof_store proofs).
Proof. unfold proof_store. rewrite foldl_app. reflexivity. Qed.

Lemma proof_store_resolves proofs h p :
  proof_store proofs !! h = Some p <-> resolves proofs h p.
Proof.
  revert p. induction proofs as [|q proofs IH] using rev_ind; intros p.
  - unfold proof_store, resolves. simpl. rewrite lookup_empty. split; [discriminate|].
    intros (l1 & l2 & E & _). destruct l1; discriminate.
  - rewrite proof_store_snoc.
    destruct (decide (DoubleSha256 q = h)) as [Eq|Hne].
    + rewrite Eq, lookup_insert_eq. split.
      * intros E; inversion E; subst p. exists proofs, [].
        split; [reflexivity|]. split; [exact Eq|]. intros x Hx. inversion Hx.
      * intros (l1 & l2 & E & Hp & Hl2).
        destruct l2 as [|y l2 _] using rev_ind.
        { apply app_inj_tail in E as [_ ->]. reflexivity. }
        rewrite app_comm_cons, app_assoc in E.
        apply app_inj_tail in E as [_ ->].
        exfalso. apply (Hl2 y); [|exact Eq]. apply elem_of_app. right. left.
    + rewrite lookup_insert_ne by exact Hne. rewrite IH. split.
      * intros (l1 & l2 & -> & Hp & Hl2). exists l1, (l2 ++ [q]).
        split; [rewrite <- app_assoc; reflexivity|]. split; [exact Hp|].
        intros x Hx. apply elem_of_app in Hx as [Hx|Hx]; [auto|].
        apply list_elem_of_singleton in Hx. subst x. exact Hne.
      * intros (l1 & l2 & E & Hp & Hl2).
        destruct l2 as [|y l2 _] using rev_ind.
        { apply app_inj_tail in E as [_ ->]. contradiction. }
        rewrite app_comm_cons, app_assoc in E.
        apply app_inj_tail in E as [-> ->].
        exists l1, l2. split; [reflexivity|]. split; [exact Hp|].
        intros x Hx. apply Hl2. apply elem_of_app. left. exact Hx.
Qed.

Lemma proof_store_lookup proofs p :
  no_collision proofs -> p ∈ proofs ->
  proof_store proofs !! DoubleSha256 p = Some p.
Proof.
  intros Hnc Hp. apply proof_store_resolves.
  revert Hnc Hp. induction proofs as [|q proofs IH] using rev_ind; intros Hnc Hp.
  - inversion Hp.
  - destruct (decide (DoubleSha256 q = DoubleSha256 p)) as [E|Hne].
    + assert (q = p).
      { apply Hnc; [apply elem_of_app; right; left | exact Hp | exact E]. }
      subst q. exists proofs, []. split; [reflexivity|]. split; [reflexivity|].
      intros x Hx. inversion Hx.
    + apply elem_of_app in Hp as [Hp|Hp].
      2:{ apply list_elem_of_singleton in Hp. subst. contradiction. }
      destruct IH as (l1 & l2 & -> & _ & Hl2); [|exact Hp|].
      { intros a b Ha Hb. apply Hnc; apply elem_of_app; auto. }
      exists l1, (l2 ++ [q]). split; [rewrite <- app_assoc; reflexivity|].
      split; [reflexivity|].
      intros x Hx. apply elem_of_app in Hx as [Hx|Hx]; [auto|].
      apply list_elem_of_singleton in Hx. subst x. exact Hne.
Qed.

(** *** The round trip *)

Section RoundTrip.

Hypothesis decode_encode : forall f, decode (encode f) = Some f.

Lemma getFromStore_ok st h r :
  store_ok st -> getFromStore st h = inr r ->
  exists f, r = unflatten f /\ st !! h = Some (encode f) /\
            DoubleSha256 (encode f) = h.
Proof.
  intros Hst. unfold getFromStore.
  destruct (st !! h) as [b|] eqn:Eb; [|discriminate].
  destruct (Hst h b Eb) as [Hh [f ->]].
  rewrite decode_encode. intros E; inversion E; subst r. eauto.
Qed.

Lemma getFromStore_proof sp f :
  sp !! DoubleSha256 (encode f) = Some (encode f) ->
  getFromStore sp (DoubleSha256 (encode f)) = inr (unflatten f).
Proof.
  intros E. unfold getFromStore. rewrite E, decode_encode. reflexivity.
Qed.

(** A descent of [getWithPath] that finds a value is one that
    [getProof] completes, and the nodes it collects let the verifier
    repeat the descent from the hash of the node. *)
Lemma getProof_complete st (Hst : store_ok st) fuel :
  forall curr path acc v,
  getWithPath fuel st curr path = Some (inr v) ->
  exists r ps h,
    getProof fuel st curr path acc = Some (inr r, acc ++ ps) /\
    NodeHash curr = Some h /\
    forall sp,
      (forall p, p ∈ ps -> sp !! DoubleSha256 p = Some p) ->
      getWithPath (2 * fuel) sp (HashNode (Some h)) path = Some (inr v).
Proof.
  induction fuel as [|fuel IH]; intros curr path acc v Hget; [discriminate|].
  rewrite getWithPath_S in Hget. rewrite getProof_S.
  replace (2 * S fuel) with (S (S (2 * fuel))) by lia.
  destruct curr as [v0|cs|key nx|[h0|]].
  - (* leaf *)
    case_bool_decide as Hp; [|discriminate]. inversion Hget; subst v0 path.
    exists (LeafNode v), [Bytes (LeafNode v)], (DoubleSha256 (Bytes (LeafNode v))).
    split; [reflexivity|]. split; [reflexivity|].
    intros sp Hsp. rewrite getWithPath_S. cbv beta iota.
    change (Bytes (LeafNode v)) with (encode (FLeaf v)) in *.
    rewrite getFromStore_proof by (apply Hsp; left).
    rewrite getWithPath_S. reflexivity.
  - (* branch *)
    destruct (cs !! (splitPath path).1) as [c|] eqn:Ec; [|discriminate].
    destruct (IH c (splitPath path).2 (acc ++ [Bytes (BranchNode cs)]) v Hget)
      as (r & ps & hc & Hgp & Hhc & Hsp).
    rewrite Hgp.
    exists (BranchNode (<[(splitPath path).1 := r]> cs)),
           (Bytes (BranchNode cs) :: ps),
           (DoubleSha256 (Bytes (BranchNode cs))).
    split; [rewrite <- app_assoc; reflexivity|]. split; [reflexivity|].
    intros sp Hp. rewrite getWithPath_S. cbv beta iota.
    rewrite Bytes_branch in *.
    rewrite getFromStore_proof by (apply Hp; left).
    rewrite getWithPath_S. cbn [unflatten].
    rewrite !list_lookup_fmap, Ec. cbn [fmap option_fmap option_map]. rewrite Hhc.
    apply Hsp. intros p Hin. apply Hp. right. exact Hin.
  - (* extension *)
    destruct (HasPrefix path key) eqn:Epre; [|discriminate].
    destruct (IH nx (drop (length key) path)
                (acc ++ [Bytes (ExtensionNode key nx)]) v Hget)
      as (r & ps & hc & Hgp & Hhc & Hsp).
    rewrite Hgp.
    exists (ExtensionNode key r),
           (Bytes (ExtensionNode key nx) :: ps),
           (DoubleSha256 (Bytes (ExtensionNode key nx))).
    split; [rewrite <- app_assoc; reflexivity|]. split; [reflexivity|].
    intros sp Hp. rewrite getWithPath_S. cbv beta iota.
    rewrite Bytes_extension in *.
    rewrite getFromStore_proof by (apply Hp; left).
    rewrite getWithPath_S. cbn [unflatten]. rewrite Epre, Hhc.
    apply Hsp. intros p Hin. apply Hp. right. exact Hin.
  - (* hash node *)
    destruct (getFromStore st h0) as [err|r0] eqn:Er0; [discriminate|].
    destruct (getFromStore_ok st h0 r0 Hst Er0) as (f & -> & _ & Hh).
    destruct (IH (unflatten f) path acc v Hget) as (r & ps & h' & Hgp & Hh' & Hsp).
    exists r, ps, h0. split; [exact Hgp|]. split; [reflexivity|].
    intros sp Hp.
    rewrite NodeHash_unflatten in Hh'.
    assert (h' = h0) by congruence. subst h'.
    apply (getWithPath_mono (2 * fuel)); [lia|]. apply Hsp, Hp.
  - discriminate.
Qed.

End RoundTrip.

(** *** The descent of the verifier *)

Lemma getWithPath_descent proofs fuel : forall curr path v,
  getWithPath fuel (proof_store proofs) curr path = Some (inr v) ->
  descent proofs curr path v.
Proof.
  induction fuel as [|fuel IH]; intros curr path v H; [discriminate|].
  rewrite getWithPath_S in H.
  destruct curr as [v0|cs|key nx|[h|]]; try discriminate.
  - case_bool_decide as Hp; [|discriminate]. inversion H; subst. constructor.
  - destruct (cs !! (splitPath path).1) as [c|] eqn:Ec; [|discriminate].
    eapply descent_branch; [apply surjective_pairing | exact Ec | apply IH, H].
  - destruct (HasPrefix path key) eqn:Epre; [|discriminate].
    apply descent_extension; [exact Epre | apply IH, H].
  - unfold getFromStore in H.
    destruct (proof_store proofs !! h) as [b|] eqn:Eb; [|discriminate].
    destruct (decode b) as [f|] eqn:Ef; [|discriminate].
    eapply descent_hash; [apply proof_store_resolves, Eb | exact Ef | apply IH, H].
Qed.

Lemma descent_getWithPath proofs curr path v :
  descent proofs curr path v ->
  exists fuel, getWithPath fuel (proof_store proofs) curr path = Some (inr v).
Proof.
  induction 1 as [v|cs path i path' c v Hs Hc _ [fuel IH]
                 |key nx path v Hpre _ [fuel IH]
                 |h p f path v Hres Hdec _ [fuel IH]];
    [exists 1 | exists (S fuel) ..]; rewrite getWithPath_S.
  - reflexivity.
  - rewrite Hs. simpl. rewrite Hc. exact IH.
  - rewrite Hpre. exact IH.
  - unfold getFromStore. apply proof_store_resolves in Hres.
    rewrite Hres, Hdec. exact IH.
Qed.

(** C4. For a trie over a content-addressed store, with root hash [r],
    and a key that [Get] finds with value [v]: [GetProof] succeeds, and
    unless two elements of its proof collide under the hash,
    [VerifyProof] on that proof returns [v] and true, with any fuel from
    twice that of the descent on.  And [VerifyProof] returns a value and
    true, for some fuel, exactly when the descent from the root hash
    resolves every reference it meets to a supplied proof element and
    ends at a leaf with that value. *)
Theorem C4_proof_round_trip
    (decode_encode : forall f, decode (encode f) = Some f)
    (t : Trie) (r key v : list Z) (fuel : nat)
    (rh : list Z) (proofs : list (list Z)) (bs : list Z) :
  (store_ok (Store t) ->
   NodeHash (root t) = Some r ->
   Get fuel t key = Some (inr v) ->
   exists t' proof,
     GetProof fuel t key = Some (t', proof, None) /\
     (no_collision proof ->
      forall fuel', 2 * fuel <= fuel' ->
      VerifyProof fuel' r key proof = Some (v, true))) /\
  ((exists fuel', VerifyProof fuel' rh key proofs = Some (bs, true)) <->
   descent proofs (HashNode (Some rh)) (toNibbles key) bs).
Proof.
  split.
  - intros Hst Hr Hget. unfold Get in Hget. unfold GetProof.
    destruct (getProof_complete decode_encode (Store t) Hst fuel (root t)
                (toNibbles key) [] v Hget) as (r' & ps & h & Hgp & Hh & Hsp).
    rewrite Hgp. simpl. exists (mkTrie r' (Store t)), ps.
    split; [reflexivity|].
    intros Hnc fuel' Hfuel. unfold VerifyProof.
    assert (h = r) by congruence. subst h.
    rewrite (getWithPath_mono (2 * fuel) fuel' _ _ _ (inr v) Hfuel); [reflexivity|].
    apply Hsp. intros p Hp. apply proof_store_lookup; assumption.
  - unfold VerifyProof. split.
    + intros [fuel' H].
      destruct (getWithPath fuel' _ _ _) as [[e|x]|] eqn:E; try discriminate.
      inversion H; subst x. eapply getWithPath_descent, E.
    + intros Hd. destruct (descent_getWithPath _ _ _ _ Hd) as [fuel' E].
      exists fuel'. rewrite E. reflexivity.
Qed.

(** *** [GetProof] and the trie it leaves *)

Lemma getProof_mono fuel : forall fuel' st curr path acc x,
  fuel <= fuel' ->
  getProof fuel st curr path acc = Some x ->
  getProof fuel' st curr path acc = Some x.
Proof.
  induction fuel as [|fuel IH]; intros fuel' st curr path acc x Hle H;
    [discriminate|].
  destruct fuel' as [|fuel']; [lia|].
  rewrite getProof_S in H |- *.
  destruct curr as [v|cs|key nx|[h|]]; try exact H.
  - destruct (cs !! _); [|exact H].
    destruct (getProof fuel st n _ _) as [y|] eqn:E; [|discriminate].
    rewrite (IH fuel' _ _ _ _ y ltac:(lia) E). exact H.
  - destruct (HasPrefix path key); [|exact H].
    destruct (getProof fuel st nx _ _) as [y|] eqn:E; [|discriminate].
    rewrite (IH fuel' _ _ _ _ y ltac:(lia) E). exact H.
  - destruct (getFromStore st h); [exact H|]. apply (IH fuel'); [lia | exact H].
Qed.

(** The error of [Get] where [getProof] fails with [err]: the error of
    the store on a reference that it does not resolve is reported by
    [Get] as [ErrNotFound]. *)
Definition Get_error (err : error) : error :=
  match err with
  | ErrKeyNotFound | ErrDecode => ErrNotFound
  | _ => err
  end.

(** [getProof] follows the descent of [getWithPath]: it fails where the
    descent fails, and where the descent finds a value it appends to
    the proof the nodes it passes, the leaf of the value last. *)
Lemma getProof_getWithPath st fuel : forall curr path acc,
  match getProof fuel st curr path acc with
  | None => getWithPath fuel st curr path = None
  | Some (inl err, _) => getWithPath fuel st curr path = Some (inl (Get_error err))
  | Some (inr _, ps) =>
      exists v ps', getWithPath fuel st curr path = Some (inr v) /\
                    ps = acc ++ ps' ++ [encode (FLeaf v)]
  end.
Proof.
  induction fuel as [|fuel IH]; intros curr path acc; [reflexivity|].
  rewrite getProof_S, getWithPath_S.
  destruct curr as [v|cs|key nx|[h|]]; try reflexivity.
  - case_bool_decide; [|reflexivity]. exists v, []. split; reflexivity.
  - destruct (cs !! _) as [c|]; [|reflexivity].
    specialize (IH c (splitPath path).2 (acc ++ [Bytes (BranchNode cs)])).
    destruct (getProof fuel st c _ _) as [[[err|r] ps]|]; try exact IH.
    destruct IH as (v & ps' & Hg & ->).
    exists v, (Bytes (BranchNode cs) :: ps'). split; [exact Hg|].
    rewrite <- app_assoc. reflexivity.
  - destruct (HasPrefix path key); [|reflexivity].
    specialize (IH nx (drop (length key) path) (acc ++ [Bytes (ExtensionNode key nx)])).
    destruct (getProof fuel st nx _ _) as [[[err|r] ps]|]; try exact IH.
    destruct IH as (v & ps' & Hg & ->).
    exists v, (Bytes (ExtensionNode key nx) :: ps'). split; [exact Hg|].
    rewrite <- app_assoc. reflexivity.
  - unfold getFromStore. destruct (st !! h) as [b|]; [|reflexivity].
    destruct (decode b) as [f|]; [|reflexivity]. apply IH.
Qed.

(** X19. [GetProof] succeeds exactly where [Get] finds a value, and
    the serialized leaf of that value is then the last element of its
    proof, so that no successful proof is empty.  Where they fail
    [GetProof] leaves the trie as it was and the two errors differ in
    one case: on a reference that the store does not resolve
    [GetProof] returns the error of the store and [Get] returns
    [ErrNotFound]. *)
Theorem GetProof_follows_Get (fuel : nat) (t : Trie) (key : list Z) :
  match GetProof fuel t key with
  | None => Get fuel t key = None
  | Some (t', _, Some err) =>
      Get fuel t key = Some (inl (Get_error err)) /\ t' = t
  | Some (t', proof, None) =>
      exists v proof',
        Get fuel t key = Some (inr v) /\
        proof = proof' ++ [encode (FLeaf v)] /\
        Store t' = Store t
  end.
Proof.
  unfold GetProof, Get.
  pose proof (getProof_getWithPath (Store t) fuel (root t) (toNibbles key) []) as H.
  destruct (getProof fuel (Store t) (root t) (toNibbles key) [])
    as [[[err|r] ps]|]; [split; [exact H | reflexivity]| |exact H].
  destruct H as (v & ps' & Hg & ->). exists v, ps'. auto.
Qed.

Section RootHash.

Hypothesis decode_encode : forall f, decode (encode f) = Some f.
Variable st : gmap (list Z) (list Z).
Hypothesis Hst : store_ok st.

Lemma NodeHash_insert cs i c r :
  cs !! i = Some c -> NodeHash r = NodeHash c ->
  map NodeHash (<[i := r]> cs) = map NodeHash cs.
Proof.
  intros Hc Hr.
  change (map NodeHash (<[i := r]> cs)) with (NodeHash <$> <[i := r]> cs).
  rewrite list_fmap_insert, Hr. apply list_insert_id.
  rewrite list_lookup_fmap, Hc. reflexivity.
Qed.

(** The node that [getProof] returns has the hash of the node it was
    given, and the same serialization unless that was a reference. *)
Lemma getProof_hash fuel : forall curr path acc r ps,
  getProof fuel st curr path acc = Some (inr r, ps) ->
  NodeHash r = NodeHash curr.
Proof.
  induction fuel as [|fuel IH]; intros curr path acc r ps H; [discriminate|].
  rewrite getProof_S in H.
  destruct curr as [v|cs|key nx|[h|]]; try discriminate.
  - case_bool_decide; [|discriminate]. inversion H; subst. reflexivity.
  - destruct (cs !! _) as [c|] eqn:Ec; [|discriminate].
    destruct (getProof fuel st c _ _) as [[[err|r'] ps']|] eqn:E; try discriminate.
    inversion H; subst r ps. apply IH in E.
    unfold NodeHash. rewrite !Bytes_branch.
    rewrite (NodeHash_insert _ _ _ _ Ec E). reflexivity.
  - destruct (HasPrefix path key); [|discriminate].
    destruct (getProof fuel st nx _ _) as [[[err|r'] ps']|] eqn:E; try discriminate.
    inversion H; subst r ps. apply IH in E.
    unfold NodeHash. rewrite !Bytes_extension, E. reflexivity.
  - destruct (getFromStore st h) as [err|r0] eqn:Er0; [discriminate|].
    destruct (getFromStore_ok decode_encode st h r0 Hst Er0) as (f & -> & _ & Hh).
    apply IH in H. rewrite H, NodeHash_unflatten, Hh. reflexivity.
Qed.

(** On the node that [getProof] returns, [getProof] makes the same
    descent again, collects the same proof and returns the node as it
    is. *)
Lemma getProof_again fuel : forall curr path acc r ps,
  getProof fuel st curr path acc = Some (inr r, ps) ->
  getProof fuel st r path acc = Some (inr r, ps).
Proof.
  induction fuel as [|fuel IH]; intros curr path acc r ps H; [discriminate|].
  rewrite getProof_S in H.
  destruct curr as [v|cs|key nx|[h|]]; try discriminate.
  - case_bool_decide as Hp; [|discriminate]. inversion H; subst r ps.
    rewrite getProof_S. rewrite bool_decide_eq_true_2 by exact Hp. reflexivity.
  - destruct (cs !! _) as [c|] eqn:Ec; [|discriminate].
    destruct (getProof fuel st c _ _) as [[[err|r'] ps']|] eqn:E; try discriminate.
    inversion H; subst r ps.
    pose proof (getProof_hash _ _ _ _ _ _ E) as Hh.
    rewrite getProof_S.
    rewrite list_lookup_insert_eq by (apply lookup_lt_Some in Ec; exact Ec).
    rewrite !Bytes_branch, (NodeHash_insert _ _ _ _ Ec Hh).
    rewrite <- Bytes_branch. rewrite (IH _ _ _ _ _ E).
    rewrite list_insert_insert_eq. reflexivity.
  - destruct (HasPrefix path key) eqn:Epre; [|discriminate].
    destruct (getProof fuel st nx _ _) as [[[err|r'] ps']|] eqn:E; try discriminate.
    inversion H; subst r ps.
    pose proof (getProof_hash _ _ _ _ _ _ E) as Hh.
    rewrite getProof_S, Epre.
    rewrite !Bytes_extension, Hh. rewrite <- Bytes_extension.
    rewrite (IH _ _ _ _ _ E). reflexivity.
  - destruct (getFromStore st h) as [err|r0] eqn:Er0; [discriminate|].
    apply IH in H. apply (getProof_mono fuel); [lia | exact H].
Qed.

End RootHash.

(** X20. Over a content-addressed store a successful [GetProof] leaves
    a trie with the same store and the same root hash, the references
    on the path replaced by the nodes they stand for; and [GetProof] of
    the same key on that trie returns the same proof and leaves that
    trie as it is. *)
Theorem GetProof_keeps_the_root_hash
    (decode_encode : forall f, decode (encode f) = Some f)
    (fuel : nat) (t t' : Trie) (key : list Z) (proof : list (list Z)) :
  store_ok (Store t) ->
  GetProof fuel t key = Some (t', proof, None) ->
  Store t' = Store t /\
  NodeHash (root t') = NodeHash (root t) /\
  GetProof fuel t' key = Some (t', proof, None).
Proof.
  intros Hst. unfold GetProof.
  destruct (getProof fuel (Store t) (root t) (toNibbles key) [])
    as [[[err|r] ps]|] eqn:E; try discriminate.
  intros H; inversion H; subst t' proof. simpl.
  split; [reflexivity|].
  split; [exact (getProof_hash decode_encode _ Hst _ _ _ _ _ _ E)|].
  rewrite (getProof_again decode_encode _ Hst _ _ _ _ _ _ E). reflexivity.
Qed.

(** *** What a proof must hold *)

(** A node that the verifier meets: a reference, or a node decoded from
    an element of the proof. *)
Definition proof_node (proofs : list (list Z)) (n : Node) : Prop :=
  (exists h, n = HashNode h) \/
  (exists p f, p ∈ proofs /\ decode p = Some f /\ n = unflatten f).

Lemma resolves_elem proofs h p : resolves proofs h p -> p ∈ proofs.
Proof.
  intros (l1 & l2 & -> & _). apply elem_of_app. right. left.
Qed.

Lemma descent_leaf_in_proof proofs curr path v :
  descent proofs curr path v -> proof_node proofs curr ->
  exists p, p ∈ proofs /\ decode p = Some (FLeaf v).
Proof.
  induction 1 as [v|cs path i path' c v Hs Hc _ IH
                 |key nx path v Hpre _ IH
                 |h p f path v Hres Hdec _ IH]; intros Hn.
  - destruct Hn as [[h E]|(p & f & Hp & Hd & E)]; [discriminate|].
    destruct f; try discriminate. inversion E; subst. eauto.
  - apply IH. destruct Hn as [[h E]|(p & f & Hp & Hd & E)]; [discriminate|].
    destruct f as [|hs|]; try discriminate. inversion E; subst cs.
    rewrite list_lookup_fmap in Hc.
    destruct (hs !! i) as [h|]; [|discriminate]. inversion Hc. left. eauto.
  - apply IH. destruct Hn as [[h E]|(p & f & Hp & Hd & E)]; [discriminate|].
    destruct f as [| |k h]; try discriminate. inversion E; subst. left. eauto.
  - apply IH. right. exists p, f. split; [eapply resolves_elem; eauto|]. auto.
Qed.

(** X21. [VerifyProof] accepts only what the proof holds: when it
    returns a value and true, an element of the proof has the root hash
    as its double SHA-256 and an element of the proof decodes to a leaf
    with that value.  An empty proof is never accepted. *)
Theorem VerifyProof_uses_the_proof
    (fuel : nat) (rh key : list Z) (proofs : list (list Z)) (bs : list Z) :
  (VerifyProof fuel rh key proofs = Some (bs, true) ->
   (exists p, p ∈ proofs /\ DoubleSha256 p = rh) /\
   (exists q, q ∈ proofs /\ decode q = Some (FLeaf bs))) /\
  VerifyProof (S fuel) rh key [] = Some ([], false).
Proof.
  split; [|reflexivity].
  unfold VerifyProof.
  destruct (getWithPath fuel _ _ _) as [[e|x]|] eqn:E; try discriminate.
  intros H; inversion H; subst x.
  apply getWithPath_descent in E.
  split.
  - inversion E as [| | |h p f path v Hres Hdec Hd]; subst.
    exists p. split; [eapply resolves_elem; eauto|].
    destruct Hres as (_ & _ & _ & Hh & _). exact Hh.
  - apply (descent_leaf_in_proof _ _ _ _ E). left. eauto.
Qed.

(** *** [Traverse] *)

(** What [traverse] returns: a node and no error, a node and [errStop],
    or an error other than [errStop]; the node that comes with such
    an error is not used by any caller. *)
Inductive traversed :=
| Done (r : Node)
| Stopped (r : Node)
| Failed (err : error).

(** [errors.Is], on errors that wrap no other error. *)
Definition errors_Is (err target : error) : bool :=
  match err, target with
  | ErrNotFound, ErrNotFound | ErrKeyNotFound, ErrKeyNotFound
  | ErrDecode, ErrDecode | ErrIndex, ErrIndex => true
  | _, _ => false
  end.

Section Traversal.

(** The callback [process] is a closure: it is given its state and
    returns the state it leaves. *)
Variable State : Type.
Variable process : State -> Node -> list Z -> State * bool.
Variable ignoreStorageErr : bool.

(** The loop of [traverse] over the children of a branch, [trav] being
    the recursive call: [pre] are the children already replaced, [cs]
    the ones to come.  The children it leaves are those of the node
    after the assignments made in place. *)
Fixpoint traverse_children (trav : Node -> State -> option (State * Node * traversed))
    (pre cs : list Node) (s : State) : option (State * Node * traversed) :=
  match cs with
  | [] => Some (s, BranchNode pre, Done (BranchNode pre))
  | c :: cs' =>
      match trav c s with
      | None => None
      | Some (s, c', Failed err) => Some (s, BranchNode (pre ++ c' :: cs'), Failed err)
      | Some (s, _, Stopped r) =>
          Some (s, BranchNode (pre ++ r :: cs'), Stopped (BranchNode (pre ++ r :: cs')))
      | Some (s, _, Done r) => traverse_children trav (pre ++ [r]) cs' s
      end
  end.

(** [Trie.traverse].  The nodes are objects that the source changes in
    place: beside what the call returns, the result holds the node
    [curr] as the call leaves it, which is what a caller that drops the
    returned node still points to.  [fuel] bounds the depth and [None]
    is the result when it runs out. *)
Fixpoint traverse (fuel : nat) (st : gmap (list Z) (list Z)) (curr : Node) (s : State)
  : option (State * Node * traversed) :=
  match fuel with
  | O => None
  | S fuel =>
      match curr with
      | HashNode (Some h) =>
          match getFromStore st h with
          | inl err =>
              if ignoreStorageErr && errors_Is err ErrKeyNotFound
              then Some (s, curr, Done curr)
              else Some (s, curr, Failed err)
          | inr r =>
              match traverse fuel st r s with
              | None => None
              | Some (s, _, res) => Some (s, curr, res)
              end
          end
      | HashNode None => Some (s, curr, Done curr)
      | _ =>
          let bytes := Bytes curr in
          let '(s, stop) := process s curr bytes in
          if stop then Some (s, curr, Stopped curr)
          else
            match curr with
            | LeafNode _ => Some (s, curr, Done curr)
            | BranchNode cs =>
                traverse_children (fun c s => traverse fuel st c s) [] cs s
            | ExtensionNode key next =>
                match traverse fuel st next s with
                | None => None
                | Some (s, next', Failed err) =>
                    Some (s, ExtensionNode key next', Failed err)
                | Some (s, _, Stopped r) =>
                    Some (s, ExtensionNode key r, Stopped (ExtensionNode key r))
                | Some (s, _, Done r) =>
                    Some (s, ExtensionNode key r, Done (ExtensionNode key r))
                end
            | HashNode _ => Some (s, curr, Failed ErrNotFound)
            end
      end
  end.

(** [Trie.Traverse]: the state of the callback, the trie and the error
    it leaves. *)
Definition Traverse (fuel : nat) (t : Trie) (s : State)
  : option (State * Trie * option error) :=
  match traverse fuel (Store t) (root t) s with
  | None => None
  | Some (s, root', Failed err) => Some (s, mkTrie root' (Store t), Some err)
  | Some (s, _, Stopped r) => Some (s, mkTrie r (Store t), None)
  | Some (s, _, Done r) => Some (s, mkTrie r (Store t), None)
  end.

(** What a traversal keeps: the hash of the node, in the node as it is
    left and in the node returned; and it fails only on a node that the
    store does not have, and only when storage errors are not
    ignored. *)
Definition keeps_hash (curr : Node) (x : State * Node * traversed) : Prop :=
  NodeHash x.1.2 = NodeHash curr /\
  match x.2 with
  | Done r | Stopped r => NodeHash r = NodeHash curr
  | Failed err => ignoreStorageErr = false /\ err = ErrKeyNotFound
  end.

Section KeepsHash.

Hypothesis decode_encode : forall f, decode (encode f) = Some f.
Variable st : gmap (list Z) (list Z).
Hypothesis Hst : store_ok st.

Lemma getFromStore_errors h err :
  getFromStore st h = inl err -> err = ErrKeyNotFound.
Proof.
  unfold getFromStore. destruct (st !! h) as [b|] eqn:Eb.
  - destruct (Hst h b Eb) as [_ [f ->]]. rewrite decode_encode. discriminate.
  - intros E. inversion E. reflexivity.
Qed.

Lemma traverse_children_keeps_hash trav :
  (forall c s x, trav c s = Some x -> keeps_hash c x) ->
  forall cs pre s x,
    traverse_children trav pre cs s = Some x ->
    keeps_hash (BranchNode (pre ++ cs)) x.
Proof.
  intros Htrav. induction cs as [|c cs IH]; intros pre s x H; simpl in H.
  - inversion H; subst x. rewrite app_nil_r. split; reflexivity.
  - destruct (trav c s) as [[[s' c'] res]|] eqn:E; [|discriminate].
    destruct (Htrav _ _ _ E) as [Hm Hr]. simpl in Hm, Hr.
    assert (Hsame : forall r, NodeHash r = NodeHash c ->
                    NodeHash (BranchNode (pre ++ r :: cs))
                    = NodeHash (BranchNode (pre ++ c :: cs))).
    { intros r Hh. unfold NodeHash. rewrite !Bytes_branch, !map_app. simpl.
      rewrite Hh. reflexivity. }
    destruct res as [r|r|err].
    + apply IH in H. rewrite <- app_assoc in H. simpl in H.
      destruct H as [H1 H2]. split.
      * rewrite H1. apply Hsame, Hr.
      * destruct x.2; try exact H2; rewrite H2; apply Hsame, Hr.
    + inversion H; subst x. split; cbn [fst snd]; apply Hsame, Hr.
    + inversion H; subst x. split; cbn [fst snd]; [apply Hsame, Hm | exact Hr].
Qed.

Lemma traverse_keeps_hash fuel : forall curr s x,
  traverse fuel st curr s = Some x -> keeps_hash curr x.
Proof.
  induction fuel as [|fuel IH]; intros curr s x H; [discriminate|].
  destruct curr as [v|cs|key nx|[h|]]; simpl in H.
  - destruct (process s (LeafNode v) _) as [s' [|]];
      inversion H; subst x; split; reflexivity.
  - destruct (process s (BranchNode cs) _) as [s' [|]].
    + inversion H; subst x; split; reflexivity.
    + apply (traverse_children_keeps_hash _ (fun c s x => IH c s x) cs [] s' x H).
  - destruct (process s (ExtensionNode key nx) _) as [s' [|]].
    + inversion H; subst x; split; reflexivity.
    + destruct (traverse fuel st nx s') as [[[s'' nx'] res]|] eqn:E; [|discriminate].
      destruct (IH _ _ _ E) as [Hm Hr]. simpl in Hm, Hr.
      assert (Hsame : forall r, NodeHash r = NodeHash nx ->
                      NodeHash (ExtensionNode key r) = NodeHash (ExtensionNode key nx)).
      { intros r Hh. unfold NodeHash. rewrite !Bytes_extension, Hh. reflexivity. }
      destruct res as [r|r|err]; inversion H; subst x; split; cbn [fst snd]; auto.
  - destruct (getFromStore st h) as [err|r] eqn:Eg.
    + rewrite (getFromStore_errors h err Eg) in H.
      cbn [errors_Is] in H.
      destruct ignoreStorageErr eqn:Ei; inversion H; subst x; repeat split;
        first [reflexivity | exact Ei].
    + destruct (getFromStore_ok decode_encode st h r Hst Eg) as (f & -> & _ & Hh).
      destruct (traverse fuel st (unflatten f) s) as [[[s' m] res]|] eqn:E;
        [|discriminate].
      destruct (IH _ _ _ E) as [_ Hr]. simpl in Hr.
      inversion H; subst x. split; [reflexivity|]. simpl.
      rewrite NodeHash_unflatten, Hh in Hr. exact Hr.
  - inversion H; subst x. split; reflexivity.
Qed.

End KeepsHash.

End Traversal.

(** X29. Over a content-addressed store [Traverse] leaves the store
    and the root hash of the trie as they were, whatever the callback
    does and however the traversal ends, by an error included; it
    returns no error when the callback stops it; and the one error it
    returns is that of a node that the store does not have, which it
    does not return either when [ignoreStorageErr] is set. *)
Theorem Traverse_keeps_the_root_hash
    (decode_encode : forall f, decode (encode f) = Some f)
    (State : Type) (process : State -> Node -> list Z -> State * bool)
    (ignoreStorageErr : bool) (fuel : nat) (t t' : Trie) (s s' : State)
    (err : option error) :
  store_ok (Store t) ->
  Traverse State process ignoreStorageErr fuel t s = Some (s', t', err) ->
  Store t' = Store t /\
  NodeHash (root t') = NodeHash (root t) /\
  (err <> None -> ignoreStorageErr = false /\ err = Some ErrKeyNotFound).
Proof.
  intros Hst. unfold Traverse.
  destruct (traverse State process ignoreStorageErr fuel (Store t) (root t) s)
    as [[[s1 m] res]|] eqn:E; [|discriminate].
  pose proof (traverse_keeps_hash State process ignoreStorageErr decode_encode
                (Store t) Hst fuel _ _ _ E) as [Hm Hr].
  simpl in Hm, Hr.
  destruct res as [r|r|e]; intros H; inversion H; subst; simpl;
    (split; [reflexivity|]); (split; [assumption|]); try (intros Hc; congruence).
  intros _. destruct Hr as [Hi ->]. split; [exact Hi | reflexivity].
Qed.

End Hashing.

(** *** An instance to evaluate the functions on *)

#[global] Instance FlatNode_eq_dec : EqDecision FlatNode.
Proof. solve_decision. Defined.

Definition FlatNode_to_sum (f : FlatNode)
  : list Z + (list (option (list Z)) + list Z * option (list Z)) :=
  match f with
  | FLeaf v => inl v
  | FBranch hs => inr (inl hs)
  | FExtension k h => inr (inr (k, h))
  end.

Definition FlatNode_of_sum
    (x : list Z + (list (option (list Z)) + list Z * option (list Z))) : FlatNode :=
  match x with
  | inl v => FLeaf v
  | inr (inl hs) => FBranch hs
  | inr (inr (k, h)) => FExtension k h
  end.

#[global] Instance FlatNode_countable : Countable FlatNode.
Proof.
  apply (inj_countable' FlatNode_to_sum FlatNode_of_sum).
  intros [v|hs|k h]; reflexivity.
Defined.

(** A serialization with a decoder that inverts it: the code of the node
    in the enumeration of all nodes, as a single number. *)
Definition number_encode (f : FlatNode) : list Z :=
  [Z.pos (countable.encode f)].

Definition number_decode (b : list Z) : option FlatNode :=
  match b with
  | [Z.pos p] => countable.decode p
  | _ => None
  end.

Lemma number_decode_encode f : number_decode (number_encode f) = Some f.
Proof. unfold number_decode, number_encode. apply decode_encode. Qed.

(** The trie that holds the value "hi" under the key ab cd, all in
    memory over an empty store: an extension with the four nibbles of
    the key over a leaf. *)
Definition trie_abcd : Trie :=
  mkTrie (ExtensionNode [10; 11; 12; 13]%Z (LeafNode [104; 105]%Z)) ∅.

Lemma C4_proof_round_trip_witness :
  exists t' proof,
    GetProof (fun b => b) number_encode number_decode 2 trie_abcd [171; 205]%Z
      = Some (t', proof, None) /\
    (no_collision (fun b => b) proof ->
     forall fuel', 2 * 2 <= fuel' ->
     VerifyProof (fun b => b) number_decode fuel'
       (Bytes (fun b => b) number_encode (root trie_abcd)) [171; 205]%Z proof
     = Some ([104; 105]%Z, true)).
Proof.
  apply (proj1 (C4_proof_round_trip (fun b => b) number_encode number_decode
                  number_decode_encode trie_abcd
                  (Bytes (fun b => b) number_encode (root trie_abcd))
                  [171; 205]%Z [104; 105]%Z 2 [] [] [])).
  - intros h b Hb. simpl in Hb. rewrite lookup_empty in Hb. discriminate.
  - reflexivity.
  - vm_compute. reflexivity.
Defined.

(** The same trie with its two nodes in the store, each under its hash,
    and a reference to the extension as the root. *)
Definition leaf_hi : list Z := number_encode (FLeaf [104; 105]%Z).

Definition extension_abcd : list Z :=
  number_encode (FExtension [10; 11; 12; 13]%Z (Some leaf_hi)).

Definition trie_stored : Trie :=
  mkTrie (HashNode (Some extension_abcd))
         (<[extension_abcd := extension_abcd]> {[leaf_hi := leaf_hi]}).

Lemma trie_stored_ok : store_ok (fun b => b) number_encode (Store trie_stored).
Proof.
  intros h b Hb. simpl in Hb.
  apply lookup_insert_Some in Hb as [[<- <-]|[_ Hb]].
  - split; [reflexivity|]. eexists. reflexivity.
  - apply lookup_singleton_Some in Hb as [<- <-].
    split; [reflexivity|]. eexists. reflexivity.
Qed.

(** A reference that the store does not resolve: [GetProof] returns
    the error of the store, [Get] returns [ErrNotFound]. *)
Lemma GetProof_and_Get_on_a_missing_node :
  let t := mkTrie (HashNode (Some [1%Z])) ∅ in
  GetProof (fun b => b) number_encode number_decode 2 t [171%Z]
    = Some (t, [], Some ErrKeyNotFound) /\
  Get number_decode 2 t [171%Z] = Some (inl ErrNotFound).
Proof. vm_compute. split; reflexivity. Qed.

Lemma GetProof_keeps_the_root_hash_witness :
  match GetProof (fun b => b) number_encode number_decode 4 trie_stored
          [171; 205]%Z with
  | Some (t', proof, None) =>
      Store t' = Store trie_stored /\
      NodeHash (fun b => b) number_encode (root t')
        = NodeHash (fun b => b) number_encode (root trie_stored) /\
      GetProof (fun b => b) number_encode number_decode 4 t' [171; 205]%Z
        = Some (t', proof, None)
  | _ => False
  end.
Proof.
  destruct (GetProof (fun b => b) number_encode number_decode 4 trie_stored
              [171; 205]%Z) as [[[t' proof] [e|]]|] eqn:Eq.
  - vm_compute in Eq. discriminate.
  - apply (GetProof_keeps_the_root_hash (fun b => b) number_encode number_decode
             number_decode_encode 4 trie_stored t' [171; 205]%Z proof
             trie_stored_ok Eq).
  - vm_compute in Eq. discriminate.
Defined.

Lemma VerifyProof_uses_the_proof_witness :
  (exists p, p ∈ [extension_abcd; leaf_hi] /\ (fun b : list Z => b) p = extension_abcd) /\
  (exists q, q ∈ [extension_abcd; leaf_hi] /\
             number_decode q = Some (FLeaf [104; 105]%Z)).
Proof.
  apply (proj1 (VerifyProof_uses_the_proof (fun b => b) number_decode 4
                  extension_abcd [171; 205]%Z [extension_abcd; leaf_hi]
                  [104; 105]%Z)).
  vm_compute. reflexivity.
Defined.

Lemma Traverse_keeps_the_root_hash_witness :
  match Traverse (fun b => b) number_encode number_decode nat
          (fun n _ _ => (S n, false)) true 5 trie_stored 0 with
  | Some (s', t', err) =>
      Store t' = Store trie_stored /\
      NodeHash (fun b => b) number_encode (root t')
        = NodeHash (fun b => b) number_encode (root trie_stored) /\
      (err <> None -> true = false /\ err = Some ErrKeyNotFound)
  | None => False
  end.
Proof.
  destruct (Traverse (fun b => b) number_encode number_decode nat
              (fun n _ _ => (S n, false)) true 5 trie_stored 0)
    as [[[s' t'] err]|] eqn:Eq.
  - apply (Traverse_keeps_the_root_hash (fun b => b) number_encode number_decode
             number_decode_encode nat (fun n _ _ => (S n, false)) true 5
             trie_stored t' 0 s' err trie_stored_ok Eq).
  - vm_compute in Eq. discriminate.
Defined.

End MPT.
